(** * hnsd light-client kernel: header codec, compact difficulty, PoW check,
      chain work and trie-proof walker (src/header.c, src/proof.c).

    Bytes are integers in [0, 256) held in lists; a C array indexed out of
    range reads 0 and a write out of range is dropped.  Fixed-width C
    integers are [Z] with the wrap-around written where the source can
    reach it. *)

From Stdlib Require Import ZArith Lia Bool.
From stdpp Require Import list.

Local Open Scope Z_scope.
Local Set Warnings "-register-all".

(** ** Machine integers and byte arrays *)

Definition u8 (x : Z) : Z := Z.land x 0xff.
Definition u32 (x : Z) : Z := Z.land x 0xffffffff.
(** Two's-complement reading of the low 32 bits, for [int32_t]. *)
Definition i32 (x : Z) : Z := (x + 2 ^ 31) mod 2 ^ 32 - 2 ^ 31.

Definition is_byte (b : Z) : Prop := 0 <= b < 256.
Definition bytes_ok (l : list Z) : Prop := Forall is_byte l.

(** [a[i]] on a byte array. *)
Definition byte_at (l : list Z) (i : Z) : Z := default 0 (l !! Z.to_nat i).

Definition word_ok (w : Z) : Prop := 0 <= w < 2 ^ 32.

Definition bytes_okb (l : list Z) : bool :=
  forallb (fun b => (0 <=? b) && (b <? 256)) l.

(** [memset(target, 0, n)] on a fresh array. *)
Definition zeros (n : nat) : list Z := replicate n 0.

(** ** Compact difficulty (header.c, hsk_pow_to_target / hsk_pow_to_bits) *)

(** The loop [while (mantissa && i >= 0) { target[i--] = (uint8_t)mantissa;
    mantissa >>= 8; }], with [n = i + 1] so that [i >= 0] is [n <> 0]. *)
Fixpoint pow_target_loop (n : nat) (target : list Z) (mantissa : Z)
  : list Z * Z :=
  match n with
  | O => (target, mantissa)
  | S i =>
      if mantissa =? 0 then (target, mantissa)
      else pow_target_loop i (<[i := u8 mantissa]> target) (Z.shiftr mantissa 8)
  end.

(** Returns the [bool] result together with the contents of [target]. *)
Definition hsk_pow_to_target (bits : Z) : bool * list Z :=
  let target := zeros 32 in
  if bits =? 0 then (false, target)
  else if negb (Z.land (Z.shiftr bits 23) 1 =? 0) then (false, target)
  else
    let exponent := Z.shiftr bits 24 in
    let mantissa := Z.land bits 0x7fffff in
    let '(mantissa, shift) :=
      if exponent <=? 3
      then (Z.shiftr mantissa (8 * (3 - exponent)), 0)
      else (mantissa, Z.land (exponent - 3) 31) in
    let i := 31 - shift in
    let '(target, mantissa) :=
      pow_target_loop (Z.to_nat (i + 1)) target mantissa in
    if negb (mantissa =? 0) then (false, target) else (true, target).

(** [for (i = 0; i < 32; i++) if (target[i] != 0) break;] started at [i]
    with [n = 32 - i] iterations left. *)
Fixpoint first_nonzero (n : nat) (target : list Z) (i : Z) : Z :=
  match n with
  | O => i
  | S n' =>
      if negb (byte_at target i =? 0) then i
      else first_nonzero n' target (i + 1)
  end.

(** [for (; i < 31 - shift; i++) { mantissa <<= 8; mantissa |= target[i]; }]
    with [n] iterations left. *)
Fixpoint pow_bits_loop (n : nat) (target : list Z) (i mantissa : Z) : Z :=
  match n with
  | O => mantissa
  | S n' =>
      pow_bits_loop n' target (i + 1)
        (Z.lor (u32 (Z.shiftl mantissa 8)) (byte_at target i))
  end.

(** The fall-through [switch (exponent)] of the small-exponent branch. *)
Definition pow_bits_small (target : list Z) (exponent : Z) : Z :=
  let m := 0 in
  let m := if exponent =? 3
           then Z.lor m (u32 (Z.shiftl (byte_at target 29) 16)) else m in
  let m := if (exponent =? 3) || (exponent =? 2)
           then Z.lor m (u32 (Z.shiftl (byte_at target 30) 8)) else m in
  let m := if (exponent =? 3) || (exponent =? 2) || (exponent =? 1)
           then Z.lor m (byte_at target 31) else m in
  u32 (Z.shiftl m (8 * (3 - exponent))).

(** [Some bits] when the function returns [true] (and has written [*bits]),
    [None] when it returns [false]. *)
Definition hsk_pow_to_bits (target : list Z) : option Z :=
  let i := first_nonzero 32 target 0 in
  let exponent := u32 (32 - i) in
  if exponent =? 0 then Some 0
  else
    let mantissa :=
      if exponent <=? 3 then pow_bits_small target exponent
      else
        let shift := i32 (exponent - 3) in
        pow_bits_loop (Z.to_nat (31 - shift - i)) target i 0 in
    if negb (Z.land mantissa 0x800000 =? 0) then None
    else Some (Z.lor (u32 (Z.shiftl exponent 24)) mantissa).

(** ** Byte codec (bio.h) *)

(** Modelled from the spec: bio.h is not part of the sources.  Section 4.A:
    a reader works on a cursor (pointer, remaining length), here the list of
    the remaining bytes; it advances the cursor, and a short read fails the
    whole operation.  All multi-byte integers are little-endian. *)
Definition cursor := list Z.

(** Modelled from the spec: the [n] little-endian bytes of [v] (section 4.A,
    all multi-byte integers are little-endian). *)
Fixpoint le_bytes (n : nat) (v : Z) : list Z :=
  match n with
  | O => []
  | S n' => v mod 256 :: le_bytes n' (v / 256)
  end.

(** Modelled from the spec: the integer that little-endian bytes denote
    (section 4.A). *)
Fixpoint le_value (l : list Z) : Z :=
  match l with
  | [] => 0
  | b :: l' => b + 256 * le_value l'
  end.

(** Modelled from the spec: [read_bytes] of bio.h, section 4.A. *)
Definition read_bytes (c : cursor) (n : nat) : option (list Z * cursor) :=
  if (length c <? n)%nat then None else Some (take n c, drop n c).

(** Modelled from the spec: the fixed-width little-endian readers of bio.h,
    section 4.A. *)
Definition read_le (n : nat) (c : cursor) : option (Z * cursor) :=
  match read_bytes c n with
  | Some (bs, c') => Some (le_value bs, c')
  | None => None
  end.

(** Modelled from the spec: [read_u8] of bio.h, section 4.A. *)
Definition read_u8 : cursor -> option (Z * cursor) := read_le 1.
(** Modelled from the spec: [read_u32] of bio.h, section 4.A. *)
Definition read_u32 : cursor -> option (Z * cursor) := read_le 4.
(** Modelled from the spec: [read_u64] of bio.h, section 4.A. *)
Definition read_u64 : cursor -> option (Z * cursor) := read_le 8.

(** Modelled from the spec: the write side of bio.h, section 4.A.  A writer
    either advances a cursor into the caller's buffer, here [Some] of the
    bytes written so far, or, passed a null sink ([None]), only returns the
    byte count. *)
Definition sink := option (list Z).

(** Modelled from the spec: [write_bytes] of bio.h, section 4.A; the count
    returned is [n] with or without a sink. *)
Definition write_bytes (data : sink) (bs : list Z) (n : nat) : Z * sink :=
  (Z.of_nat n, (fun buf => buf ++ take n bs) <$> data).

(** Modelled from the spec: the fixed-width little-endian writers of bio.h,
    section 4.A. *)
Definition write_le (n : nat) (data : sink) (v : Z) : Z * sink :=
  (Z.of_nat n, (fun buf => buf ++ le_bytes n v) <$> data).

(** Modelled from the spec: [write_u8] of bio.h, section 4.A. *)
Definition write_u8 : sink -> Z -> Z * sink := write_le 1.
(** Modelled from the spec: [write_u32] of bio.h, section 4.A. *)
Definition write_u32 : sink -> Z -> Z * sink := write_le 4.
(** Modelled from the spec: [write_u64] of bio.h, section 4.A. *)
Definition write_u64 : sink -> Z -> Z * sink := write_le 8.

(** ** Header record (hsk-header.h as used by header.c) *)

(** The fields that [hsk_header_init] sets; the forward link [next] is a
    pointer the kernel never follows and is left out. *)
Record hsk_header_t := mk_header {
  version : Z;
  prev_block : list Z;
  merkle_root : list Z;
  witness_root : list Z;
  trie_root : list Z;
  time : Z;
  bits : Z;
  nonce : list Z;
  sol_size : Z;
  sol : list Z;
  cache : bool;
  hash : list Z;
  height : Z;
  work : list Z
}.

Definition set_version (h : hsk_header_t) (v : Z) :=
  mk_header v (prev_block h) (merkle_root h) (witness_root h) (trie_root h)
    (time h) (bits h) (nonce h) (sol_size h) (sol h)
    (cache h) (hash h) (height h) (work h).
Definition set_prev_block (h : hsk_header_t) (v : list Z) :=
  mk_header (version h) v (merkle_root h) (witness_root h) (trie_root h)
    (time h) (bits h) (nonce h) (sol_size h) (sol h)
    (cache h) (hash h) (height h) (work h).
Definition set_merkle_root (h : hsk_header_t) (v : list Z) :=
  mk_header (version h) (prev_block h) v (witness_root h) (trie_root h)
    (time h) (bits h) (nonce h) (sol_size h) (sol h)
    (cache h) (hash h) (height h) (work h).
Definition set_witness_root (h : hsk_header_t) (v : list Z) :=
  mk_header (version h) (prev_block h) (merkle_root h) v (trie_root h)
    (time h) (bits h) (nonce h) (sol_size h) (sol h)
    (cache h) (hash h) (height h) (work h).
Definition set_trie_root (h : hsk_header_t) (v : list Z) :=
  mk_header (version h) (prev_block h) (merkle_root h) (witness_root h) v
    (time h) (bits h) (nonce h) (sol_size h) (sol h)
    (cache h) (hash h) (height h) (work h).
Definition set_time (h : hsk_header_t) (v : Z) :=
  mk_header (version h) (prev_block h) (merkle_root h) (witness_root h)
    (trie_root h) v (bits h) (nonce h) (sol_size h) (sol h)
    (cache h) (hash h) (height h) (work h).
Definition set_bits (h : hsk_header_t) (v : Z) :=
  mk_header (version h) (prev_block h) (merkle_root h) (witness_root h)
    (trie_root h) (time h) v (nonce h) (sol_size h) (sol h)
    (cache h) (hash h) (height h) (work h).
Definition set_nonce (h : hsk_header_t) (v : list Z) :=
  mk_header (version h) (prev_block h) (merkle_root h) (witness_root h)
    (trie_root h) (time h) (bits h) v (sol_size h) (sol h)
    (cache h) (hash h) (height h) (work h).
Definition set_sol_size (h : hsk_header_t) (v : Z) :=
  mk_header (version h) (prev_block h) (merkle_root h) (witness_root h)
    (trie_root h) (time h) (bits h) (nonce h) v (sol h)
    (cache h) (hash h) (height h) (work h).
Definition set_sol (h : hsk_header_t) (v : list Z) :=
  mk_header (version h) (prev_block h) (merkle_root h) (witness_root h)
    (trie_root h) (time h) (bits h) (nonce h) (sol_size h) v
    (cache h) (hash h) (height h) (work h).
Definition set_work (h : hsk_header_t) (v : list Z) :=
  mk_header (version h) (prev_block h) (merkle_root h) (witness_root h)
    (trie_root h) (time h) (bits h) (nonce h) (sol_size h) (sol h)
    (cache h) (hash h) (height h) v.

(** [hsk_header_init]. *)
Definition hsk_header_init : hsk_header_t :=
  mk_header 0 (zeros 32) (zeros 32) (zeros 32) (zeros 32) 0 0 (zeros 16)
    0 (replicate 42 0) false (zeros 32) 0 (zeros 32).

(** [sol[i]] on the array of solution words. *)
Definition word_at (l : list Z) (i : Z) : Z := default 0 (l !! Z.to_nat i).

(** [read_sol], the portable branch: [for (i = 0; i < sol_size; i++)
    read_u32(data, data_len, sol + i)], started at [i] with [n] iterations
    left.  The [HSK_LITTLE_ENDIAN] branch copies the same bytes on a
    little-endian machine. *)
Fixpoint read_sol_loop (n : nat) (i : nat) (c : cursor) (sol : list Z)
  : bool * cursor * list Z :=
  match n with
  | O => (true, c, sol)
  | S n' =>
      match read_u32 c with
      | None => (false, c, sol)
      | Some (v, c') => read_sol_loop n' (S i) c' (<[i := v]> sol)
      end
  end.

Definition read_sol (c : cursor) (sol : list Z) (sol_size : Z)
  : bool * cursor * list Z :=
  read_sol_loop (Z.to_nat sol_size) 0 c sol.

(** [write_sol], the portable branch: [for (i = 0; i < sol_size; i++)
    write_u32(data, sol[i])], then [return (int32_t)sol_size << 2]. *)
Fixpoint write_sol_loop (n : nat) (i : Z) (data : sink) (sol : list Z)
  : sink :=
  match n with
  | O => data
  | S n' => write_sol_loop n' (i + 1) (snd (write_u32 data (word_at sol i))) sol
  end.

Definition write_sol (data : sink) (sol : list Z) (sol_size : Z) : Z * sink :=
  (Z.shiftl sol_size 2, write_sol_loop (Z.to_nat sol_size) 0 data sol).

(** [encode_sol(raw, sol, sol_size)]: the bytes left in [raw]. *)
Definition encode_sol (sol : list Z) (sol_size : Z) : list Z :=
  default [] (snd (write_sol (Some []) sol sol_size)).

(** [hsk_header_read]: the [bool] result, the cursor and the header as the
    call leaves them. *)
Definition hsk_header_read (c : cursor) (hdr : hsk_header_t)
  : bool * cursor * hsk_header_t :=
  match read_u32 c with None => (false, c, hdr) | Some (v, c) =>
  let hdr := set_version hdr v in
  match read_bytes c 32 with None => (false, c, hdr) | Some (v, c) =>
  let hdr := set_prev_block hdr v in
  match read_bytes c 32 with None => (false, c, hdr) | Some (v, c) =>
  let hdr := set_merkle_root hdr v in
  match read_bytes c 32 with None => (false, c, hdr) | Some (v, c) =>
  let hdr := set_witness_root hdr v in
  match read_bytes c 32 with None => (false, c, hdr) | Some (v, c) =>
  let hdr := set_trie_root hdr v in
  match read_u64 c with None => (false, c, hdr) | Some (v, c) =>
  let hdr := set_time hdr v in
  match read_u32 c with None => (false, c, hdr) | Some (v, c) =>
  let hdr := set_bits hdr v in
  match read_bytes c 16 with None => (false, c, hdr) | Some (v, c) =>
  let hdr := set_nonce hdr v in
  match read_u8 c with None => (false, c, hdr) | Some (v, c) =>
  let hdr := set_sol_size hdr v in
  if sol_size hdr >? 42 then (false, c, hdr)
  else
    let '(ok, c, s) := read_sol c (sol hdr) (sol_size hdr) in
    (ok, c, set_sol hdr s)
  end end end end end end end end end.

Definition hsk_header_decode (data : list Z) (hdr : hsk_header_t)
  : bool * hsk_header_t :=
  let '(ok, _, hdr') := hsk_header_read data hdr in (ok, hdr').

(** [hsk_header_write]: the returned count [s] and the sink afterwards.  The
    count stays far below [2^31], so the [int32_t] sum never wraps. *)
Definition hsk_header_write (hdr : hsk_header_t) (data : sink) : Z * sink :=
  let s := 0 in
  let '(n, data) := write_u32 data (version hdr) in let s := s + n in
  let '(n, data) := write_bytes data (prev_block hdr) 32 in let s := s + n in
  let '(n, data) := write_bytes data (merkle_root hdr) 32 in let s := s + n in
  let '(n, data) := write_bytes data (witness_root hdr) 32 in let s := s + n in
  let '(n, data) := write_bytes data (trie_root hdr) 32 in let s := s + n in
  let '(n, data) := write_u64 data (time hdr) in let s := s + n in
  let '(n, data) := write_u32 data (bits hdr) in let s := s + n in
  let '(n, data) := write_bytes data (nonce hdr) 16 in let s := s + n in
  let '(n, data) := write_u8 data (sol_size hdr) in let s := s + n in
  let '(n, data) := write_sol data (sol hdr) (sol_size hdr) in let s := s + n in
  (s, data).

Definition hsk_header_size (hdr : hsk_header_t) : Z :=
  fst (hsk_header_write hdr None).

(** [hsk_encode_header(hdr, data)]: the returned count and the bytes written
    into the caller's buffer. *)
Definition hsk_encode_header (hdr : hsk_header_t) : Z * list Z :=
  let '(s, data) := hsk_header_write hdr (Some []) in (s, default [] data).

Definition hsk_header_write_pre (hdr : hsk_header_t) (data : sink) : Z * sink :=
  let s := 0 in
  let '(n, data) := write_u32 data (version hdr) in let s := s + n in
  let '(n, data) := write_bytes data (prev_block hdr) 32 in let s := s + n in
  let '(n, data) := write_bytes data (merkle_root hdr) 32 in let s := s + n in
  let '(n, data) := write_bytes data (witness_root hdr) 32 in let s := s + n in
  let '(n, data) := write_bytes data (trie_root hdr) 32 in let s := s + n in
  let '(n, data) := write_u64 data (time hdr) in let s := s + n in
  let '(n, data) := write_u32 data (bits hdr) in let s := s + n in
  let '(n, data) := write_bytes data (nonce hdr) 16 in let s := s + n in
  (s, data).

Definition hsk_header_size_pre (hdr : hsk_header_t) : Z :=
  fst (hsk_header_write_pre hdr None).

Definition hsk_header_encode_pre (hdr : hsk_header_t) : list Z :=
  default [] (snd (hsk_header_write_pre hdr (Some []))).

(** The invariants the C types of the serialized fields carry. *)
Definition header_wf (h : hsk_header_t) : Prop :=
  0 <= version h < 2 ^ 32
  /\ length (prev_block h) = 32%nat
  /\ length (merkle_root h) = 32%nat
  /\ length (witness_root h) = 32%nat
  /\ length (trie_root h) = 32%nat
  /\ 0 <= time h < 2 ^ 64
  /\ 0 <= bits h < 2 ^ 32
  /\ length (nonce h) = 16%nat
  /\ 0 <= sol_size h < 2 ^ 8
  /\ length (sol h) = 42%nat
  /\ Forall word_ok (sol h).

(** The bytes of the solution words [i .. i + n - 1]. *)
Fixpoint sol_bytes (n : nat) (i : Z) (sol : list Z) : list Z :=
  match n with
  | O => []
  | S n' => le_bytes 4 (word_at sol i) ++ sol_bytes n' (i + 1) sol
  end.

(** The wire image of a header, field by field. *)
Definition header_bytes (h : hsk_header_t) : list Z :=
  le_bytes 4 (version h)
  ++ take 32 (prev_block h)
  ++ take 32 (merkle_root h)
  ++ take 32 (witness_root h)
  ++ take 32 (trie_root h)
  ++ le_bytes 8 (time h)
  ++ le_bytes 4 (bits h)
  ++ take 16 (nonce h)
  ++ le_bytes 1 (sol_size h)
  ++ sol_bytes (Z.to_nat (sol_size h)) 0 (sol h).

(** A header to run the codec on. *)
Definition sample_header : hsk_header_t :=
  mk_header 1 (replicate 32 0xab) (zeros 32) (zeros 32) (replicate 32 0x11)
    1540000000 0x1d00ffff (replicate 16 7) 2 ([0xdeadbeef; 42] ++ replicate 40 0)
    false (zeros 32) 0 (zeros 32).

(** ** External collaborators *)

(** The BLAKE2b-256 primitive: [hsk_hash_blake2b(raw, size, out)] in
    header.c, [blake2b_init(ctx, 32); blake2b_update; blake2b_final] in
    proof.c.  Its code is outside the kernel; everything below holds for any
    function in its place. *)
Class Blake2b := hsk_hash_blake2b : list Z -> list Z.

(** The Cuckoo-cycle verifier with its context constants applied,
    [hsk_cuckoo_verify_header(ctx, pre, psize, sol, sol_size)], and the two
    codes of hsk-error.h that [hsk_header_verify_pow] returns itself. *)
Class Cuckoo := {
  hsk_cuckoo_verify_header : list Z -> list Z -> Z -> Z;
  HSK_NEGTARGET : Z;
  HSK_HIGHHASH : Z
}.

(** The tag bytes of proof.h.  They are [case] labels of one [switch], so a
    C compiler only accepts pairwise different values. *)
Class NodeTags := {
  HSK_NULLNODE : Z;
  HSK_HASHNODE : Z;
  HSK_SHORTNODE : Z;
  HSK_FULLNODE : Z;
  HSK_VALUENODE : Z
}.

(** ** Proof of work (header.c, rcmp / hsk_header_verify_pow) *)

(** [for (; i >= 0; i--, j++)] of [rcmp], with [n = i + 1]. *)
Fixpoint rcmp_loop (a b : list Z) (n : nat) (j : Z) : Z :=
  match n with
  | O => 0
  | S i =>
      if byte_at a (Z.of_nat i) <? byte_at b j then -1
      else if byte_at a (Z.of_nat i) >? byte_at b j then 1
      else rcmp_loop a b i (j + 1)
  end.

Definition rcmp (a b : list Z) (size : nat) : Z := rcmp_loop a b size 0.

(** What the reverse byte compare decides: walking [a] from index [n - 1]
    down and [b] from index [j] up, the first pair that differs has the
    larger byte in [a]. *)
Definition rcmp_greater (a b : list Z) (n : nat) (j : Z) : Prop :=
  exists d : nat,
    (d < n)%nat
    /\ (forall e : nat, (e < d)%nat ->
          byte_at a (Z.of_nat (n - 1 - e)) = byte_at b (j + Z.of_nat e))
    /\ byte_at a (Z.of_nat (n - 1 - d)) > byte_at b (j + Z.of_nat d).

Section pow.
Context `{Blake2b, Cuckoo}.

(** [hsk_header_hash_sol]: the digest of the serialized solution words. *)
Definition hsk_header_hash_sol (hdr : hsk_header_t) : list Z :=
  hsk_hash_blake2b (encode_sol (sol hdr) (sol_size hdr)).

(** The [assert] on [hsk_cuckoo_init] is taken to hold. *)
Definition hsk_header_verify_pow (hdr : hsk_header_t) : Z :=
  let '(ok, target) := hsk_pow_to_target (bits hdr) in
  if negb ok then HSK_NEGTARGET
  else
    let raw := encode_sol (sol hdr) (sol_size hdr) in
    let hash := hsk_hash_blake2b raw in
    if rcmp hash target 32 >? 0 then HSK_HIGHHASH
    else
      let pre := hsk_header_encode_pre hdr in
      hsk_cuckoo_verify_header pre (sol hdr) (sol_size hdr).
End pow.

(** A digest and a verifier to run the definitions on. *)
Definition const_hash : Blake2b := fun _ => replicate 32 0xff.
Definition const_cuckoo : Cuckoo :=
  {| hsk_cuckoo_verify_header := fun _ _ _ => 0;
     HSK_NEGTARGET := 15;
     HSK_HIGHHASH := 16 |}.

(** ** Chain work (header.c, hsk_header_get_proof / hsk_header_calc_work) *)

Fixpoint be_value_acc (acc : Z) (l : list Z) : Z :=
  match l with
  | [] => acc
  | b :: l' => be_value_acc (256 * acc + b) l'
  end.

(** The unsigned integer a byte array denotes, most significant byte first. *)
Definition be_value (l : list Z) : Z := be_value_acc 0 l.

(** The [n] low bytes of [v], most significant first. *)
Definition be_bytes (n : nat) (v : Z) : list Z := rev (le_bytes n v).

(** Modelled from the spec: bn.h and bn.c are not part of the sources.  The
    specification (sections 1 and 6) asks for a small unsigned bignum
    library with construction from an int and from a big-endian byte array,
    left shift, increment, addition, division and conversion to a
    big-endian byte array.  A bignum is its value; it is wide enough to
    hold [2^256] (section 4.E computes with it), and writing it to an array
    of [size] bytes keeps its low [size] bytes. *)
Definition bn_t := Z.
(** Modelled from the spec: construction from an int (section 6). *)
Definition bignum_from_int (v : Z) : bn_t := v.
(** Modelled from the spec: left shift (section 6). *)
Definition bignum_lshift (a : bn_t) (nbits : Z) : bn_t := Z.shiftl a nbits.
(** Modelled from the spec: construction from a big-endian byte array
    (section 6). *)
Definition bignum_from_array (arr : list Z) (size : nat) : bn_t :=
  be_value (take size arr).
(** Modelled from the spec: increment (section 6). *)
Definition bignum_inc (a : bn_t) : bn_t := a + 1.
(** Modelled from the spec: division, [bignum_div(a, b, c)] leaving the
    quotient of [a] by [b] in [c] (sections 4.E and 6). *)
Definition bignum_div (a b : bn_t) : bn_t := a / b.
(** Modelled from the spec: addition, [bignum_add(a, b, c)] leaving the sum
    in [c] (sections 4.E and 6). *)
Definition bignum_add (a b : bn_t) : bn_t := a + b.
(** Modelled from the spec: conversion to a big-endian byte array
    (section 6); a value too wide for [size] bytes loses its high bytes. *)
Definition bignum_to_array (a : bn_t) (size : nat) : list Z := be_bytes size a.

(** [Some proof] when the function returns [true] and has filled [proof];
    [None] when it returns [false], leaving [proof] untouched. *)
Definition hsk_header_get_proof (hdr : hsk_header_t) : option (list Z) :=
  let '(ok, target) := hsk_pow_to_target (bits hdr) in
  if negb ok then None
  else
    let max_bn := bignum_from_int 1 in
    let max_bn := bignum_lshift max_bn 256 in
    let target_bn := bignum_from_array target 32 in
    let target_bn := bignum_inc target_bn in
    let target_bn := bignum_div max_bn target_bn in
    Some (bignum_to_array target_bn 32).

(** [prev] is [None] for a null pointer.  The result is the [bool] returned
    and the header as the call leaves it. *)
Definition hsk_header_calc_work (hdr : hsk_header_t) (prev : option hsk_header_t)
  : bool * hsk_header_t :=
  match prev with
  | None =>
      match hsk_header_get_proof hdr with
      | Some proof => (true, set_work hdr proof)
      | None => (false, hdr)
      end
  | Some prev =>
      let prev_bn := bignum_from_array (work prev) 32 in
      match hsk_header_get_proof hdr with
      | None => (false, hdr)
      | Some proof =>
          let proof_bn := bignum_from_array proof 32 in
          let proof_bn := bignum_add prev_bn proof_bn in
          (true, set_work hdr (bignum_to_array proof_bn 32))
      end
  end.

(** ** Trie proofs (proof.c) *)

(** Modelled from the spec: errors.h is not part of the sources.  Section 7
    lists the closed set of error kinds; these are the ones proof.c
    returns. *)
Inductive hsk_error :=
  | HSK_SUCCESS
  | HSK_EBADARGS
  | HSK_ENOMEM
  | HSK_EENCODING
  | HSK_EMALFORMEDNODE
  | HSK_EINVALIDNODE
  | HSK_EUNEXPECTEDNODE
  | HSK_EHASHMISMATCH
  | HSK_EEARLYEND
  | HSK_ENORESULT
  | HSK_EPROOFOK.

(** A pointer to a parsed node; [NullNode] is the [NULL] pointer.  A short
    node holds its key as the [key_len] nibbles at [key]. *)
Inductive hsk_node :=
  | NullNode
  | HashNode (data : list Z)
  | ShortNode (key : list Z) (value : hsk_node)
  | FullNode (children : list hsk_node)
  | ValueNode (data : list Z).

(** The loop of [to_nibbles], started at byte [i] with [n] bytes left. *)
Fixpoint nibbles_loop (n : nat) (data : list Z) (i : Z) : list Z :=
  match n with
  | O => []
  | S n' =>
      let b := byte_at data i in
      Z.shiftr b 4 :: Z.land b 0x0f :: nibbles_loop n' data (i + 1)
  end.

(** [to_nibbles(data, data_len, &nib, &nib_len)]: the [2 * data_len + 1]
    entries of [nib]; allocation is taken to succeed. *)
Definition to_nibbles (data : list Z) (data_len : nat) : list Z :=
  nibbles_loop data_len data 0 ++ [16].

(** [for (i = pos; i < len; i++) nib[i - pos] = nib[i];] with [n]
    iterations left. *)
Fixpoint decompress_loop (n : nat) (nib : list Z) (i pos : nat) : list Z :=
  match n with
  | O => nib
  | S n' =>
      decompress_loop n' (<[(i - pos)%nat := default 0 (nib !! i)]> nib)
        (S i) pos
  end.

(** [decompress(data, data_len, &dec, &dec_len)] on a non-null [data]: the
    buffer [dec] and the length [dec_len]. *)
Definition decompress (data : list Z) : hsk_error * list Z * Z :=
  let data_len := length data in
  if (data_len =? 0)%nat then (HSK_SUCCESS, [], 0)
  else
    let nib := to_nibbles data data_len in
    let nib_len := Z.of_nat (2 * data_len + 1) in
    let pos := 2 in
    let len := i32 (nib_len - 1) in
    let pos := if negb (Z.land (byte_at nib 0) 1 =? 0) then 1 else pos in
    let len := if negb (Z.land (byte_at nib 0) 2 =? 0) then len + 1 else len in
    let nib := decompress_loop (Z.to_nat (len - pos)) nib
                 (Z.to_nat pos) (Z.to_nat pos) in
    (HSK_SUCCESS, nib, len - pos).

(** The key a short node ends up with: the [dec_len] nibbles at [dec]. *)
Definition decompressed_key (data : list Z) : list Z :=
  let '(_, dec, dec_len) := decompress data in take (Z.to_nat dec_len) dec.

(** The decoding as section 3 of the specification words it: the payload
    starts at nibble 1 if bit 0 of the first nibble is set, else at 2, and
    runs up to the effective length, [2 * bytes] if bit 1 is set, else
    [2 * bytes - 1]. *)
Definition spec_decompress (data : list Z) : list Z :=
  let b := length data in
  let nib := to_nibbles data b in
  let pos := if Z.land (byte_at nib 0) 1 =? 0 then 2%nat else 1%nat in
  let len := if Z.land (byte_at nib 0) 2 =? 0 then (2 * b - 1)%nat else (2 * b)%nat in
  take (len - pos) (drop pos nib).

(** [read_varint(data, data_len, &varlen, &value)] on non-null arguments:
    the return code, [*varlen] and [*value].  [data[n] << s] is an [int];
    [i32] is what a two's-complement machine keeps of it. *)
Definition read_varint (data : list Z) : hsk_error * Z * Z :=
  let data_len := Z.of_nat (length data) in
  if data_len =? 0 then (HSK_EENCODING, 0, 0)
  else
    let first := byte_at data 0 in
    if first =? 0xff then (HSK_EENCODING, 0, 0)
    else if first =? 0xfe then
      if data_len <? 5 then (HSK_EENCODING, 0, 0)
      else
        let v := 0 in
        let v := Z.lor v (i32 (Z.shiftl (byte_at data 4) 24)) in
        let v := Z.lor v (i32 (Z.shiftl (byte_at data 3) 16)) in
        let v := Z.lor v (i32 (Z.shiftl (byte_at data 2) 8)) in
        let v := Z.lor v (i32 (Z.shiftl (byte_at data 1) 0)) in
        if v <=? 0xffff then (HSK_EENCODING, 0, 0)
        else (HSK_SUCCESS, 5, v)
    else if first =? 0xfd then
      if data_len <? 3 then (HSK_EENCODING, 0, 0)
      else
        let v := 0 in
        let v := Z.lor v (i32 (Z.shiftl (byte_at data 2) 8)) in
        let v := Z.lor v (i32 (Z.shiftl (byte_at data 1) 0)) in
        if v <? 0xfd then (HSK_EENCODING, 0, 0)
        else (HSK_SUCCESS, 3, v)
    else (HSK_SUCCESS, 1, first).

(** The three-form integer as section 4.B of the specification words it:
    the decoded value and the number of bytes it occupies, [None] for an
    empty, truncated, reserved or non-canonical encoding. *)
Definition spec_varint (data : list Z) : option (Z * Z) :=
  match data with
  | [] => None
  | first :: rest =>
      if first <? 0xfd then Some (first, 1)
      else if first =? 0xfd then
        match rest with
        | b1 :: b2 :: _ =>
            let v := le_value [b1; b2] in
            if v <? 0xfd then None else Some (v, 3)
        | _ => None
        end
      else if first =? 0xfe then
        match rest with
        | b1 :: b2 :: b3 :: b4 :: _ =>
            let v := le_value [b1; b2; b3; b4] in
            if v <=? 0xffff then None else Some (v, 5)
        | _ => None
        end
      else None
  end.

(** An [int32_t] converted to [size_t] for a comparison. *)
Definition to_size_t (x : Z) : Z := x mod 2 ^ 64.

(** [read_varbytes(data, data_len, &out, &out_len, &varlen, light)] on a
    non-null [data]: the return code, the bytes at [out], [*out_len] and
    [*varlen].  Both settings of [light] give the same bytes, aliased or
    copied; allocation is taken to succeed. *)
Definition read_varbytes (data : list Z) (light : bool)
  : hsk_error * list Z * Z * Z :=
  match read_varint data with
  | (HSK_SUCCESS, size, value) =>
      let data_len := Z.of_nat (length data) - size in
      let data := drop (Z.to_nat size) data in
      if data_len <? to_size_t value then (HSK_EENCODING, [], 0, 0)
      else (HSK_SUCCESS, take (Z.to_nat value) data, value, size)
  | (rc, _, _) => (rc, [], 0, 0)
  end.

(** The loop [for (i = 0; i < 17; i++)] of the full-node case, with [n]
    children left to parse by [parse] and the children so far in [acc],
    last first. *)
Fixpoint parse_children
    (parse : list Z -> option (hsk_error * hsk_node * list Z))
    (n : nat) (data : list Z) (acc : list hsk_node)
  : option (hsk_error * hsk_node * list Z) :=
  match n with
  | O => Some (HSK_SUCCESS, FullNode (rev acc), data)
  | S n' =>
      match parse data with
      | None => None
      | Some (HSK_SUCCESS, child, data) => parse_children parse n' data (child :: acc)
      | Some (rc, _, _) => Some (rc, NullNode, data)
      end
  end.

(** [parse] returns on every input of at most [bound] bytes, and never
    hands back more bytes than it was given. *)
Definition parse_total (parse : list Z -> option (hsk_error * hsk_node * list Z))
    (bound : nat) : Prop :=
  forall data, (length data <= bound)%nat ->
    exists rc node rest,
      parse data = Some (rc, node, rest) /\ (length rest <= length data)%nat.

Section trie.
Context `{Blake2b, NodeTags}.

(** [hsk_parse_node(data, data_len, &node, &ret_data, &ret_len)] with
    [fuel] bounding the nesting of calls: the return code, [*node] and
    the bytes left at [ret_data].  [None] only when [fuel] runs out,
    which [parse_fuel_enough] excludes for [hsk_parse_node]. *)
Fixpoint parse_node (fuel : nat) (data : list Z)
  : option (hsk_error * hsk_node * list Z) :=
  match fuel with
  | O => None
  | S fuel' =>
      match data with
      | [] => Some (HSK_EMALFORMEDNODE, NullNode, data)
      | type :: data =>
          if type =? HSK_NULLNODE then Some (HSK_SUCCESS, NullNode, data)
          else if type =? HSK_HASHNODE then
            if (length data <? 32)%nat
            then Some (HSK_EMALFORMEDNODE, NullNode, data)
            else Some (HSK_SUCCESS, HashNode (take 32 data), drop 32 data)
          else if type =? HSK_SHORTNODE then
            match read_varbytes data true with
            | (HSK_SUCCESS, out, out_len, varlen) =>
                match decompress out with
                | (HSK_SUCCESS, dec, dec_len) =>
                    let data := drop (Z.to_nat varlen) data in
                    let data := drop (Z.to_nat out_len) data in
                    match parse_node fuel' data with
                    | None => None
                    | Some (HSK_SUCCESS, value, data) =>
                        Some (HSK_SUCCESS,
                              ShortNode (take (Z.to_nat dec_len) dec) value,
                              data)
                    | Some (rc, _, _) => Some (rc, NullNode, data)
                    end
                | (rc, _, _) => Some (rc, NullNode, data)
                end
            | (rc, _, _, _) => Some (rc, NullNode, data)
            end
          else if type =? HSK_FULLNODE then
            parse_children (parse_node fuel') 17 data []
          else if type =? HSK_VALUENODE then
            match read_varbytes data false with
            | (HSK_SUCCESS, out, out_len, varlen) =>
                let data := drop (Z.to_nat varlen) data in
                let data := drop (Z.to_nat out_len) data in
                Some (HSK_SUCCESS, ValueNode out, data)
            | (rc, _, _, _) => Some (rc, NullNode, data)
            end
          else Some (HSK_EMALFORMEDNODE, NullNode, data)
      end
  end.

Definition hsk_parse_node (data : list Z) : hsk_error * hsk_node * list Z :=
  default (HSK_EMALFORMEDNODE, NullNode, data)
    (parse_node (S (length data)) data).
End trie.

(** [memcmp(a, b, n) == 0]. *)
Definition memcmp_eq (a b : list Z) (n : nat) : bool :=
  bool_decide (take n a = take n b).

(** [next_child(&node, k, &p)]: the return code, [*node] and [*p].  The
    recursion follows the pointer that replaces [*node] at each turn of the
    [while] loop.  A parsed node always carries one of the four tags, so the
    [default] case of the inner [switch] has no counterpart. *)
Fixpoint next_child (node : hsk_node) (k : list Z) (p : Z) {struct node}
  : hsk_error * hsk_node * Z :=
  if 65 - p >? 0 then
    match node with
    | NullNode => (HSK_SUCCESS, NullNode, -1)
    | ShortNode key value =>
        let key_len := length key in
        if (65 - p <? Z.of_nat key_len)
           || negb (memcmp_eq (drop (Z.to_nat p) k) key key_len)
        then (HSK_SUCCESS, NullNode, -1)
        else next_child value k (p + Z.of_nat key_len)
    | FullNode children =>
        (fix pick (l : list hsk_node) (j : nat) {struct l} :=
           match l, j with
           | nn :: _, O => next_child nn k (p + 1)
           | _ :: l', S j' => pick l' j'
           | [], _ => (HSK_SUCCESS, NullNode, -1)
           end) children (Z.to_nat (byte_at k p))
    | HashNode _ => (HSK_SUCCESS, node, p)
    | ValueNode _ => (HSK_EUNEXPECTEDNODE, node, p)
    end
  else
    match node with
    | ValueNode _ => (HSK_SUCCESS, node, -1)
    | _ => (HSK_SUCCESS, NullNode, -1)
    end.

(** What [next_child] can hand back: an absence with [p = -1], a hash node
    to latch, or a value node, found either at the end of the key (with
    [p = -1]) or too early. *)
Definition next_child_outcome (r : hsk_error * hsk_node * Z) : Prop :=
  let '(rc, node, p) := r in
  match node with
  | NullNode => rc = HSK_SUCCESS /\ p = -1
  | HashNode _ => rc = HSK_SUCCESS
  | ValueNode _ => (rc = HSK_SUCCESS /\ p = -1) \/ rc = HSK_EUNEXPECTEDNODE
  | ShortNode _ _ | FullNode _ => False
  end.

Section walker.
Context `{Blake2b, NodeTags}.

(** The body of [for (c = nodes; c; c = c->next)] in [hsk_verify_proof]
    with the walker state [h], [p]: the return code, [*data] ([None] for
    [NULL]) and [*data_len].  [blake2b_init] with the constant output
    length 32 is taken to succeed. *)
Fixpoint verify_loop (k : list Z) (c : list (list Z)) (h : list Z) (p : Z)
  : hsk_error * option (list Z) * Z :=
  match c with
  | [] => (HSK_ENORESULT, None, 0)
  | blob :: next =>
      let hash := hsk_hash_blake2b blob in
      if negb (memcmp_eq hash h 32) then (HSK_EHASHMISMATCH, None, 0)
      else
        match hsk_parse_node blob with
        | (HSK_SUCCESS, node, _) =>
            match next_child node k p with
            | (HSK_SUCCESS, node, p) =>
                match node with
                | NullNode =>
                    match next with
                    | _ :: _ => (HSK_EEARLYEND, None, 0)
                    | [] => (HSK_EPROOFOK, None, 0)
                    end
                | HashNode data => verify_loop k next data p
                | ValueNode data =>
                    match next with
                    | _ :: _ => (HSK_EEARLYEND, None, 0)
                    | [] => (HSK_EPROOFOK, Some data, Z.of_nat (length data))
                    end
                | _ => (HSK_EINVALIDNODE, None, 0)
                end
            | (rc, _, _) => (rc, None, 0)
            end
        | (rc, _, _) => (rc, None, 0)
        end
  end.

(** [hsk_verify_proof(root, key, nodes, &data, &data_len)] with non-null
    out-parameters; [root] and [key] are [None] for [NULL]. *)
Definition hsk_verify_proof (root key : option (list Z))
    (nodes : list (list Z)) : hsk_error * option (list Z) * Z :=
  match root, key with
  | Some root, Some key =>
      let k := to_nibbles key 32 in
      verify_loop k nodes root 0
  | _, _ => (HSK_EBADARGS, None, 0)
  end.

(** [walk k c h p c' h' p']: started on the blobs [c] with expected hash
    [h] and position [p], the loop of [hsk_verify_proof] gets to the top
    of its body with the blobs [c'] left, expecting [h'] at position [p'].
    Each blob passed matched its expected hash, parsed, and descended to a
    hash node, whose hash is the next one expected. *)
Inductive walk (k : list Z)
  : list (list Z) -> list Z -> Z -> list (list Z) -> list Z -> Z -> Prop :=
  | walk_here c h p : walk k c h p c h p
  | walk_next blob next h p node rest data p1 c' h' p' :
      memcmp_eq (hsk_hash_blake2b blob) h 32 = true ->
      hsk_parse_node blob = (HSK_SUCCESS, node, rest) ->
      next_child node k p = (HSK_SUCCESS, HashNode data, p1) ->
      walk k next data p1 c' h' p' ->
      walk k (blob :: next) h p c' h' p'.

(** The final blob of a successful inclusion proof: it matches the
    expected hash, parses, and the descent ends on a value node. *)
Definition ends_on_value (k : list Z) (last h : list Z) (p : Z)
    (payload : list Z) : Prop :=
  memcmp_eq (hsk_hash_blake2b last) h 32 = true
  /\ exists node rest p',
      hsk_parse_node last = (HSK_SUCCESS, node, rest)
      /\ next_child node k p = (HSK_SUCCESS, ValueNode payload, p').
End walker.

(** Tag bytes to run the parser on. *)
Definition const_tags : NodeTags :=
  {| HSK_NULLNODE := 0;
     HSK_HASHNODE := 1;
     HSK_SHORTNODE := 2;
     HSK_FULLNODE := 3;
     HSK_VALUENODE := 4 |}.

(** A short node spelling all 65 nibbles of the all-zero key, over a value
    node with payload [1; 2; 3]. *)
Definition leaf_blob : list Z := [2; 33; 0x20] ++ zeros 32 ++ [4; 3; 1; 2; 3].

(** A blob that is one hash node. *)
Definition hash_blob : list Z := 1 :: replicate 32 0xff.

(** A full node whose slot 0 is a hash node and whose 16 other slots are
    null. *)
Definition full_blob : list Z := 3 :: hash_blob ++ zeros 16.

(** A short node spelling the 64 nibbles left of the all-zero key after its
    first one, over a value node with payload [42]. *)
Definition tail_blob : list Z := [2; 32; 0x30] ++ zeros 31 ++ [4; 1; 42].

(** ** Reference values for the compact encoding and the header image *)

(** The mantissa and the byte shift [hsk_pow_to_target] works with. *)
Definition pow_mantissa (bits : Z) : Z :=
  if Z.shiftr bits 24 <=? 3
  then Z.shiftr (Z.land bits 0x7fffff) (8 * (3 - Z.shiftr bits 24))
  else Z.land bits 0x7fffff.

Definition pow_shift (bits : Z) : Z :=
  if Z.shiftr bits 24 <=? 3 then 0 else Z.land (Z.shiftr bits 24 - 3) 31.

(** The number a compact [bits] stands for: mantissa times
    [256 ^ (exponent - 3)], rounded down. *)
Definition compact_value (bits : Z) : Z :=
  Z.land bits 0x7fffff * 256 ^ Z.shiftr bits 24 / 256 ^ 3.

(** The solution words that [n] four-byte groups of [c] spell. *)
Fixpoint decode_words (n : nat) (c : list Z) : list Z :=
  match n with
  | O => []
  | S n' => le_value (take 4 c) :: decode_words n' (drop 4 c)
  end.

(** The header whose serialized fields are the ones [data] spells. *)
Definition header_of_bytes (data : list Z) : hsk_header_t :=
  let n := Z.to_nat (byte_at data 160) in
  mk_header (le_value (take 4 data)) (take 32 (drop 4 data))
    (take 32 (drop 36 data)) (take 32 (drop 68 data)) (take 32 (drop 100 data))
    (le_value (take 8 (drop 132 data))) (le_value (take 4 (drop 140 data)))
    (take 16 (drop 144 data)) (byte_at data 160)
    (decode_words n (drop 161 data) ++ replicate (42 - n) 0)
    false (zeros 32) 0 (zeros 32).

(** What a decoder needs of its input: the 161 fixed bytes, a solution
    count of at most 42 in byte 160, and four bytes per solution word. *)
Definition header_image_ok (data : list Z) : Prop :=
  (161 <= length data)%nat
  /\ byte_at data 160 <= 42
  /\ 161 + 4 * byte_at data 160 <= Z.of_nat (length data).

(** ** Header digests (header.c, hsk_header_cache and its callers) *)

Definition set_cache (h : hsk_header_t) (v : bool) :=
  mk_header (version h) (prev_block h) (merkle_root h) (witness_root h)
    (trie_root h) (time h) (bits h) (nonce h) (sol_size h) (sol h)
    v (hash h) (height h) (work h).
Definition set_hash (h : hsk_header_t) (v : list Z) :=
  mk_header (version h) (prev_block h) (merkle_root h) (witness_root h)
    (trie_root h) (time h) (bits h) (nonce h) (sol_size h) (sol h)
    (cache h) v (height h) (work h).

Section digests.
Context `{Blake2b}.

(** [hsk_header_cache]: the digest [hdr->hash] it returns a pointer to, and
    the header afterwards.  [raw] holds the [hsk_header_size(hdr)] bytes
    that [hsk_encode_header] wrote. *)
Definition hsk_header_cache (hdr : hsk_header_t) : list Z * hsk_header_t :=
  if cache hdr then (hash hdr, hdr)
  else
    let raw := snd (hsk_encode_header hdr) in
    let hdr := set_hash hdr (hsk_hash_blake2b raw) in
    let hdr := set_cache hdr true in
    (hash hdr, hdr).

(** [hsk_header_hash]: the 32 bytes copied into [hash], and the header. *)
Definition hsk_header_hash (hdr : hsk_header_t) : list Z * hsk_header_t :=
  let '(digest, hdr) := hsk_header_cache hdr in (take 32 digest, hdr).

(** [hsk_header_hash_pre]: the digest of the pre-image. *)
Definition hsk_header_hash_pre (hdr : hsk_header_t) : list Z :=
  hsk_hash_blake2b (hsk_header_encode_pre hdr).

(** [hsk_header_equal] on two distinct headers: the result and both headers
    afterwards. *)
Definition hsk_header_equal (a b : hsk_header_t)
  : bool * hsk_header_t * hsk_header_t :=
  let '(da, a) := hsk_header_cache a in
  let '(db, b) := hsk_header_cache b in
  (memcmp_eq da db 32, a, b).
End digests.

(** ** Shape of parsed nodes (proof.c, hsk_parse_node) *)

(** What the structs of proof.h hold once [hsk_parse_node] has filled them
    in: 32 bytes in a hash node, 17 children in a full node, and in a short
    node a key whose entries are half-bytes or the terminator 16. *)
Fixpoint node_wf (n : hsk_node) : Prop :=
  match n with
  | NullNode | ValueNode _ => True
  | HashNode d => length d = 32%nat
  | ShortNode key v => Forall (fun x => 0 <= x <= 16) key /\ node_wf v
  | FullNode cs =>
      length cs = 17%nat
      /\ (fix all (l : list hsk_node) : Prop :=
            match l with
            | [] => True
            | c :: l' => node_wf c /\ all l'
            end) cs
  end.

(** The return codes [hsk_parse_node] has, allocation succeeding. *)
Definition parse_code (rc : hsk_error) : Prop :=
  rc = HSK_SUCCESS \/ rc = HSK_EMALFORMEDNODE \/ rc = HSK_EENCODING.

(** What a parser has to keep to for [parse_children] and [parse_node] to
    keep to it. *)
Definition parse_sound (parse : list Z -> option (hsk_error * hsk_node * list Z))
  : Prop :=
  forall data rc node rest,
    bytes_ok data -> parse data = Some (rc, node, rest) ->
    parse_code rc
    /\ (rc = HSK_SUCCESS -> node_wf node /\ rest `suffix_of` data).

(** ** Descent through a parsed node (proof.c, next_child) *)

(** [descends k node p node' p']: from [node] at key position [p], the
    [while] loop of [next_child] gets to [node'] at position [p'], each
    short node passed spelling the half-bytes of the key at its position
    and each full node passed entered at the slot the key names. *)
Inductive descends (k : list Z) : hsk_node -> Z -> hsk_node -> Z -> Prop :=
  | descends_here node p : descends k node p node p
  | descends_short key value p node' p' :
      p <= 64 -> Z.of_nat (length key) <= 65 - p ->
      take (length key) (drop (Z.to_nat p) k) = key ->
      descends k value (p + Z.of_nat (length key)) node' p' ->
      descends k (ShortNode key value) p node' p'
  | descends_full children child p node' p' :
      p <= 64 -> children !! Z.to_nat (byte_at k p) = Some child ->
      descends k child (p + 1) node' p' ->
      descends k (FullNode children) p node' p'.

(** Where the loop stops: at a hash node or a value node inside the key,
    or at a value node past its end. *)
Definition stops_at (node' : hsk_node) (q : Z) (r : hsk_error * hsk_node * Z)
  : Prop :=
  match node' with
  | HashNode _ => q <= 64 /\ r = (HSK_SUCCESS, node', q)
  | ValueNode _ =>
      (q <= 64 /\ r = (HSK_EUNEXPECTEDNODE, node', q))
      \/ (65 <= q /\ r = (HSK_SUCCESS, node', -1))
  | _ => False
  end.

(** The return codes the loop of [hsk_verify_proof] has. *)
Definition walk_code (rc : hsk_error) : Prop :=
  rc = HSK_ENORESULT \/ rc = HSK_EHASHMISMATCH \/ rc = HSK_EMALFORMEDNODE
  \/ rc = HSK_EENCODING \/ rc = HSK_EUNEXPECTEDNODE \/ rc = HSK_EEARLYEND
  \/ rc = HSK_EPROOFOK.

(** ** Name proofs (proof.c, hsk_verify_name) *)

Section names.
Context `{Blake2b, NodeTags}.

(** [hsk_verify_name(root, name, nodes, &data, &data_len)]: [name] is the
    [strlen(name)] bytes of the string, the key is their digest;
    [blake2b_init] is taken to succeed. *)
Definition hsk_verify_name (root : option (list Z)) (name : list Z)
    (nodes : list (list Z)) : hsk_error * option (list Z) * Z :=
  let key := hsk_hash_blake2b name in
  hsk_verify_proof root (Some key) nodes.

(** The tag bytes are five different bytes. *)
Definition tags_distinct : Prop :=
  NoDup [HSK_NULLNODE; HSK_HASHNODE; HSK_SHORTNODE; HSK_FULLNODE; HSK_VALUENODE].

(** The blob of a leaf: a short node whose compressed key is the flag byte
    0x20 and the 32 bytes of [key], over a value node holding [payload]. *)
Definition leaf_for (key payload : list Z) : list Z :=
  [HSK_SHORTNODE; 33; 0x20] ++ key
  ++ [HSK_VALUENODE; Z.of_nat (length payload)] ++ payload.
End names.

(** ** Hash nodes inside a parsed node *)

(** [holds h node]: a hash node with the 32 bytes [h] sits in [node], under
    short nodes and in slots of full nodes. *)
Inductive holds (h : list Z) : hsk_node -> Prop :=
  | holds_here : holds h (HashNode h)
  | holds_short key value : holds h value -> holds h (ShortNode key value)
  | holds_full children child :
      child ∈ children -> holds h child -> holds h (FullNode children).

(** [h] is 32 consecutive bytes of [data]. *)
Definition slice_of (h data : list Z) : Prop :=
  exists i : nat, (i + 32 <= length data)%nat /\ h = take 32 (drop i data).

(** What a parser has to keep to: the hash nodes of the node it returns
    are slices of its input, and what it leaves is a suffix of its input. *)
Definition parse_slices (parse : list Z -> option (hsk_error * hsk_node * list Z))
  : Prop :=
  forall data node rest,
    parse data = Some (HSK_SUCCESS, node, rest) ->
    rest `suffix_of` data /\ forall h, holds h node -> slice_of h data.

(** * Properties *)

(** ** Bit operations as arithmetic *)

Lemma land_shiftl_low (hi lo k : Z) :
  0 <= k -> 0 <= lo < 2 ^ k -> Z.land (Z.shiftl hi k) lo = 0.
Proof.
  intros Hk Hlo. apply Z.bits_inj'. intros n Hn.
  rewrite Z.land_spec, Z.bits_0.
  destruct (Z.lt_ge_cases n k) as [Hlt | Hge].
  - rewrite Z.shiftl_spec_low by assumption. reflexivity.
  - destruct (Z.eq_dec lo 0) as [-> | Hne].
    + rewrite Z.bits_0. apply andb_false_r.
    + rewrite (Z.bits_above_log2 lo n); [apply andb_false_r | lia |].
      apply Z.lt_le_trans with k; [| assumption].
      apply Z.log2_lt_pow2; lia.
Qed.

Lemma lor_shiftl_add (hi lo k : Z) :
  0 <= k -> 0 <= lo < 2 ^ k -> Z.lor (Z.shiftl hi k) lo = hi * 2 ^ k + lo.
Proof.
  intros Hk Hlo.
  rewrite <- (Z.add_0_r (Z.lor _ _)), <- (land_shiftl_low hi lo k) by assumption.
  rewrite Z.add_lor_land, Z.shiftl_mul_pow2 by assumption. reflexivity.
Qed.

Lemma u8_mod (x : Z) : u8 x = x mod 256.
Proof. unfold u8. change 0xff with (Z.ones 8). now rewrite Z.land_ones. Qed.

Lemma u32_mod (x : Z) : u32 x = x mod 2 ^ 32.
Proof. unfold u32. change 0xffffffff with (Z.ones 32). now rewrite Z.land_ones. Qed.

Lemma u32_small (x : Z) : 0 <= x < 2 ^ 32 -> u32 x = x.
Proof. intros Hx. rewrite u32_mod. now apply Z.mod_small. Qed.

Lemma i32_small (x : Z) : - 2 ^ 31 <= x < 2 ^ 31 -> i32 x = x.
Proof. intros Hx. unfold i32. rewrite Z.mod_small; lia. Qed.

(** Rewrites shifts and masks by constants into [/], [*] and [mod]. *)
Ltac arith_bits :=
  repeat first
    [ rewrite u8_mod
    | rewrite u32_mod
    | rewrite Z.shiftr_div_pow2 by lia
    | rewrite Z.shiftl_mul_pow2 by lia ].

(** ** Compact difficulty *)

Lemma pow_target_loop_zero n t : pow_target_loop n t 0 = (t, 0).
Proof. destruct n; reflexivity. Qed.

(** Three turns of the decoding loop write the three mantissa bytes; a turn
    the loop skips because the mantissa ran out would have written 0 over
    0. *)
Lemma pow_target_loop_3 (n : nat) (t : list Z) (m : Z) :
  0 <= m < 2 ^ 24 ->
  t !! (2 + n)%nat = Some 0 -> t !! (1 + n)%nat = Some 0 -> t !! n = Some 0 ->
  pow_target_loop (3 + n) t m
  = (<[n := u8 (Z.shiftr m 16)]>
       (<[(1 + n)%nat := u8 (Z.shiftr m 8)]> (<[(2 + n)%nat := u8 m]> t)), 0).
Proof.
  intros Hm H2 H1 H0.
  assert (Hs : Z.shiftr (Z.shiftr (Z.shiftr m 8) 8) 8 = 0).
  { arith_bits. change (2 ^ 8) with 256. change (2 ^ 24) with 16777216 in Hm.
    Z.div_mod_to_equations. lia. }
  assert (H16 : Z.shiftr (Z.shiftr m 8) 8 = Z.shiftr m 16).
  { rewrite Z.shiftr_shiftr by lia. reflexivity. }
  change (3 + n)%nat with (S (S (S n))).
  cbn [pow_target_loop].
  destruct (m =? 0) eqn:E0.
  { apply Z.eqb_eq in E0. subst m. change (Z.shiftr 0 16) with 0.
    change (Z.shiftr 0 8) with 0. change (u8 0) with 0.
    rewrite (list_insert_id t (2 + n) 0 H2), (list_insert_id t (1 + n) 0 H1),
      (list_insert_id t n 0 H0). reflexivity. }
  destruct (Z.shiftr m 8 =? 0) eqn:E1.
  { apply Z.eqb_eq in E1. rewrite <- H16, E1.
    change (Z.shiftr 0 8) with 0. change (u8 0) with 0.
    f_equal. symmetry.
    rewrite (list_insert_id _ (1 + n) 0), (list_insert_id _ n 0);
      rewrite ?list_lookup_insert_ne by lia; auto. }
  rewrite H16.
  destruct (Z.shiftr m 16 =? 0) eqn:E2.
  { apply Z.eqb_eq in E2. rewrite E2. change (u8 0) with 0.
    f_equal. symmetry.
    rewrite (list_insert_id _ n 0); auto.
    rewrite !list_lookup_insert_ne by lia; auto. }
  rewrite <- H16, Hs, pow_target_loop_zero. reflexivity.
Qed.

Lemma land_1_mod (x : Z) : Z.land x 1 = x mod 2.
Proof. change 1 with (Z.ones 1). now rewrite Z.land_ones. Qed.

Lemma land_7fffff_mod (x : Z) : Z.land x 0x7fffff = x mod 2 ^ 23.
Proof. change 0x7fffff with (Z.ones 23). now rewrite Z.land_ones. Qed.

(** Decoding [bits] with exponent [e <= 3] and 23-bit mantissa [m]. *)
Lemma pow_to_target_small (e m : Z) :
  1 <= e <= 3 -> 0 <= m < 2 ^ 23 ->
  hsk_pow_to_target (e * 2 ^ 24 + m)
  = let m' := Z.shiftr m (8 * (3 - e)) in
    (true, <[29%nat := u8 (Z.shiftr m' 16)]>
             (<[30%nat := u8 (Z.shiftr m' 8)]>
                (<[31%nat := u8 m']> (zeros 32)))).
Proof.
  intros He Hm. unfold hsk_pow_to_target.
  assert (Hb0 : (e * 2 ^ 24 + m =? 0) = false) by (apply Z.eqb_neq; lia).
  assert (Hsign : Z.land (Z.shiftr (e * 2 ^ 24 + m) 23) 1 = 0).
  { rewrite land_1_mod, Z.shiftr_div_pow2 by lia.
    change (2 ^ 24) with 16777216. change (2 ^ 23) with 8388608 in *.
    Z.div_mod_to_equations. lia. }
  assert (Hexp : Z.shiftr (e * 2 ^ 24 + m) 24 = e).
  { rewrite Z.shiftr_div_pow2 by lia.
    change (2 ^ 24) with 16777216. change (2 ^ 23) with 8388608 in *.
    Z.div_mod_to_equations. lia. }
  assert (Hman : Z.land (e * 2 ^ 24 + m) 0x7fffff = m).
  { rewrite land_7fffff_mod.
    change (2 ^ 24) with 16777216. change (2 ^ 23) with 8388608 in *.
    Z.div_mod_to_equations. lia. }
  rewrite Hb0, Hsign, Hexp, Hman.
  replace (e <=? 3) with true by (symmetry; apply Z.leb_le; lia).
  cbv zeta. cbn [negb Z.eqb].
  change (Z.to_nat (31 - 0 + 1)) with (3 + 29)%nat.
  rewrite pow_target_loop_3; try reflexivity.
  rewrite Z.shiftr_div_pow2 by lia. split.
  - apply Z.div_pos; lia.
  - apply Z.le_lt_trans with m; [| lia].
    apply Z.div_le_upper_bound; [lia |].
    assert (1 <= 2 ^ (8 * (3 - e))) by (apply (Z.pow_le_mono_r 2 0); lia).
    nia.
Qed.

(** Decoding [bits] with exponent [3 < e <= 32]: the mantissa bytes land at
    indices [32 - e .. 34 - e], zeros elsewhere. *)
Lemma pow_to_target_large (e m : Z) :
  3 < e <= 32 -> 0 <= m < 2 ^ 23 ->
  hsk_pow_to_target (e * 2 ^ 24 + m)
  = (true, zeros (Z.to_nat (32 - e))
           ++ [u8 (Z.shiftr m 16); u8 (Z.shiftr m 8); u8 m]
           ++ zeros (Z.to_nat (e - 3))).
Proof.
  intros He Hm. unfold hsk_pow_to_target.
  assert (Hb0 : (e * 2 ^ 24 + m =? 0) = false) by (apply Z.eqb_neq; lia).
  assert (Hsign : Z.land (Z.shiftr (e * 2 ^ 24 + m) 23) 1 = 0).
  { rewrite land_1_mod, Z.shiftr_div_pow2 by lia.
    change (2 ^ 24) with 16777216. change (2 ^ 23) with 8388608 in *.
    Z.div_mod_to_equations. lia. }
  assert (Hexp : Z.shiftr (e * 2 ^ 24 + m) 24 = e).
  { rewrite Z.shiftr_div_pow2 by lia.
    change (2 ^ 24) with 16777216. change (2 ^ 23) with 8388608 in *.
    Z.div_mod_to_equations. lia. }
  assert (Hman : Z.land (e * 2 ^ 24 + m) 0x7fffff = m).
  { rewrite land_7fffff_mod.
    change (2 ^ 24) with 16777216. change (2 ^ 23) with 8388608 in *.
    Z.div_mod_to_equations. lia. }
  rewrite Hb0, Hsign, Hexp, Hman.
  replace (e <=? 3) with false by (symmetry; apply Z.leb_gt; lia).
  cbv zeta. cbn [negb Z.eqb].
  assert (Hm24 : 0 <= m < 2 ^ 24) by (change (2 ^ 24) with (2 * 2 ^ 23); lia).
  assert (Hsh : Z.land (e - 3) 31 = e - 3).
  { change 31 with (Z.ones 5). rewrite Z.land_ones by lia.
    apply Z.mod_small. change (2 ^ 5) with 32. lia. }
  rewrite Hsh.
  assert (HN : Z.to_nat (31 - (e - 3) + 1) = (3 + Z.to_nat (32 - e))%nat) by lia.
  rewrite HN.
  rewrite pow_target_loop_3;
    [| assumption | apply lookup_replicate_2; lia ..].
  cbn [negb Z.eqb]. f_equal.
  assert (Hcases : exists n : nat, (n <= 28)%nat /\ e = 32 - Z.of_nat n).
  { exists (Z.to_nat (32 - e)). lia. }
  destruct Hcases as (n & Hn & ->).
  do 29 (destruct n as [| n]; [ reflexivity | ]; try lia).
Qed.

Lemma lor_add_disjoint (x y k : Z) :
  0 <= k -> x mod 2 ^ k = 0 -> 0 <= y < 2 ^ k -> Z.lor x y = x + y.
Proof.
  intros Hk Hx Hy.
  assert (Hx' : x = Z.shiftl (x / 2 ^ k) k).
  { rewrite Z.shiftl_mul_pow2 by assumption.
    rewrite (Z.div_mod x (2 ^ k)) at 1 by lia. lia. }
  rewrite Hx' at 1. rewrite lor_shiftl_add by assumption.
  rewrite (Z.div_mod x (2 ^ k)) at 2 by lia. lia.
Qed.

Lemma land_bit23 (m : Z) :
  0 <= m < 2 ^ 24 -> (Z.land m 0x800000 =? 0) = (m <? 2 ^ 23).
Proof.
  intros Hm.
  assert (Hland : Z.land m 0x800000 = (m / 2 ^ 23) * 2 ^ 23).
  { apply Z.bits_inj'. intros n Hn.
    rewrite Z.land_spec. change 0x800000 with (2 ^ 23).
    rewrite Z.pow2_bits_eqb by lia.
    destruct (Z.lt_ge_cases n 23) as [Hlt | Hge].
    - rewrite Z.mul_pow2_bits_low by lia.
      replace (23 =? n) with false by (symmetry; apply Z.eqb_neq; lia).
      apply andb_false_r.
    - rewrite Z.mul_pow2_bits by lia.
      rewrite Z.div_pow2_bits by lia.
      replace (n - 23 + 23) with n by lia.
      destruct (Z.eq_dec n 23) as [-> | Hne].
      + rewrite Z.eqb_refl. apply andb_true_r.
      + replace (23 =? n) with false by (symmetry; apply Z.eqb_neq; lia).
        rewrite andb_false_r.
        destruct (Z.eq_dec m 0) as [-> | Hm0]; [now rewrite Z.bits_0 |].
        symmetry. apply Z.bits_above_log2; [lia |].
        apply Z.lt_le_trans with 24; [apply Z.log2_lt_pow2; lia | lia]. }
  rewrite Hland. change (2 ^ 24) with 16777216 in Hm.
  change (2 ^ 23) with 8388608.
  destruct (m <? 8388608) eqn:E.
  - apply Z.ltb_lt in E. apply Z.eqb_eq. Z.div_mod_to_equations. lia.
  - apply Z.ltb_ge in E. apply Z.eqb_neq. Z.div_mod_to_equations. lia.
Qed.

(** The first non-zero byte of a target whose 29 leading bytes are zero. *)
Lemma first_nonzero_tail (a b c : Z) :
  first_nonzero 32 (zeros 29 ++ [a; b; c]) 0
  = if negb (a =? 0) then 29
    else if negb (b =? 0) then 30
    else if negb (c =? 0) then 31 else 32.
Proof. reflexivity. Qed.

Ltac pow2_consts :=
  change (2 ^ 8) with 256 in *; change (2 ^ 16) with 65536 in *;
  change (2 ^ 23) with 8388608 in *; change (2 ^ 24) with 16777216 in *;
  change (2 ^ 32) with 4294967296 in *.

Lemma pow_bits_small_3 (a b c : Z) :
  is_byte a -> is_byte b -> is_byte c ->
  pow_bits_small (zeros 29 ++ [a; b; c]) 3 = a * 2 ^ 16 + b * 2 ^ 8 + c.
Proof.
  unfold is_byte. intros Ha Hb Hc.
  change (pow_bits_small (zeros 29 ++ [a; b; c]) 3)
    with (u32 (Z.shiftl (Z.lor (Z.lor (Z.lor 0 (u32 (Z.shiftl a 16)))
                                      (u32 (Z.shiftl b 8))) c) 0)).
  rewrite Z.shiftl_0_r, Z.lor_0_l.
  rewrite !Z.shiftl_mul_pow2 by lia. pow2_consts.
  rewrite (u32_small (a * 65536)), (u32_small (b * 256)) by (pow2_consts; lia).
  rewrite (lor_add_disjoint (a * 65536) (b * 256) 16);
    [| lia | pow2_consts; Z.div_mod_to_equations; lia | pow2_consts; lia].
  rewrite (lor_add_disjoint _ c 8);
    [| lia | pow2_consts; Z.div_mod_to_equations; lia | pow2_consts; lia].
  apply u32_small. pow2_consts. lia.
Qed.

Lemma pow_bits_small_2 (a b c : Z) :
  is_byte b -> is_byte c ->
  pow_bits_small (zeros 29 ++ [a; b; c]) 2 = b * 2 ^ 16 + c * 2 ^ 8.
Proof.
  unfold is_byte. intros Hb Hc.
  change (pow_bits_small (zeros 29 ++ [a; b; c]) 2)
    with (u32 (Z.shiftl (Z.lor (Z.lor 0 (u32 (Z.shiftl b 8))) c) 8)).
  rewrite Z.lor_0_l.
  rewrite !Z.shiftl_mul_pow2 by lia. pow2_consts.
  rewrite (u32_small (b * 256)) by (pow2_consts; lia).
  rewrite (lor_add_disjoint _ c 8);
    [| lia | pow2_consts; Z.div_mod_to_equations; lia | pow2_consts; lia].
  rewrite u32_small by (pow2_consts; lia). lia.
Qed.

Lemma pow_bits_small_1 (a b c : Z) :
  is_byte c ->
  pow_bits_small (zeros 29 ++ [a; b; c]) 1 = c * 2 ^ 16.
Proof.
  unfold is_byte. intros Hc.
  change (pow_bits_small (zeros 29 ++ [a; b; c]) 1)
    with (u32 (Z.shiftl (Z.lor 0 c) 16)).
  rewrite Z.lor_0_l, Z.shiftl_mul_pow2 by lia.
  apply u32_small. pow2_consts. lia.
Qed.

Lemma pow_bits_finish (e m bits : Z) :
  1 <= e <= 32 -> 0 <= m < 2 ^ 24 ->
  (if negb (Z.land m 0x800000 =? 0) then None
   else Some (Z.lor (u32 (Z.shiftl e 24)) m)) = Some bits ->
  0 <= m < 2 ^ 23 /\ bits = e * 2 ^ 24 + m.
Proof.
  intros He Hm. rewrite land_bit23 by assumption.
  destruct (m <? 2 ^ 23) eqn:E; cbn [negb]; [| discriminate].
  apply Z.ltb_lt in E. intros [= <-]. split; [lia |].
  rewrite u32_small by (rewrite Z.shiftl_mul_pow2 by lia; pow2_consts; lia).
  apply lor_shiftl_add; lia.
Qed.

Lemma bits_fields (e m : Z) :
  0 <= m < 2 ^ 24 ->
  Z.shiftr (e * 2 ^ 24 + m) 24 = e /\ Z.land (e * 2 ^ 24 + m) 0xffffff = m.
Proof.
  intros Hm. split.
  - rewrite Z.shiftr_div_pow2 by lia. pow2_consts.
    Z.div_mod_to_equations. lia.
  - change 0xffffff with (Z.ones 24). rewrite Z.land_ones by lia.
    pow2_consts. Z.div_mod_to_equations. lia.
Qed.

Lemma pow_bits_roundtrip_abc (a b c bits : Z) :
  is_byte a -> is_byte b -> is_byte c ->
  zeros 29 ++ [a; b; c] <> zeros 32 ->
  hsk_pow_to_bits (zeros 29 ++ [a; b; c]) = Some bits ->
  hsk_pow_to_target bits = (true, zeros 29 ++ [a; b; c])
  /\ (let i := first_nonzero 32 (zeros 29 ++ [a; b; c]) 0 in
      Z.shiftr bits 24 = 32 - i
      /\ Z.land bits 0xffffff
         = byte_at (zeros 29 ++ [a; b; c]) i * 2 ^ 16
           + byte_at (zeros 29 ++ [a; b; c]) (i + 1) * 2 ^ 8
           + byte_at (zeros 29 ++ [a; b; c]) (i + 2)).
Proof.
  intros Ha Hb Hc Hne Hbits.
  unfold hsk_pow_to_bits in Hbits. rewrite first_nonzero_tail in *.
  assert (Ha' := Ha). assert (Hb' := Hb). assert (Hc' := Hc).
  unfold is_byte in Ha', Hb', Hc'.
  destruct (a =? 0) eqn:Ea; cbn [negb] in *.
  2:{ apply Z.eqb_neq in Ea.
      change (u32 (32 - 29)) with 3 in Hbits.
      change (3 =? 0) with false in Hbits. change (3 <=? 3) with true in Hbits.
      cbv iota zeta in Hbits. rewrite pow_bits_small_3 in Hbits by assumption.
      apply pow_bits_finish in Hbits; [| lia | pow2_consts; lia].
      destruct Hbits as [Hm ->]. split.
      - rewrite pow_to_target_small by lia. cbv zeta.
        change (8 * (3 - 3)) with 0. rewrite Z.shiftr_0_r.
        replace (u8 (Z.shiftr (a * 2 ^ 16 + b * 2 ^ 8 + c) 16)) with a
          by (arith_bits; pow2_consts; Z.div_mod_to_equations; lia).
        replace (u8 (Z.shiftr (a * 2 ^ 16 + b * 2 ^ 8 + c) 8)) with b
          by (arith_bits; pow2_consts; Z.div_mod_to_equations; lia).
        replace (u8 (a * 2 ^ 16 + b * 2 ^ 8 + c)) with c
          by (arith_bits; pow2_consts; Z.div_mod_to_equations; lia).
        reflexivity.
      - destruct (bits_fields 3 (a * 2 ^ 16 + b * 2 ^ 8 + c)) as [-> ->];
          [pow2_consts; lia |].
        split; reflexivity. }
  apply Z.eqb_eq in Ea. subst a.
  destruct (b =? 0) eqn:Eb; cbn [negb] in *.
  2:{ apply Z.eqb_neq in Eb.
      change (u32 (32 - 30)) with 2 in Hbits.
      change (2 =? 0) with false in Hbits. change (2 <=? 3) with true in Hbits.
      cbv iota zeta in Hbits. rewrite pow_bits_small_2 in Hbits by assumption.
      apply pow_bits_finish in Hbits; [| lia | pow2_consts; lia].
      destruct Hbits as [Hm ->]. split.
      - rewrite pow_to_target_small by lia. cbv zeta.
        change (8 * (3 - 2)) with 8.
        replace (u8 (Z.shiftr (Z.shiftr (b * 2 ^ 16 + c * 2 ^ 8) 8) 16)) with 0
          by (arith_bits; pow2_consts; Z.div_mod_to_equations; lia).
        replace (u8 (Z.shiftr (Z.shiftr (b * 2 ^ 16 + c * 2 ^ 8) 8) 8)) with b
          by (arith_bits; pow2_consts; Z.div_mod_to_equations; lia).
        replace (u8 (Z.shiftr (b * 2 ^ 16 + c * 2 ^ 8) 8)) with c
          by (arith_bits; pow2_consts; Z.div_mod_to_equations; lia).
        reflexivity.
      - destruct (bits_fields 2 (b * 2 ^ 16 + c * 2 ^ 8)) as [-> ->];
          [pow2_consts; lia |].
        split; [reflexivity |].
        change (byte_at (zeros 29 ++ [0; b; c]) 30) with b.
        change (byte_at (zeros 29 ++ [0; b; c]) (30 + 1)) with c.
        change (byte_at (zeros 29 ++ [0; b; c]) (30 + 2)) with 0. lia. }
  apply Z.eqb_eq in Eb. subst b.
  destruct (c =? 0) eqn:Ec; cbn [negb] in *.
  { apply Z.eqb_eq in Ec. subst c. exfalso. apply Hne. reflexivity. }
  apply Z.eqb_neq in Ec.
  change (u32 (32 - 31)) with 1 in Hbits.
  change (1 =? 0) with false in Hbits. change (1 <=? 3) with true in Hbits.
  cbv iota zeta in Hbits. rewrite pow_bits_small_1 in Hbits by assumption.
  apply pow_bits_finish in Hbits; [| lia | pow2_consts; lia].
  destruct Hbits as [Hm ->]. split.
  - rewrite pow_to_target_small by lia. cbv zeta.
    change (8 * (3 - 1)) with 16.
    replace (u8 (Z.shiftr (Z.shiftr (c * 2 ^ 16) 16) 16)) with 0
      by (arith_bits; pow2_consts; Z.div_mod_to_equations; lia).
    replace (u8 (Z.shiftr (Z.shiftr (c * 2 ^ 16) 16) 8)) with 0
      by (arith_bits; pow2_consts; Z.div_mod_to_equations; lia).
    replace (u8 (Z.shiftr (c * 2 ^ 16) 16)) with c
      by (arith_bits; pow2_consts; Z.div_mod_to_equations; lia).
    reflexivity.
  - destruct (bits_fields 1 (c * 2 ^ 16)) as [-> ->]; [pow2_consts; lia |].
    split; [reflexivity |].
    change (byte_at (zeros 29 ++ [0; 0; c]) 31) with c.
    change (byte_at (zeros 29 ++ [0; 0; c]) (31 + 1)) with 0.
    change (byte_at (zeros 29 ++ [0; 0; c]) (31 + 2)) with 0. lia.
Qed.

Lemma bytes_okb_ok (l : list Z) : bytes_okb l = true -> bytes_ok l.
Proof.
  unfold bytes_okb, bytes_ok, is_byte. rewrite forallb_forall, Forall_forall.
  intros Hl b Hb. apply list_elem_of_In, Hl in Hb. lia.
Qed.

(** A 32-byte array whose 29 leading bytes are zero. *)
Lemma small_target_shape (t : list Z) :
  length t = 32%nat -> take 29 t = zeros 29 ->
  t = zeros 29 ++ [byte_at t 29; byte_at t 30; byte_at t 31].
Proof.
  intros Hlen Hzero.
  do 32 (destruct t as [| ? t]; [discriminate Hlen |]).
  destruct t; [| discriminate Hlen].
  cbv [take zeros replicate] in Hzero.
  injection Hzero as -> -> -> -> -> -> -> -> -> -> -> -> -> -> -> -> -> -> ->
    -> -> -> -> -> -> -> -> -> ->.
  reflexivity.
Qed.

Lemma bytes_ok_at (t : list Z) (i : Z) : bytes_ok t -> is_byte (byte_at t i).
Proof.
  intros Hok. unfold byte_at.
  destruct (t !! Z.to_nat i) as [b |] eqn:E; cbn.
  - exact (Forall_lookup_1 _ _ _ _ Hok E).
  - unfold is_byte. lia.
Qed.

Lemma first_nonzero_spec (n : nat) (t : list Z) (i0 : Z) :
  i0 <= first_nonzero n t i0 <= i0 + Z.of_nat n
  /\ (forall j, i0 <= j < first_nonzero n t i0 -> byte_at t j = 0)
  /\ (first_nonzero n t i0 < i0 + Z.of_nat n ->
      byte_at t (first_nonzero n t i0) <> 0).
Proof.
  revert i0. induction n as [| n IH]; intros i0; cbn [first_nonzero].
  - split; [lia |]. split; intros; lia.
  - destruct (byte_at t i0 =? 0) eqn:E; cbn [negb].
    + apply Z.eqb_eq in E. destruct (IH (i0 + 1)) as (Hr & Hz & Hnz).
      split; [lia |]. split.
      * intros j Hj. destruct (Z.eq_dec j i0) as [-> | Hne]; [exact E |].
        apply Hz. lia.
      * intros Hlt. apply Hnz. lia.
    + apply Z.eqb_neq in E. split; [lia |]. split; [intros; lia | auto].
Qed.

Lemma zero_prefix (t : list Z) :
  length t = 32%nat -> (forall j, 0 <= j < 29 -> byte_at t j = 0) ->
  take 29 t = zeros 29.
Proof.
  intros Hlen Hz. apply list_eq. intros k. unfold zeros.
  rewrite lookup_take.
  destruct (decide (k < 29)%nat) as [Hk | Hk].
  - rewrite lookup_replicate_2 by lia.
    specialize (Hz (Z.of_nat k) ltac:(lia)). unfold byte_at in Hz.
    rewrite Nat2Z.id in Hz.
    destruct (t !! k) as [x |] eqn:E.
    + cbn in Hz. subst x. reflexivity.
    + apply lookup_ge_None in E. lia.
  - symmetry. apply lookup_replicate_None. lia.
Qed.

(** With the first non-zero byte below index 29 the exponent field is still
    32 minus that index. *)
Lemma pow_to_bits_large_exponent (t : list Z) (b : Z) :
  bytes_ok t -> first_nonzero 32 t 0 < 29 ->
  hsk_pow_to_bits t = Some b ->
  Z.shiftr b 24 = 32 - first_nonzero 32 t 0.
Proof.
  intros Hok Hi Hbits.
  destruct (first_nonzero_spec 32 t 0) as (Hr & _ & _).
  unfold hsk_pow_to_bits in Hbits.
  set (i := first_nonzero 32 t 0) in *.
  rewrite (u32_small (32 - i)) in Hbits by (pow2_consts; lia).
  replace (32 - i =? 0) with false in Hbits by (symmetry; apply Z.eqb_neq; lia).
  replace (32 - i <=? 3) with false in Hbits by (symmetry; apply Z.leb_gt; lia).
  cbv zeta in Hbits.
  rewrite (i32_small (32 - i - 3)) in Hbits by lia.
  replace (Z.to_nat (31 - (32 - i - 3) - i)) with 2%nat in Hbits by lia.
  cbn [pow_bits_loop] in Hbits.
  pose proof (bytes_ok_at t i Hok) as Hx.
  pose proof (bytes_ok_at t (i + 1) Hok) as Hy.
  unfold is_byte in Hx, Hy.
  assert (Hm : Z.lor (u32 (Z.shiftl (Z.lor (u32 (Z.shiftl 0 8)) (byte_at t i)) 8))
                 (byte_at t (i + 1))
               = byte_at t i * 2 ^ 8 + byte_at t (i + 1)).
  { rewrite Z.shiftl_0_l. change (u32 0) with 0. rewrite Z.lor_0_l.
    rewrite Z.shiftl_mul_pow2 by lia.
    rewrite u32_small by (pow2_consts; lia).
    apply (lor_add_disjoint _ _ 8);
      [lia | pow2_consts; Z.div_mod_to_equations; lia | pow2_consts; lia]. }
  rewrite Hm in Hbits.
  apply pow_bits_finish in Hbits; [| lia | pow2_consts; lia].
  destruct Hbits as [_ ->].
  apply bits_fields. pow2_consts. lia.
Qed.

(** C2 (amended): for every 32-byte target on which [hsk_pow_to_bits]
    succeeds with [b], the exponent field of [b] is 32 minus the index [i]
    of the first non-zero byte (32 when there is none); and when that index
    is 29, 30 or 31 (a non-zero target with exponent at most 3),
    [hsk_pow_to_target b] succeeds and gives back the target, the mantissa
    field of [b] being made of the three bytes at [i], [i + 1], [i + 2]
    (zero past the end). *)
Theorem pow_bits_target_roundtrip (t : list Z) (b : Z) :
  length t = 32%nat -> bytes_ok t -> hsk_pow_to_bits t = Some b ->
  let i := first_nonzero 32 t 0 in
  Z.shiftr b 24 = 32 - i
  /\ (29 <= i < 32 ->
      hsk_pow_to_target b = (true, t)
      /\ Z.land b 0xffffff
         = byte_at t i * 2 ^ 16 + byte_at t (i + 1) * 2 ^ 8 + byte_at t (i + 2)).
Proof.
  intros Hlen Hok Hbits i.
  destruct (first_nonzero_spec 32 t 0) as (Hr & Hz & Hnz). fold i in Hr, Hz, Hnz.
  assert (Hsmall : 29 <= i < 32 ->
            hsk_pow_to_target b = (true, t)
            /\ Z.shiftr b 24 = 32 - i
            /\ Z.land b 0xffffff
               = byte_at t i * 2 ^ 16 + byte_at t (i + 1) * 2 ^ 8
                 + byte_at t (i + 2)).
  { intros Hi.
    assert (Hzero : take 29 t = zeros 29)
      by (apply zero_prefix; [assumption | intros j Hj; apply Hz; lia]).
    assert (Hne : t <> zeros 32).
    { intros ->. apply Hnz; [lia |].
      unfold byte_at, zeros. rewrite lookup_replicate_2 by lia. reflexivity. }
    pose proof (bytes_ok_at t 29 Hok) as H29.
    pose proof (bytes_ok_at t 30 Hok) as H30.
    pose proof (bytes_ok_at t 31 Hok) as H31.
    rewrite (small_target_shape t Hlen Hzero) in Hne, Hbits.
    pose proof (pow_bits_roundtrip_abc _ _ _ b H29 H30 H31 Hne Hbits) as Habc.
    rewrite <- (small_target_shape t Hlen Hzero) in Habc. exact Habc. }
  split.
  - destruct (Z.lt_ge_cases i 29) as [Hlt | Hge].
    + apply pow_to_bits_large_exponent; assumption.
    + destruct (Z.eq_dec i 32) as [Hi | Hi].
      * unfold hsk_pow_to_bits in Hbits. fold i in Hbits. rewrite Hi in Hbits.
        injection Hbits as <-. rewrite Hi. reflexivity.
      * apply Hsmall. lia.
  - intros Hi. destruct (Hsmall Hi) as (Hrt & _ & Hman). split; assumption.
Qed.

Lemma pow_bits_target_roundtrip_witness :
  let t := zeros 29 ++ [0x12; 0x34; 0x56] in
  let i := first_nonzero 32 t 0 in
  hsk_pow_to_target 0x03123456 = (true, t)
  /\ Z.land 0x03123456 0xffffff
     = byte_at t i * 2 ^ 16 + byte_at t (i + 1) * 2 ^ 8 + byte_at t (i + 2).
Proof.
  intros t i.
  apply (pow_bits_target_roundtrip t 0x03123456).
  - reflexivity.
  - apply bytes_okb_ok. reflexivity.
  - reflexivity.
  - vm_compute. split; [discriminate | reflexivity].
Defined.

(** C2 as stated fails: the all-zero target encodes to [bits = 0], which
    [hsk_pow_to_target] rejects. *)
Lemma pow_bits_target_roundtrip_fails :
  ~ (forall (t : list Z) (b : Z),
        length t = 32%nat -> bytes_ok t ->
        hsk_pow_to_bits t = Some b -> hsk_pow_to_target b = (true, t)).
Proof.
  intros Hclaim.
  specialize (Hclaim (zeros 32) 0 eq_refl (bytes_okb_ok (zeros 32) eq_refl) eq_refl).
  discriminate Hclaim.
Qed.

(** The target [00 00 00 00 FF FF 00 ...] re-encodes with a two-byte
    mantissa under exponent 28, and that decodes one byte lower. *)
Example pow_bits_difficulty1 :
  hsk_pow_to_bits (<[4%nat:=255]> (<[5%nat:=255]> (zeros 32))) = Some 0x1c00ffff
  /\ hsk_pow_to_target 0x1c00ffff
     = (true, <[5%nat:=255]> (<[6%nat:=255]> (zeros 32))).
Proof. split; reflexivity. Qed.

Example to_target_1d00ffff :
  hsk_pow_to_target 0x1d00ffff
  = (true, <[4%nat:=255]> (<[5%nat:=255]> (zeros 32))).
Proof. reflexivity. Qed.

Example to_target_03123456 :
  hsk_pow_to_target 0x03123456
  = (true, <[29%nat:=0x12]> (<[30%nat:=0x34]> (<[31%nat:=0x56]> (zeros 32)))).
Proof. reflexivity. Qed.

Example to_target_01003456 : hsk_pow_to_target 0x01003456 = (true, zeros 32).
Proof. reflexivity. Qed.

(** C7 (amended): [hsk_pow_to_target 0x1d00ffff] succeeds with bytes 4 and 5
    equal to 0xFF and every other byte 0, [bits = 0] is rejected, and for
    every 32-bit [bits] with a clear sign bit and exponent [3 < exp <= 32]
    the three mantissa bytes occupy indices [31 - shift - 2 .. 31 - shift]
    for [shift = exp - 3], all other bytes being 0. *)
Theorem pow_to_target_layout :
  hsk_pow_to_target 0x1d00ffff
  = (true, <[4%nat:=0xff]> (<[5%nat:=0xff]> (zeros 32)))
  /\ fst (hsk_pow_to_target 0) = false
  /\ forall bits : Z,
      0 <= bits < 2 ^ 32 ->
      Z.land (Z.shiftr bits 23) 1 = 0 ->
      3 < Z.shiftr bits 24 <= 32 ->
      let shift := Z.shiftr bits 24 - 3 in
      let mant := Z.land bits 0x7fffff in
      hsk_pow_to_target bits
      = (true, zeros (Z.to_nat (31 - shift - 2))
               ++ [u8 (Z.shiftr mant 16); u8 (Z.shiftr mant 8); u8 mant]
               ++ zeros (Z.to_nat shift)).
Proof.
  split; [reflexivity |]. split; [reflexivity |].
  intros bits Hbits Hsign Hexp shift mant. subst shift mant.
  assert (Hdec : bits = Z.shiftr bits 24 * 2 ^ 24 + Z.land bits 0x7fffff).
  { rewrite land_1_mod in Hsign. rewrite land_7fffff_mod.
    rewrite !Z.shiftr_div_pow2 in * by lia. pow2_consts.
    Z.div_mod_to_equations. lia. }
  assert (Hm : 0 <= Z.land bits 0x7fffff < 2 ^ 23).
  { rewrite land_7fffff_mod. apply Z.mod_pos_bound. lia. }
  rewrite Hdec at 1. rewrite pow_to_target_large by assumption.
  do 3 f_equal. lia.
Qed.

Lemma pow_to_target_layout_witness :
  hsk_pow_to_target 0x1d00ffff
  = (true, zeros 3 ++ [0x00; 0xff; 0xff] ++ zeros 26).
Proof.
  apply (proj2 (proj2 pow_to_target_layout) 0x1d00ffff).
  - vm_compute. split; [discriminate | reflexivity].
  - reflexivity.
  - vm_compute. split; [reflexivity | discriminate].
Defined.

(** C7 as stated fails: no successful decoding of [0x1d00ffff] has 0xFF in
    its third and fourth byte, whether bytes are counted from 0 or from 1;
    the code leaves 0 at indices 2 and 3 and writes 0xFF at indices 4 and
    5. *)
Lemma pow_to_target_byte3_fails :
  ~ (exists t : list Z,
        hsk_pow_to_target 0x1d00ffff = (true, t)
        /\ byte_at t 3 = 0xff /\ byte_at t 4 = 0xff
        /\ forall i : Z, 0 <= i < 32 -> i <> 3 -> i <> 4 -> byte_at t i = 0)
  /\ ~ (exists t : list Z,
          hsk_pow_to_target 0x1d00ffff = (true, t)
          /\ byte_at t 2 = 0xff /\ byte_at t 3 = 0xff
          /\ forall i : Z, 0 <= i < 32 -> i <> 2 -> i <> 3 -> byte_at t i = 0).
Proof.
  split; intros (t & Ht & H3 & _);
    rewrite to_target_1d00ffff in Ht; injection Ht as <-; discriminate H3.
Qed.

(** ** Header codec *)

Lemma length_le_bytes (n : nat) (v : Z) : length (le_bytes n v) = n.
Proof. revert v. induction n as [| n IH]; intros v; cbn; [| rewrite IH]; reflexivity. Qed.

Lemma le_value_le_bytes (n : nat) (v : Z) :
  le_value (le_bytes n v) = v mod 256 ^ Z.of_nat n.
Proof.
  revert v. induction n as [| n IH]; intros v.
  - cbn. now rewrite Z.mod_1_r.
  - cbn [le_bytes le_value]. rewrite IH.
    rewrite Nat2Z.inj_succ, Z.pow_succ_r by lia.
    rewrite Z.rem_mul_r by lia. lia.
Qed.

Lemma read_bytes_app (bs rest : list Z) (n : nat) :
  length bs = n -> read_bytes (bs ++ rest) n = Some (bs, rest).
Proof.
  intros <-. unfold read_bytes.
  replace (length (bs ++ rest) <? length bs)%nat with false
    by (symmetry; apply Nat.ltb_ge; rewrite length_app; lia).
  now rewrite take_app_length, drop_app_length.
Qed.

Lemma read_le_app (n : nat) (v : Z) (rest : list Z) :
  0 <= v < 256 ^ Z.of_nat n ->
  read_le n (le_bytes n v ++ rest) = Some (v, rest).
Proof.
  intros Hv. unfold read_le.
  rewrite read_bytes_app by apply length_le_bytes.
  now rewrite le_value_le_bytes, Z.mod_small.
Qed.

Lemma write_sol_loop_some (n : nat) (i : Z) (buf sol : list Z) :
  write_sol_loop n i (Some buf) sol = Some (buf ++ sol_bytes n i sol).
Proof.
  revert i buf. induction n as [| n IH]; intros i buf; cbn [write_sol_loop sol_bytes].
  - now rewrite app_nil_r.
  - cbn. rewrite IH. now rewrite <- app_assoc.
Qed.

Lemma write_sol_loop_none (n : nat) (i : Z) (sol : list Z) :
  write_sol_loop n i None sol = None.
Proof. revert i. induction n as [| n IH]; intros i; cbn; [| rewrite IH]; reflexivity. Qed.

Lemma length_sol_bytes (n : nat) (i : Z) (sol : list Z) :
  length (sol_bytes n i sol) = (4 * n)%nat.
Proof.
  revert i. induction n as [| n IH]; intros i; cbn [sol_bytes]; [reflexivity |].
  rewrite length_app, length_le_bytes, IH. lia.
Qed.

Lemma word_ok_at (sol : list Z) (i : Z) : Forall word_ok sol -> word_ok (word_at sol i).
Proof.
  intros Hok. unfold word_at.
  destruct (sol !! Z.to_nat i) as [w |] eqn:E; cbn.
  - exact (Forall_lookup_1 _ _ _ _ Hok E).
  - unfold word_ok. lia.
Qed.

(** Reading back [n] words written from [src] fills [dst[i .. i + n - 1]]
    with them and leaves the entries below [i] alone. *)
Lemma read_sol_loop_written (n i : nat) (src dst rest : list Z) :
  Forall word_ok src -> (i + n <= length dst)%nat ->
  exists dst',
    read_sol_loop n i (sol_bytes n (Z.of_nat i) src ++ rest) dst = (true, rest, dst')
    /\ length dst' = length dst
    /\ (forall j, (i <= j < i + n)%nat -> dst' !! j = Some (word_at src (Z.of_nat j)))
    /\ (forall j, (j < i)%nat -> dst' !! j = dst !! j).
Proof.
  intros Hsrc. revert i dst.
  induction n as [| n IH]; intros i dst Hlen; cbn [read_sol_loop sol_bytes].
  - exists dst. split; [reflexivity |]. split; [reflexivity |].
    split; [intros j Hj; lia | reflexivity].
  - rewrite <- app_assoc. unfold read_u32.
    rewrite read_le_app by (apply (word_ok_at src _ Hsrc)).
    replace (Z.of_nat i + 1) with (Z.of_nat (S i)) by lia.
    destruct (IH (S i) (<[i := word_at src (Z.of_nat i)]> dst))
      as (dst' & Hrun & Hl & Hin & Hbelow).
    { rewrite length_insert. lia. }
    exists dst'. rewrite Hrun. rewrite length_insert in Hl.
    split; [reflexivity |]. split; [assumption |]. split.
    + intros j Hj. destruct (Nat.eq_dec j i) as [-> | Hne].
      * rewrite Hbelow by lia. apply list_lookup_insert_eq. lia.
      * apply Hin. lia.
    + intros j Hj. rewrite Hbelow by lia.
      apply list_lookup_insert_ne. lia.
Qed.

Lemma hsk_header_write_some (h : hsk_header_t) (buf : list Z) :
  hsk_header_write h (Some buf)
  = (161 + Z.shiftl (sol_size h) 2, Some (buf ++ header_bytes h)).
Proof.
  unfold hsk_header_write, write_sol, write_u8, write_u32, write_u64,
    write_le, write_bytes, header_bytes.
  cbn [fmap option_fmap option_map]. rewrite write_sol_loop_some.
  rewrite <- !app_assoc. reflexivity.
Qed.

Lemma hsk_header_write_none (h : hsk_header_t) :
  hsk_header_write h None = (161 + Z.shiftl (sol_size h) 2, None).
Proof.
  unfold hsk_header_write, write_sol, write_u8, write_u32, write_u64,
    write_le, write_bytes.
  cbn [fmap option_fmap option_map]. rewrite write_sol_loop_none.
  reflexivity.
Qed.

Lemma length_header_bytes (h : hsk_header_t) :
  header_wf h ->
  Z.of_nat (length (header_bytes h)) = 161 + 4 * sol_size h.
Proof.
  intros (_ & Hp & Hm & Hw & Ht & _ & _ & Hn & Hs & _).
  unfold header_bytes.
  rewrite !length_app, !length_take, !length_le_bytes, length_sol_bytes.
  rewrite Hp, Hm, Hw, Ht, Hn. lia.
Qed.

Lemma hsk_header_read_written (h hdr0 : hsk_header_t) (rest : list Z) :
  header_wf h -> sol_size h <= 42 -> length (sol hdr0) = 42%nat ->
  exists s',
    hsk_header_read (header_bytes h ++ rest) hdr0
    = (true, rest,
       mk_header (version h) (prev_block h) (merkle_root h) (witness_root h)
         (trie_root h) (time h) (bits h) (nonce h) (sol_size h) s'
         (cache hdr0) (hash hdr0) (height hdr0) (work hdr0))
    /\ take (Z.to_nat (sol_size h)) s' = take (Z.to_nat (sol_size h)) (sol h).
Proof.
  intros (Hv & Hp & Hm & Hw & Ht & Hti & Hb & Hn & Hs & Hsl & Hso) H42 Hdst.
  destruct (read_sol_loop_written (Z.to_nat (sol_size h)) 0 (sol h) (sol hdr0) rest)
    as (s' & Hrun & Hlen & Hin & _); [assumption | lia |].
  exists s'. split.
  - unfold header_bytes. rewrite <- !app_assoc.
    rewrite !take_ge by lia.
    unfold hsk_header_read, read_u8, read_u32, read_u64.
    rewrite read_le_app by (cbn; lia).
    rewrite read_bytes_app by assumption.
    rewrite read_bytes_app by assumption.
    rewrite read_bytes_app by assumption.
    rewrite read_bytes_app by assumption.
    rewrite read_le_app by (cbn; lia).
    rewrite read_le_app by (cbn; lia).
    rewrite read_bytes_app by assumption.
    rewrite read_le_app by (cbn; lia).
    cbn [set_version set_prev_block set_merkle_root set_witness_root
         set_trie_root set_time set_bits set_nonce set_sol_size set_sol
         version prev_block merkle_root witness_root trie_root time bits
         nonce sol_size sol cache hash height work].
    replace (sol_size h >? 42) with false
      by (symmetry; rewrite Z.gtb_ltb; apply Z.ltb_ge; lia).
    unfold read_sol. change (Z.of_nat 0) with 0 in Hrun. rewrite Hrun.
    reflexivity.
  - apply list_eq. intros j. rewrite !lookup_take.
    destruct (decide (j < Z.to_nat (sol_size h))%nat) as [Hj | Hj]; [| reflexivity].
    rewrite Hin by lia. unfold word_at. rewrite Nat2Z.id.
    destruct (sol h !! j) as [w |] eqn:E; [reflexivity |].
    apply lookup_ge_None in E. lia.
Qed.

(** C5: for every header [h] whose fields fit their C types and whose
    [sol_size] is at most 42, decoding the bytes that [hsk_encode_header]
    wrote for [h] succeeds and yields a header with the same version,
    prev_block, merkle_root, witness_root, trie_root, time, bits, nonce and
    sol_size and the same first [sol_size] solution words. *)
Theorem header_decode_encode (h hdr0 : hsk_header_t) :
  header_wf h -> sol_size h <= 42 -> length (sol hdr0) = 42%nat ->
  let r := hsk_header_decode (snd (hsk_encode_header h)) hdr0 in
  fst r = true
  /\ version (snd r) = version h
  /\ prev_block (snd r) = prev_block h
  /\ merkle_root (snd r) = merkle_root h
  /\ witness_root (snd r) = witness_root h
  /\ trie_root (snd r) = trie_root h
  /\ time (snd r) = time h
  /\ bits (snd r) = bits h
  /\ nonce (snd r) = nonce h
  /\ sol_size (snd r) = sol_size h
  /\ take (Z.to_nat (sol_size h)) (sol (snd r))
     = take (Z.to_nat (sol_size h)) (sol h).
Proof.
  intros Hwf H42 Hdst r. subst r.
  unfold hsk_encode_header, hsk_header_decode.
  rewrite hsk_header_write_some. cbn [snd default from_option id app].
  destruct (hsk_header_read_written h hdr0 [] Hwf H42 Hdst) as (s' & Hread & Hsol).
  rewrite app_nil_r in Hread. rewrite Hread. cbn.
  repeat (split; [reflexivity |]). exact Hsol.
Qed.

Lemma sample_header_wf : header_wf sample_header.
Proof.
  unfold header_wf, sample_header; cbn.
  repeat (split; [first [reflexivity | lia] |]).
  repeat first [apply Forall_nil_2 | apply Forall_cons_2; [unfold word_ok; lia |]].
Defined.

Lemma header_decode_encode_witness :
  let r := hsk_header_decode (snd (hsk_encode_header sample_header)) hsk_header_init in
  fst r = true
  /\ version (snd r) = 1
  /\ prev_block (snd r) = replicate 32 0xab
  /\ merkle_root (snd r) = zeros 32
  /\ witness_root (snd r) = zeros 32
  /\ trie_root (snd r) = replicate 32 0x11
  /\ time (snd r) = 1540000000
  /\ bits (snd r) = 0x1d00ffff
  /\ nonce (snd r) = replicate 16 7
  /\ sol_size (snd r) = 2
  /\ take 2 (sol (snd r)) = [0xdeadbeef; 42].
Proof.
  apply (header_decode_encode sample_header hsk_header_init).
  - exact sample_header_wf.
  - cbn. lia.
  - reflexivity.
Defined.

Example sol_size_43_rejected :
  fst (hsk_header_decode (replicate 160 0 ++ [43] ++ replicate 172 0) hsk_header_init)
  = false.
Proof. reflexivity. Qed.

(** C6 (amended): the header's wire layout takes [161 + 4 * sol_size]
    bytes: [hsk_header_size h] is [161 + 4 * sol_size h] for every header,
    [hsk_encode_header] returns that count and writes that many bytes for
    every header whose fields fit their C types, and a header with
    [sol_size = 0] takes 161 bytes. *)
Theorem header_size_161 (h : hsk_header_t) :
  hsk_header_size h = 161 + 4 * sol_size h
  /\ (header_wf h ->
      fst (hsk_encode_header h) = 161 + 4 * sol_size h
      /\ Z.of_nat (length (snd (hsk_encode_header h))) = 161 + 4 * sol_size h)
  /\ (sol_size h = 0 -> hsk_header_size h = 161).
Proof.
  assert (Hsize : hsk_header_size h = 161 + 4 * sol_size h).
  { unfold hsk_header_size. rewrite hsk_header_write_none. cbn [fst].
    rewrite Z.shiftl_mul_pow2 by lia. lia. }
  split; [exact Hsize |]. split.
  - intros Hwf. unfold hsk_encode_header. rewrite hsk_header_write_some.
    cbn [fst snd default from_option id app]. split.
    + rewrite Z.shiftl_mul_pow2 by lia. lia.
    + apply length_header_bytes, Hwf.
  - intros H0. rewrite Hsize, H0. reflexivity.
Qed.

Lemma header_size_161_witness :
  fst (hsk_encode_header sample_header) = 169
  /\ Z.of_nat (length (snd (hsk_encode_header sample_header))) = 169.
Proof.
  apply (proj1 (proj2 (header_size_161 sample_header))).
  exact sample_header_wf.
Defined.

(** C6 as stated fails: the all-zero header, with [sol_size = 0], has size
    161 and not 236. *)
Lemma header_size_236_fails :
  ~ (forall h : hsk_header_t, hsk_header_size h = 236 + 4 * sol_size h).
Proof. intros Hclaim. discriminate (Hclaim hsk_header_init). Qed.

(** ** Proof of work *)

Lemma rcmp_loop_greater (a b : list Z) (n : nat) (j : Z) :
  rcmp_loop a b n j > 0 <-> rcmp_greater a b n j.
Proof.
  revert j. induction n as [| i IH]; intros j; cbn [rcmp_loop].
  - split; [lia |]. intros (d & Hd & _). lia.
  - destruct (byte_at a (Z.of_nat i) <? byte_at b j) eqn:Elt.
    { apply Z.ltb_lt in Elt. split; [lia |].
      intros (d & Hd & Heq & Hgt). exfalso. destruct d as [| d].
      - replace (S i - 1 - 0)%nat with i in Hgt by lia.
        rewrite Z.add_0_r in Hgt. lia.
      - specialize (Heq 0%nat ltac:(lia)).
        replace (S i - 1 - 0)%nat with i in Heq by lia.
        rewrite Z.add_0_r in Heq. lia. }
    apply Z.ltb_ge in Elt.
    destruct (byte_at a (Z.of_nat i) >? byte_at b j) eqn:Egt.
    { rewrite Z.gtb_ltb in Egt. apply Z.ltb_lt in Egt. split; [| lia].
      intros _. exists 0%nat. split; [lia |]. split; [intros e He; lia |].
      replace (S i - 1 - 0)%nat with i by lia. rewrite Z.add_0_r. lia. }
    rewrite Z.gtb_ltb in Egt. apply Z.ltb_ge in Egt.
    rewrite IH. split.
    + intros (d & Hd & Heq & Hgt). exists (S d). split; [lia |]. split.
      * intros e He. destruct e as [| e].
        -- replace (S i - 1 - 0)%nat with i by lia. rewrite Z.add_0_r. lia.
        -- replace (S i - 1 - S e)%nat with (i - 1 - e)%nat by lia.
           replace (j + Z.of_nat (S e)) with (j + 1 + Z.of_nat e) by lia.
           apply Heq. lia.
      * replace (S i - 1 - S d)%nat with (i - 1 - d)%nat by lia.
        replace (j + Z.of_nat (S d)) with (j + 1 + Z.of_nat d) by lia.
        exact Hgt.
    + intros (d & Hd & Heq & Hgt). destruct d as [| d].
      { replace (S i - 1 - 0)%nat with i in Hgt by lia.
        rewrite Z.add_0_r in Hgt. lia. }
      exists d. split; [lia |]. split.
      * intros e He. specialize (Heq (S e) ltac:(lia)).
        replace (S i - 1 - S e)%nat with (i - 1 - e)%nat in Heq by lia.
        replace (j + Z.of_nat (S e)) with (j + 1 + Z.of_nat e) in Heq by lia.
        exact Heq.
      * replace (S i - 1 - S d)%nat with (i - 1 - d)%nat in Hgt by lia.
        replace (j + Z.of_nat (S d)) with (j + 1 + Z.of_nat d) in Hgt by lia.
        exact Hgt.
Qed.

Section pow_facts.
Context `{Blake2b, Cuckoo}.

(** C3: [hsk_header_verify_pow] returns [HSK_NEGTARGET] when
    [hsk_pow_to_target] rejects [bits]; otherwise it hashes the serialized
    solution words and returns [HSK_HIGHHASH] when the reverse byte
    compare, solution hash from index 31 down against target from index 0
    up, finds the hash greater; otherwise it returns what the Cuckoo
    verifier returns.  With the Cuckoo verifier keeping to codes of its
    own, each of the two codes is returned exactly in its case. *)
Theorem verify_pow_cases (hdr : hsk_header_t) :
  let ok := fst (hsk_pow_to_target (bits hdr)) in
  let target := snd (hsk_pow_to_target (bits hdr)) in
  let solhash := hsk_hash_blake2b (encode_sol (sol hdr) (sol_size hdr)) in
  let high := rcmp_greater solhash target 32 0 in
  let cuckoo :=
    hsk_cuckoo_verify_header (hsk_header_encode_pre hdr) (sol hdr) (sol_size hdr) in
  (ok = false -> hsk_header_verify_pow hdr = HSK_NEGTARGET)
  /\ (ok = true -> high -> hsk_header_verify_pow hdr = HSK_HIGHHASH)
  /\ (ok = true -> ~ high -> hsk_header_verify_pow hdr = cuckoo)
  /\ (cuckoo <> HSK_NEGTARGET -> cuckoo <> HSK_HIGHHASH ->
      HSK_NEGTARGET <> HSK_HIGHHASH ->
      (hsk_header_verify_pow hdr = HSK_NEGTARGET <-> ok = false)
      /\ (hsk_header_verify_pow hdr = HSK_HIGHHASH <-> ok = true /\ high)).
Proof.
  intros ok target solhash high cuckoo.
  unfold hsk_header_verify_pow.
  fold solhash. subst ok target high.
  destruct (hsk_pow_to_target (bits hdr)) as [ok target]. cbn [fst snd].
  pose proof (rcmp_loop_greater solhash target 32 0) as Hr.
  fold (rcmp solhash target 32) in Hr.
  destruct ok; cbn [negb].
  - destruct (rcmp solhash target 32 >? 0) eqn:E.
    + rewrite Z.gtb_ltb in E. apply Z.ltb_lt in E.
      assert (Hhigh : rcmp_greater solhash target 32 0) by (apply Hr; lia).
      split; [discriminate |]. split; [reflexivity |].
      split; [intros _ Hn; contradiction |].
      intros _ _ Hne. split; split; try discriminate; auto.
      intros Heq. congruence.
    + rewrite Z.gtb_ltb in E. apply Z.ltb_ge in E.
      assert (Hlow : ~ rcmp_greater solhash target 32 0)
        by (intros Hh; apply Hr in Hh; lia).
      fold cuckoo.
      split; [discriminate |]. split; [intros _ Hh; contradiction |].
      split; [reflexivity |].
      intros Hc1 Hc2 _. split; split; try discriminate; try contradiction.
      intros [_ Hh]. contradiction.
  - split; [reflexivity |]. split; [discriminate |]. split; [discriminate |].
    intros _ _ Hne. split; split; auto.
    + intros Heq. congruence.
    + intros [Hf _]. discriminate.
Qed.
End pow_facts.

Lemma verify_pow_cases_witness :
  @hsk_header_verify_pow const_hash const_cuckoo sample_header = 16.
Proof.
  apply (proj1 (proj2 (@verify_pow_cases const_hash const_cuckoo
                         sample_header))).
  - reflexivity.
  - exists 0%nat. split; [lia |]. split; [intros e He; lia |].
    vm_compute. reflexivity.
Defined.

(** ** Chain work *)

Lemma be_value_acc_app (acc : Z) (l1 l2 : list Z) :
  be_value_acc acc (l1 ++ l2) = be_value_acc (be_value_acc acc l1) l2.
Proof. revert acc. induction l1 as [| b l1 IH]; intros acc; cbn; [| rewrite IH]; reflexivity. Qed.

Lemma be_value_rev (l : list Z) : be_value (rev l) = le_value l.
Proof.
  unfold be_value. induction l as [| b l IH]; [reflexivity |].
  cbn [rev le_value]. rewrite be_value_acc_app, IH. cbn. lia.
Qed.

Lemma be_value_be_bytes (n : nat) (v : Z) :
  be_value (be_bytes n v) = v mod 256 ^ Z.of_nat n.
Proof. unfold be_bytes. now rewrite be_value_rev, le_value_le_bytes. Qed.

Lemma length_be_bytes (n : nat) (v : Z) : length (be_bytes n v) = n.
Proof. unfold be_bytes. now rewrite length_rev, length_le_bytes. Qed.

Lemma le_bytes_ok (n : nat) (v : Z) : bytes_ok (le_bytes n v).
Proof.
  revert v. induction n as [| n IH]; intros v; cbn [le_bytes].
  - constructor.
  - constructor; [| apply IH]. unfold is_byte. apply Z.mod_pos_bound. lia.
Qed.

Lemma be_bytes_ok (n : nat) (v : Z) : bytes_ok (be_bytes n v).
Proof. unfold be_bytes, bytes_ok. apply Forall_rev, le_bytes_ok. Qed.

Lemma be_value_acc_nonneg (acc : Z) (l : list Z) :
  0 <= acc -> bytes_ok l -> 0 <= be_value_acc acc l.
Proof.
  revert acc. induction l as [| b l IH]; intros acc Hacc Hl; cbn; [assumption |].
  inversion Hl as [| ? ? Hb Hl']; subst. apply IH; [| assumption].
  unfold is_byte in Hb. lia.
Qed.

Lemma u8_byte (x : Z) : is_byte (u8 x).
Proof. rewrite u8_mod. unfold is_byte. apply Z.mod_pos_bound. lia. Qed.

Lemma pow_target_loop_ok (n : nat) (t : list Z) (m : Z) :
  bytes_ok t ->
  bytes_ok (fst (pow_target_loop n t m))
  /\ length (fst (pow_target_loop n t m)) = length t.
Proof.
  revert t m. induction n as [| i IH]; intros t m Ht; cbn [pow_target_loop].
  - split; [assumption | reflexivity].
  - destruct (m =? 0); [split; [assumption | reflexivity] |].
    destruct (IH (<[i := u8 m]> t) (Z.shiftr m 8)) as [Hok Hlen].
    + apply Forall_insert; [assumption | apply u8_byte].
    + rewrite length_insert in Hlen. split; assumption.
Qed.

(** Whatever [hsk_pow_to_target] returns, [target] holds 32 bytes. *)
Lemma pow_to_target_bytes (b : Z) :
  bytes_ok (snd (hsk_pow_to_target b))
  /\ length (snd (hsk_pow_to_target b)) = 32%nat.
Proof.
  assert (Hz : bytes_ok (zeros 32)) by (apply bytes_okb_ok; reflexivity).
  unfold hsk_pow_to_target.
  destruct (b =? 0); [split; [assumption | reflexivity] |].
  destruct (negb _); [split; [assumption | reflexivity] |].
  destruct (Z.shiftr b 24 <=? 3).
  - pose proof (pow_target_loop_ok (Z.to_nat (31 - 0 + 1)) (zeros 32)
                  (Z.shiftr (Z.land b 0x7fffff) (8 * (3 - Z.shiftr b 24))) Hz) as Hl.
    destruct (pow_target_loop _ _ _) as [t m]. cbn [fst] in Hl.
    destruct (negb (m =? 0)); exact Hl.
  - pose proof (pow_target_loop_ok
                  (Z.to_nat (31 - Z.land (Z.shiftr b 24 - 3) 31 + 1)) (zeros 32)
                  (Z.land b 0x7fffff) Hz) as Hl.
    destruct (pow_target_loop _ _ _) as [t m]. cbn [fst] in Hl.
    destruct (negb (m =? 0)); exact Hl.
Qed.

(** C10 (amended): for every header whose [bits] field decodes to a
    non-zero target, the proof weight that [hsk_header_get_proof] writes is
    [floor(2^256 / (target + 1))] as a 32-byte big-endian integer;
    [hsk_header_calc_work] stores exactly this weight in [work] when [prev]
    is absent, and otherwise stores [prev.work + weight] reduced modulo
    [2^256], again as 32 big-endian bytes. *)
Theorem chain_work_weight (hdr : hsk_header_t) (target : list Z) :
  hsk_pow_to_target (bits hdr) = (true, target) ->
  be_value target <> 0 ->
  let weight := 2 ^ 256 / (be_value target + 1) in
  hsk_header_get_proof hdr = Some (be_bytes 32 weight)
  /\ be_value (be_bytes 32 weight) = weight
  /\ hsk_header_calc_work hdr None = (true, set_work hdr (be_bytes 32 weight))
  /\ forall prev : hsk_header_t,
      let sum := be_value (take 32 (work prev)) + weight in
      hsk_header_calc_work hdr (Some prev) = (true, set_work hdr (be_bytes 32 sum))
      /\ be_value (be_bytes 32 sum) = sum mod 2 ^ 256.
Proof.
  intros Htarget Hnz weight.
  destruct (pow_to_target_bytes (bits hdr)) as [Hok Hlen].
  rewrite Htarget in Hok, Hlen. cbn [snd] in Hok, Hlen.
  assert (Hpos : 0 <= be_value target)
    by (apply be_value_acc_nonneg; [lia | assumption]).
  assert (Hget : hsk_header_get_proof hdr = Some (be_bytes 32 weight)).
  { unfold hsk_header_get_proof. rewrite Htarget. cbn [negb].
    unfold bignum_to_array, bignum_div, bignum_inc, bignum_from_array,
      bignum_lshift, bignum_from_int.
    rewrite take_ge by lia. rewrite Z.shiftl_1_l. reflexivity. }
  assert (Hw : 0 <= weight < 2 ^ 256).
  { subst weight. split.
    - apply Z.div_pos; lia.
    - apply Z.div_lt_upper_bound; [lia |].
      assert (0 < 2 ^ 256) by (apply Z.pow_pos_nonneg; lia). nia. }
  assert (H256 : 256 ^ Z.of_nat 32 = 2 ^ 256) by reflexivity.
  assert (Hval : be_value (be_bytes 32 weight) = weight).
  { rewrite be_value_be_bytes, H256. apply Z.mod_small. exact Hw. }
  split; [exact Hget |]. split; [exact Hval |]. split.
  - unfold hsk_header_calc_work. rewrite Hget. reflexivity.
  - intros prev sum. split.
    + unfold hsk_header_calc_work. rewrite Hget.
      unfold bignum_to_array, bignum_add, bignum_from_array.
      rewrite (take_ge (be_bytes 32 weight)) by (rewrite length_be_bytes; lia).
      rewrite Hval. reflexivity.
    + rewrite be_value_be_bytes, H256. reflexivity.
Qed.

Lemma chain_work_weight_witness :
  let target := <[4%nat:=255]> (<[5%nat:=255]> (zeros 32)) in
  let weight := 2 ^ 256 / (be_value target + 1) in
  hsk_header_get_proof sample_header = Some (be_bytes 32 weight)
  /\ be_value (be_bytes 32 weight) = weight.
Proof.
  intros target weight.
  destruct (chain_work_weight sample_header target) as (Hget & Hval & _).
  - reflexivity.
  - vm_compute. discriminate.
  - split; assumption.
Defined.

(** C10 as stated fails: [bits = 0x01003456] decodes to the all-zero
    target, whose weight [2^256] no 32-byte array denotes. *)
Lemma chain_work_zero_target_fails :
  ~ (forall (hdr : hsk_header_t) (target : list Z),
        hsk_pow_to_target (bits hdr) = (true, target) ->
        exists proof : list Z,
          hsk_header_get_proof hdr = Some proof
          /\ be_value proof = 2 ^ 256 / (be_value target + 1)).
Proof.
  intros Hclaim.
  destruct (Hclaim (set_bits hsk_header_init 0x01003456) (zeros 32) eq_refl)
    as (proof & Hget & Hval).
  vm_compute in Hget. injection Hget as <-.
  vm_compute in Hval. discriminate Hval.
Qed.

(** ** Variable-length integers *)

Lemma varint_fd_value (b1 b2 : Z) :
  is_byte b1 -> is_byte b2 ->
  Z.lor (Z.lor 0 (i32 (Z.shiftl b2 8))) (i32 (Z.shiftl b1 0)) = le_value [b1; b2].
Proof.
  unfold is_byte. intros H1 H2. cbn [le_value].
  rewrite Z.lor_0_l, Z.shiftl_0_r, !Z.shiftl_mul_pow2 by lia. pow2_consts.
  rewrite !i32_small by lia.
  rewrite (lor_add_disjoint _ b1 8);
    [lia | lia | pow2_consts; Z.div_mod_to_equations; lia | pow2_consts; lia].
Qed.

Lemma varint_fe_value (b1 b2 b3 b4 : Z) :
  is_byte b1 -> is_byte b2 -> is_byte b3 -> is_byte b4 -> b4 < 128 ->
  Z.lor (Z.lor (Z.lor (Z.lor 0 (i32 (Z.shiftl b4 24))) (i32 (Z.shiftl b3 16)))
           (i32 (Z.shiftl b2 8))) (i32 (Z.shiftl b1 0))
  = le_value [b1; b2; b3; b4].
Proof.
  unfold is_byte. intros H1 H2 H3 H4 Hs. cbn [le_value].
  rewrite Z.lor_0_l, Z.shiftl_0_r, !Z.shiftl_mul_pow2 by lia. pow2_consts.
  rewrite !i32_small by lia.
  rewrite (lor_add_disjoint (b4 * 16777216) (b3 * 65536) 24);
    [| lia | pow2_consts; Z.div_mod_to_equations; lia | pow2_consts; lia].
  rewrite (lor_add_disjoint _ (b2 * 256) 16);
    [| lia | pow2_consts; Z.div_mod_to_equations; lia | pow2_consts; lia].
  rewrite (lor_add_disjoint _ b1 8);
    [lia | lia | pow2_consts; Z.div_mod_to_equations; lia | pow2_consts; lia].
Qed.

Lemma bytes_ok_cons (b : Z) (l : list Z) :
  bytes_ok (b :: l) -> is_byte b /\ bytes_ok l.
Proof. intros Hl. inversion Hl; subst. split; assumption. Qed.

(** C9 (amended): [read_varint] rejects with [HSK_EENCODING] every input
    that is empty, truncated or non-canonical (0xfd followed by a value
    below 0xfd, 0xfe followed by a value of at most 0xffff, first byte
    0xff), and for every canonical input whose value fits the [int32_t]
    out-parameter (below [2^31]) it returns [HSK_SUCCESS] with the decoded
    little-endian value and the consumed length 1, 3 or 5. *)
Theorem read_varint_canonical (data : list Z) :
  bytes_ok data ->
  match spec_varint data with
  | Some (v, n) => v < 2 ^ 31 -> read_varint data = (HSK_SUCCESS, n, v)
  | None => read_varint data = (HSK_EENCODING, 0, 0)
  end.
Proof.
  intros Hok. destruct data as [| first rest]; [reflexivity |].
  apply bytes_ok_cons in Hok. destruct Hok as [Hf Hrest].
  unfold read_varint, spec_varint.
  change (byte_at (first :: rest) 0) with first.
  replace (Z.of_nat (length (first :: rest)) =? 0) with false
    by (symmetry; apply Z.eqb_neq; cbn [length]; lia).
  unfold is_byte in Hf.
  destruct (first =? 0xff) eqn:Eff.
  { apply Z.eqb_eq in Eff. subst first. reflexivity. }
  apply Z.eqb_neq in Eff.
  destruct (first =? 0xfe) eqn:Efe.
  { apply Z.eqb_eq in Efe. subst first.
    cbn [Z.ltb Z.eqb Z.compare Pos.compare Pos.compare_cont Pos.eqb].
    destruct rest as [| b1 [| b2 [| b3 [| b4 rest]]]]; try reflexivity.
    apply bytes_ok_cons in Hrest. destruct Hrest as [H1 Hrest].
    apply bytes_ok_cons in Hrest. destruct Hrest as [H2 Hrest].
    apply bytes_ok_cons in Hrest. destruct Hrest as [H3 Hrest].
    apply bytes_ok_cons in Hrest. destruct Hrest as [H4 Hrest].
    replace (Z.of_nat (length (254 :: b1 :: b2 :: b3 :: b4 :: rest)) <? 5)
      with false by (symmetry; apply Z.ltb_ge; cbn [length]; lia).
    change (byte_at (254 :: b1 :: b2 :: b3 :: b4 :: rest) 4) with b4.
    change (byte_at (254 :: b1 :: b2 :: b3 :: b4 :: rest) 3) with b3.
    change (byte_at (254 :: b1 :: b2 :: b3 :: b4 :: rest) 2) with b2.
    change (byte_at (254 :: b1 :: b2 :: b3 :: b4 :: rest) 1) with b1.
    cbv zeta.
    destruct (le_value [b1; b2; b3; b4] <=? 0xffff) eqn:Ev.
    - apply Z.leb_le in Ev.
      assert (Hs : b4 < 128).
      { unfold is_byte in *. cbn [le_value] in Ev. lia. }
      rewrite varint_fe_value by assumption.
      replace (le_value [b1; b2; b3; b4] <=? 0xffff) with true
        by (symmetry; apply Z.leb_le; exact Ev).
      reflexivity.
    - intros Hv.
      assert (Hs : b4 < 128).
      { unfold is_byte in *. cbn [le_value] in Hv. pow2_consts.
        change (2 ^ 31) with 2147483648 in Hv. lia. }
      rewrite varint_fe_value by assumption. rewrite Ev. reflexivity. }
  apply Z.eqb_neq in Efe.
  destruct (first =? 0xfd) eqn:Efd.
  { apply Z.eqb_eq in Efd. subst first.
    cbn [Z.ltb Z.eqb Z.compare Pos.compare Pos.compare_cont Pos.eqb].
    destruct rest as [| b1 [| b2 rest]]; try reflexivity.
    apply bytes_ok_cons in Hrest. destruct Hrest as [H1 Hrest].
    apply bytes_ok_cons in Hrest. destruct Hrest as [H2 Hrest].
    replace (Z.of_nat (length (253 :: b1 :: b2 :: rest)) <? 3)
      with false by (symmetry; apply Z.ltb_ge; cbn [length]; lia).
    change (byte_at (253 :: b1 :: b2 :: rest) 2) with b2.
    change (byte_at (253 :: b1 :: b2 :: rest) 1) with b1.
    cbv zeta. rewrite varint_fd_value by assumption.
    destruct (le_value [b1; b2] <? 0xfd); [reflexivity |].
    intros _. reflexivity. }
  apply Z.eqb_neq in Efd.
  replace (first <? 0xfd) with true by (symmetry; apply Z.ltb_lt; lia).
  intros _. reflexivity.
Qed.

Lemma read_varint_canonical_witness :
  read_varint [0xfe; 0x78; 0x56; 0x34; 0x12] = (HSK_SUCCESS, 5, 0x12345678).
Proof.
  exact (read_varint_canonical [0xfe; 0x78; 0x56; 0x34; 0x12]
           (bytes_okb_ok [0xfe; 0x78; 0x56; 0x34; 0x12] eq_refl) eq_refl).
Defined.

Example read_varint_fd : read_varint [0xfd; 0x00; 0x01] = (HSK_SUCCESS, 3, 256).
Proof. reflexivity. Qed.

Example read_varint_fd_low : read_varint [0xfd; 0xfc; 0x00] = (HSK_EENCODING, 0, 0).
Proof. reflexivity. Qed.

(** C9 as stated fails: the canonical five-byte encoding of [2^31] is
    rejected, its top byte turning the [int32_t] value negative. *)
Lemma read_varint_canonical_fails :
  ~ (forall data : list Z,
        bytes_ok data ->
        match spec_varint data with
        | Some (v, n) => read_varint data = (HSK_SUCCESS, n, v)
        | None => read_varint data = (HSK_EENCODING, 0, 0)
        end).
Proof.
  intros Hclaim.
  specialize (Hclaim [0xfe; 0; 0; 0; 0x80]
                (bytes_okb_ok [0xfe; 0; 0; 0; 0x80] eq_refl)).
  vm_compute in Hclaim. discriminate Hclaim.
Qed.

(** ** Compressed short-node keys *)

Lemma length_nibbles_loop (n : nat) (data : list Z) (i : Z) :
  length (nibbles_loop n data i) = (2 * n)%nat.
Proof.
  revert i. induction n as [| n IH]; intros i; cbn [nibbles_loop length]; [reflexivity |].
  rewrite IH. lia.
Qed.

Lemma length_to_nibbles (data : list Z) (n : nat) :
  length (to_nibbles data n) = (2 * n + 1)%nat.
Proof. unfold to_nibbles. rewrite length_app, length_nibbles_loop. cbn. lia. Qed.

(** The copy loop moves [nib[i .. i + n - 1]] down by [pos] places and
    leaves what lies below the first destination alone. *)
Lemma decompress_loop_shift (n : nat) (nib : list Z) (i pos : nat) :
  (1 <= pos <= i)%nat -> (i + n <= length nib)%nat ->
  (forall j, (i - pos <= j < i - pos + n)%nat ->
     decompress_loop n nib i pos !! j = nib !! (j + pos)%nat)
  /\ (forall j, (j < i - pos)%nat -> decompress_loop n nib i pos !! j = nib !! j).
Proof.
  revert nib i. induction n as [| n IH]; intros nib i Hpos Hlen; cbn [decompress_loop].
  - split; [intros j Hj; lia | reflexivity].
  - destruct (IH (<[(i - pos)%nat := default 0 (nib !! i)]> nib) (S i)) as [Hin Hbelow].
    { lia. } { rewrite length_insert. lia. }
    split.
    + intros j Hj. destruct (Nat.eq_dec j (i - pos)%nat) as [-> | Hne].
      * rewrite Hbelow by lia. rewrite list_lookup_insert_eq by lia.
        replace (i - pos + pos)%nat with i by lia.
        destruct (nib !! i) as [x |] eqn:E; [reflexivity |].
        apply lookup_ge_None in E. lia.
      * rewrite Hin by lia. apply list_lookup_insert_ne. lia.
    + intros j Hj. rewrite Hbelow by lia. apply list_lookup_insert_ne. lia.
Qed.

(** C8 (amended): for every non-empty compressed key of [b < 2^30] bytes,
    [decompress] succeeds and the decompressed key is the slice
    [pos .. len - 1] of the nibble expansion (the [2 * b] nibbles followed
    by the terminator 16), where [pos] is 1 if bit 0 of the first nibble is
    set, else 2, and [len] is [2 * b + 1] if bit 1 of the first nibble is
    set, else [2 * b]. *)
Theorem decompress_slice (data : list Z) :
  data <> [] -> Z.of_nat (length data) < 2 ^ 30 ->
  let b := length data in
  let nib := to_nibbles data b in
  let pos := if Z.land (byte_at nib 0) 1 =? 0 then 2%nat else 1%nat in
  let len := if Z.land (byte_at nib 0) 2 =? 0 then (2 * b)%nat else (2 * b + 1)%nat in
  fst (fst (decompress data)) = HSK_SUCCESS
  /\ snd (decompress data) = Z.of_nat (len - pos)
  /\ decompressed_key data = take (len - pos) (drop pos nib).
Proof.
  intros Hne Hsmall b nib pos len.
  assert (Hb : (1 <= b)%nat) by (subst b; destruct data; [congruence | cbn; lia]).
  unfold decompressed_key, decompress. fold b.
  replace (b =? 0)%nat with false by (symmetry; apply Nat.eqb_neq; lia).
  fold nib.
  rewrite i32_small by (change (2 ^ 31) with (2 * 2 ^ 30); lia).
  set (zpos := if negb (Z.land (byte_at nib 0) 1 =? 0) then 1 else 2).
  set (zlen := if negb (Z.land (byte_at nib 0) 2 =? 0)
               then Z.of_nat (2 * b + 1) - 1 + 1 else Z.of_nat (2 * b + 1) - 1).
  assert (Hzpos : zpos = Z.of_nat pos)
    by (subst zpos pos; destruct (Z.land (byte_at nib 0) 1 =? 0); reflexivity).
  assert (Hzlen : zlen = Z.of_nat len)
    by (subst zlen len; destruct (Z.land (byte_at nib 0) 2 =? 0); cbn [negb]; lia).
  assert (Hpos : (1 <= pos <= 2)%nat)
    by (subst pos; destruct (Z.land (byte_at nib 0) 1 =? 0); lia).
  assert (Hlen : (2 * b <= len <= 2 * b + 1)%nat)
    by (subst len; destruct (Z.land (byte_at nib 0) 2 =? 0); lia).
  cbn [fst snd]. rewrite Hzpos, Hzlen.
  split; [reflexivity |]. split; [lia |].
  replace (Z.to_nat (Z.of_nat len - Z.of_nat pos)) with (len - pos)%nat by lia.
  rewrite Nat2Z.id.
  destruct (decompress_loop_shift (len - pos) nib pos pos) as [Hin _].
  { lia. } { subst nib. rewrite length_to_nibbles. lia. }
  apply list_eq. intros j. rewrite !lookup_take.
  destruct (decide (j < len - pos)%nat) as [Hj | Hj]; [| reflexivity].
  rewrite Hin by lia. rewrite lookup_drop. f_equal. lia.
Qed.

Lemma decompress_slice_witness :
  decompressed_key [0x20; 0xab] = [0xa; 0xb; 16].
Proof.
  refine (proj2 (proj2 (decompress_slice [0x20; 0xab] _ _)));
    [discriminate | reflexivity].
Defined.

Example decompress_odd : decompressed_key [0x1c; 0xab] = [0xc; 0xa; 0xb].
Proof. reflexivity. Qed.

(** C8 as stated fails: for the two-byte key [00 ab] (bits 0 and 1 of the
    first nibble clear) the code returns the two nibbles [a; b], the slice
    [2 .. 3] of the expansion [0; 0; a; b; 16]; an effective length of
    [2 * 2 - 1 = 3] is neither where that slice ends nor how long it is. *)
Lemma decompress_spec_fails :
  decompressed_key [0x00; 0xab] = [0xa; 0xb]
  /\ decompressed_key [0x00; 0xab] <> spec_decompress [0x00; 0xab]
  /\ Z.of_nat (length (decompressed_key [0x00; 0xab])) <> 2 * 2 - 1.
Proof.
  split; [reflexivity |]. split.
  - vm_compute. discriminate.
  - vm_compute. discriminate.
Qed.

Example decompress_spec_terminated :
  decompressed_key [0x20; 0xab] = [0xa; 0xb; 16]
  /\ spec_decompress [0x20; 0xab] = [0xa; 0xb].
Proof. split; reflexivity. Qed.

(** ** Trie-node parser: the fuel of [hsk_parse_node] is enough *)

Section trie_facts.
Context `{Blake2b, NodeTags}.

Lemma parse_children_total parse bound :
  parse_total parse bound ->
  forall n data acc, (length data <= bound)%nat ->
    exists rc node rest,
      parse_children parse n data acc = Some (rc, node, rest)
      /\ (length rest <= length data)%nat.
Proof.
  intros Hparse. induction n as [| n IH]; intros data acc Hlen; cbn [parse_children].
  - eauto.
  - destruct (Hparse data Hlen) as (rc & child & rest & -> & Hrest).
    destruct (IH rest (child :: acc)) as (rc' & node' & rest' & Hrun & Hrest');
      [lia |].
    destruct rc; eauto.
    exists rc', node', rest'. split; [assumption | lia].
Qed.

Lemma parse_node_total (fuel : nat) :
  forall data, (length data < fuel)%nat ->
    exists rc node rest,
      parse_node fuel data = Some (rc, node, rest)
      /\ (length rest <= length data)%nat.
Proof.
  induction fuel as [| fuel IH]; intros data Hlen; [lia |].
  cbn [parse_node]. destruct data as [| type data]; [eauto |].
  cbn [length] in Hlen.
  destruct (type =? HSK_NULLNODE).
  { do 3 eexists. split; [reflexivity | cbn; lia]. }
  destruct (type =? HSK_HASHNODE).
  { destruct (length data <? 32)%nat.
    - do 3 eexists. split; [reflexivity | cbn; lia].
    - do 3 eexists. split; [reflexivity |]. rewrite length_drop. cbn. lia. }
  destruct (type =? HSK_SHORTNODE).
  { destruct (read_varbytes data true) as [[[rc out] out_len] varlen].
    destruct rc; try (do 3 eexists; split; [reflexivity | cbn; lia]).
    destruct (decompress out) as [[rc dec] dec_len].
    destruct rc; try (do 3 eexists; split; [reflexivity | cbn; lia]).
    destruct (IH (drop (Z.to_nat out_len) (drop (Z.to_nat varlen) data)))
      as (rc & node & rest & -> & Hrest).
    { rewrite !length_drop. lia. }
    rewrite !length_drop in Hrest.
    destruct rc; do 3 eexists;
      (split; [reflexivity | rewrite ?length_drop; cbn; lia]). }
  destruct (type =? HSK_FULLNODE).
  { destruct (parse_children_total (parse_node fuel) (length data)) with
      (n := 17%nat) (data := data) (acc := @nil hsk_node)
      as (rc & node & rest & -> & Hrest).
    - intros d Hd. apply IH. lia.
    - lia.
    - do 3 eexists. split; [reflexivity | cbn; lia]. }
  destruct (type =? HSK_VALUENODE).
  { destruct (read_varbytes data false) as [[[rc out] out_len] varlen].
    destruct rc; do 3 eexists;
      (split; [reflexivity | rewrite ?length_drop; cbn; lia]). }
  do 3 eexists. split; [reflexivity | cbn; lia].
Qed.

(** [hsk_parse_node] never falls back on its out-of-fuel default. *)
Lemma parse_fuel_enough (data : list Z) :
  parse_node (S (length data)) data = Some (hsk_parse_node data).
Proof.
  unfold hsk_parse_node.
  destruct (parse_node_total (S (length data)) data) as (rc & node & rest & -> & _);
    [lia | reflexivity].
Qed.
End trie_facts.

(** ** Proof walker *)

Lemma next_child_cases (node : hsk_node) (k : list Z) (p : Z) :
  next_child_outcome (next_child node k p).
Proof.
  revert node p.
  fix IH 1. intros node p.
  destruct node as [| data | key value | children | data]; cbn [next_child].
  - destruct (65 - p >? 0); cbn; auto.
  - destruct (65 - p >? 0); cbn; auto.
  - destruct (65 - p >? 0); [| cbn; auto].
    destruct (_ || _); [cbn; auto |]. apply IH.
  - destruct (65 - p >? 0); [| cbn; auto].
    generalize (Z.to_nat (byte_at k p)).
    induction children as [| nn children IHc]; intros j.
    + cbn. auto.
    + destruct j as [| j]; [apply IH | apply IHc].
  - destruct (65 - p >? 0); cbn; auto.
Qed.

(** [next_child] returns [HSK_EUNEXPECTEDNODE] only from inside its loop:
    the position it leaves is a position of the key, not before [p]. *)
Lemma next_child_unexpected (node : hsk_node) (k : list Z) (p : Z) :
  let '(rc, _, p') := next_child node k p in
  rc = HSK_EUNEXPECTEDNODE -> p <= p' <= 64.
Proof.
  revert node p.
  fix IH 1. intros node p.
  destruct node as [| data | key value | children | data]; cbn [next_child].
  - destruct (65 - p >? 0); discriminate.
  - destruct (65 - p >? 0); discriminate.
  - destruct (65 - p >? 0); [| discriminate].
    destruct (_ || _); [discriminate |].
    specialize (IH value (p + Z.of_nat (length key))).
    destruct (next_child value k _) as [[rc node'] p'].
    intros Hrc. specialize (IH Hrc). lia.
  - destruct (65 - p >? 0); [| discriminate].
    generalize (Z.to_nat (byte_at k p)).
    induction children as [| nn children IHc]; intros j; [discriminate |].
    destruct j as [| j]; [| apply IHc].
    specialize (IH nn (p + 1)).
    destruct (next_child nn k _) as [[rc node'] p'].
    intros Hrc. specialize (IH Hrc). lia.
  - destruct (65 - p >? 0) eqn:E; [| discriminate].
    rewrite Z.gtb_ltb in E. apply Z.ltb_lt in E. intros _. lia.
Qed.

Section walker_facts.
Context `{Blake2b, NodeTags}.

Lemma walk_verify_loop k c h p c' h' p' :
  walk k c h p c' h' p' -> verify_loop k c h p = verify_loop k c' h' p'.
Proof.
  induction 1 as [| blob next h p node rest data p1 c' h' p' Hh Hp Hn _ IH];
    [reflexivity |].
  cbn [verify_loop]. rewrite Hh, Hp, Hn. cbn [negb]. exact IH.
Qed.

Lemma walk_trans k c h p c1 h1 p1 c2 h2 p2 :
  walk k c h p c1 h1 p1 -> walk k c1 h1 p1 c2 h2 p2 -> walk k c h p c2 h2 p2.
Proof.
  induction 1; [auto |]. intros Hw. eapply walk_next; eauto.
Qed.

Lemma verify_loop_data k c h p :
  match verify_loop k c h p with
  | (rc, Some payload, len) =>
      rc = HSK_EPROOFOK /\ len = Z.of_nat (length payload)
      /\ exists last h' p',
          walk k c h p [last] h' p' /\ ends_on_value k last h' p' payload
  | (rc, None, len) => len = 0
  end.
Proof.
  revert h p. induction c as [| blob next IH]; intros h p; cbn [verify_loop].
  - reflexivity.
  - destruct (memcmp_eq (hsk_hash_blake2b blob) h 32) eqn:Hh; cbn [negb];
      [| reflexivity].
    destruct (hsk_parse_node blob) as [[rc node] rest] eqn:Hp.
    destruct rc; try reflexivity.
    destruct (next_child node k p) as [[rc node'] p1] eqn:Hn.
    destruct rc; try reflexivity.
    destruct node' as [| data | key value | children | data]; try reflexivity.
    + destruct next; reflexivity.
    + specialize (IH data p1).
      destruct (verify_loop k next data p1) as [[rc [payload |]] len];
        [| exact IH].
      destruct IH as (Hrc & Hlen & last & h' & p' & Hw & He).
      split; [assumption |]. split; [assumption |].
      exists last, h', p'. split; [| assumption].
      eapply walk_next; eauto.
    + destruct next; [| reflexivity].
      split; [reflexivity |]. split; [reflexivity |].
      exists blob, h, p. split; [apply walk_here |].
      split; [assumption |]. eauto.
Qed.

(** C1: [hsk_verify_proof] hands back a value through [data] only when it
    returns [HSK_EPROOFOK] after the walk reached the final blob and ended
    there on a value node, whose payload it is; on every other outcome
    [data] and [data_len] keep the [NULL] and 0 written on entry; and
    whenever the walk gets to a blob whose hash differs from the hash
    expected at that point, the result is [HSK_EHASHMISMATCH] with [data]
    and [data_len] still [NULL] and 0. *)
Theorem verify_proof_value (root key : option (list Z)) (nodes : list (list Z)) :
  (forall rc payload len,
      hsk_verify_proof root key nodes = (rc, Some payload, len) ->
      rc = HSK_EPROOFOK /\ len = Z.of_nat (length payload)
      /\ exists r ky last h p,
          root = Some r /\ key = Some ky
          /\ walk (to_nibbles ky 32) nodes r 0 [last] h p
          /\ ends_on_value (to_nibbles ky 32) last h p payload)
  /\ (forall rc data len,
        hsk_verify_proof root key nodes = (rc, data, len) ->
        (rc <> HSK_EPROOFOK -> data = None) /\ (data = None -> len = 0))
  /\ (forall r ky blob next h p,
        root = Some r -> key = Some ky ->
        walk (to_nibbles ky 32) nodes r 0 (blob :: next) h p ->
        memcmp_eq (hsk_hash_blake2b blob) h 32 = false ->
        hsk_verify_proof root key nodes = (HSK_EHASHMISMATCH, None, 0)).
Proof.
  assert (Hvalue : forall rc payload len,
      hsk_verify_proof root key nodes = (rc, Some payload, len) ->
      rc = HSK_EPROOFOK /\ len = Z.of_nat (length payload)
      /\ exists r ky last h p,
          root = Some r /\ key = Some ky
          /\ walk (to_nibbles ky 32) nodes r 0 [last] h p
          /\ ends_on_value (to_nibbles ky 32) last h p payload).
  { intros rc payload len Hrun. unfold hsk_verify_proof in Hrun.
    destruct root as [r |]; [| discriminate Hrun].
    destruct key as [ky |]; [| discriminate Hrun].
    pose proof (verify_loop_data (to_nibbles ky 32) nodes r 0) as Hd.
    rewrite Hrun in Hd. destruct Hd as (Hrc & Hlen & last & h & p & Hw & He).
    split; [assumption |]. split; [assumption |].
    exists r, ky, last, h, p. auto. }
  split; [exact Hvalue |]. split.
  - intros rc data len Hrun. split.
    + intros Hrc. destruct data as [payload |]; [| reflexivity].
      destruct (Hvalue rc payload len Hrun) as [Hok _]. contradiction.
    + intros ->. unfold hsk_verify_proof in Hrun.
      destruct root as [r |]; [| congruence].
      destruct key as [ky |]; [| congruence].
      pose proof (verify_loop_data (to_nibbles ky 32) nodes r 0) as Hd.
      rewrite Hrun in Hd. exact Hd.
  - intros r ky blob next h p -> -> Hw Hh. unfold hsk_verify_proof.
    rewrite (walk_verify_loop _ _ _ _ _ _ _ Hw).
    cbn [verify_loop]. rewrite Hh. reflexivity.
Qed.

(** C4 (amended): with non-null [root] and [key], an empty node list gives
    [HSK_ENORESULT]; if the walk gets to a blob that matches its expected
    hash and parses, then a descent to an absence (a null node, which comes
    with position -1) while further blobs remain gives [HSK_EEARLYEND]; a
    descent to a value node either ended at the end of the key
    ([next_child] returns [HSK_SUCCESS] and position -1), and then the
    result is [HSK_EEARLYEND] while further blobs remain, or found the
    value node at a position within the key, and then the result is
    [HSK_EUNEXPECTEDNODE] whether or not blobs remain; and if the walk
    passes every blob without reaching a value or an absence, the result
    is [HSK_ENORESULT]. *)
Theorem verify_proof_termination (root key : list Z) (nodes : list (list Z)) :
  hsk_verify_proof (Some root) (Some key) [] = (HSK_ENORESULT, None, 0)
  /\ (forall blob next h p node rest rc node' p',
        walk (to_nibbles key 32) nodes root 0 (blob :: next) h p ->
        memcmp_eq (hsk_hash_blake2b blob) h 32 = true ->
        hsk_parse_node blob = (HSK_SUCCESS, node, rest) ->
        next_child node (to_nibbles key 32) p = (rc, node', p') ->
        (node' = NullNode -> next <> [] ->
         p' = -1
         /\ hsk_verify_proof (Some root) (Some key) nodes = (HSK_EEARLYEND, None, 0))
        /\ (forall payload, node' = ValueNode payload ->
            (rc = HSK_SUCCESS /\ p' = -1
             /\ (next <> [] ->
                 hsk_verify_proof (Some root) (Some key) nodes
                 = (HSK_EEARLYEND, None, 0)))
            \/ (rc = HSK_EUNEXPECTEDNODE /\ p <= p' <= 64
                /\ hsk_verify_proof (Some root) (Some key) nodes
                   = (HSK_EUNEXPECTEDNODE, None, 0))))
  /\ (forall h p,
        walk (to_nibbles key 32) nodes root 0 [] h p ->
        hsk_verify_proof (Some root) (Some key) nodes = (HSK_ENORESULT, None, 0)).
Proof.
  split; [reflexivity |]. split.
  - intros blob next h p node rest rc node' p' Hw Hh Hp Hn.
    unfold hsk_verify_proof. rewrite (walk_verify_loop _ _ _ _ _ _ _ Hw).
    cbn [verify_loop]. rewrite Hh, Hp, Hn. cbn [negb].
    pose proof (next_child_cases node (to_nibbles key 32) p) as Hc.
    pose proof (next_child_unexpected node (to_nibbles key 32) p) as Hu.
    rewrite Hn in Hc, Hu. cbn in Hc.
    split.
    + intros -> Hnext. destruct Hc as [-> ->]. split; [reflexivity |].
      destruct next; [congruence | reflexivity].
    + intros payload ->. destruct Hc as [[-> ->] | ->].
      * left. split; [reflexivity |]. split; [reflexivity |].
        intros Hnext. destruct next; [congruence | reflexivity].
      * right. split; [reflexivity |]. split; [exact (Hu eq_refl) | reflexivity].
  - intros h p Hw. unfold hsk_verify_proof.
    rewrite (walk_verify_loop _ _ _ _ _ _ _ Hw). reflexivity.
Qed.
End walker_facts.

Example parse_leaf_blob :
  @hsk_parse_node const_tags leaf_blob
  = (HSK_SUCCESS, ShortNode (zeros 64 ++ [16]) (ValueNode [1; 2; 3]), []).
Proof. reflexivity. Qed.

Example verify_two_blobs :
  @hsk_verify_proof const_hash const_tags
    (Some (replicate 32 0xff)) (Some (zeros 32)) [hash_blob; leaf_blob]
  = (HSK_EPROOFOK, Some [1; 2; 3], 3).
Proof. reflexivity. Qed.

Example verify_full_then_short :
  @hsk_verify_proof const_hash const_tags
    (Some (replicate 32 0xff)) (Some (zeros 32)) [full_blob; tail_blob]
  = (HSK_EPROOFOK, Some [42], 1).
Proof. reflexivity. Qed.

Example verify_absent_slot :
  @hsk_verify_proof const_hash const_tags
    (Some (replicate 32 0xff)) (Some (replicate 32 0x10)) [full_blob]
  = (HSK_EPROOFOK, None, 0).
Proof. reflexivity. Qed.

Example verify_value_mid_path :
  @hsk_verify_proof const_hash const_tags
    (Some (replicate 32 0xff)) (Some (zeros 32)) [[4; 1; 42]]
  = (HSK_EUNEXPECTEDNODE, None, 0).
Proof. reflexivity. Qed.

Example verify_suffix_no_result :
  @hsk_verify_proof const_hash const_tags
    (Some (replicate 32 0xff)) (Some (zeros 32)) [hash_blob]
  = (HSK_ENORESULT, None, 0).
Proof. reflexivity. Qed.

Lemma verify_proof_value_witness :
  (HSK_EPROOFOK = HSK_EPROOFOK /\ 3 = Z.of_nat (length [1; 2; 3])
   /\ exists r ky last h p,
       Some (replicate 32 0xff) = Some r /\ Some (zeros 32) = Some ky
       /\ @walk const_hash const_tags (to_nibbles ky 32) [hash_blob; leaf_blob]
            r 0 [last] h p
       /\ @ends_on_value const_hash const_tags (to_nibbles ky 32) last h p [1; 2; 3])
  /\ @hsk_verify_proof const_hash const_tags
       (Some (zeros 32)) (Some (zeros 32)) [hash_blob; leaf_blob]
     = (HSK_EHASHMISMATCH, None, 0).
Proof.
  split.
  - apply (proj1 (@verify_proof_value const_hash const_tags
                    (Some (replicate 32 0xff)) (Some (zeros 32))
                    [hash_blob; leaf_blob])).
    reflexivity.
  - apply (proj2 (proj2 (@verify_proof_value const_hash const_tags
                           (Some (zeros 32)) (Some (zeros 32))
                           [hash_blob; leaf_blob]))
             (zeros 32) (zeros 32) hash_blob [leaf_blob] (zeros 32) 0).
    + reflexivity.
    + reflexivity.
    + apply walk_here.
    + reflexivity.
Defined.

Lemma verify_proof_termination_witness :
  -1 = -1
  /\ @hsk_verify_proof const_hash const_tags
       (Some (replicate 32 0xff)) (Some (zeros 32)) [[0]; leaf_blob]
     = (HSK_EEARLYEND, None, 0).
Proof.
  refine (proj1 (proj1 (proj2 (@verify_proof_termination const_hash const_tags
                                 (replicate 32 0xff) (zeros 32) [[0]; leaf_blob]))
                   [0] [leaf_blob] (replicate 32 0xff) 0 NullNode [] HSK_SUCCESS
                   NullNode (-1) _ _ _ _) _ _).
  - apply walk_here.
  - reflexivity.
  - reflexivity.
  - reflexivity.
  - reflexivity.
  - discriminate.
Defined.

Example verify_value_then_more :
  @hsk_verify_proof const_hash const_tags
    (Some (replicate 32 0xff)) (Some (zeros 32)) [leaf_blob; [0]]
  = (HSK_EEARLYEND, None, 0).
Proof. reflexivity. Qed.

(** C4 as stated fails: the blob [04 01 2a] is a value node met at key
    position 0, with a further blob after it; the descent reaches a value
    node while blobs remain, and the result is [HSK_EUNEXPECTEDNODE], not
    [HSK_EEARLYEND]. *)
Lemma verify_proof_value_early_end_fails :
  ~ (forall (root key : list Z) (nodes : list (list Z))
            (blob : list Z) (next : list (list Z)) (h : list Z) (p : Z)
            (node : hsk_node) (rest : list Z) (rc : hsk_error)
            (payload : list Z) (p' : Z),
        @walk const_hash const_tags (to_nibbles key 32) nodes root 0
          (blob :: next) h p ->
        memcmp_eq (const_hash blob) h 32 = true ->
        @hsk_parse_node const_tags blob = (HSK_SUCCESS, node, rest) ->
        next_child node (to_nibbles key 32) p = (rc, ValueNode payload, p') ->
        next <> [] ->
        @hsk_verify_proof const_hash const_tags (Some root) (Some key) nodes
        = (HSK_EEARLYEND, None, 0)).
Proof.
  intros Hall.
  specialize (Hall (replicate 32 0xff) (zeros 32) [[4; 1; 42]; leaf_blob]
                [4; 1; 42] [leaf_blob] (replicate 32 0xff) 0
                (ValueNode [42]) [] HSK_EUNEXPECTEDNODE [42] 0).
  assert (Hrun : @hsk_verify_proof const_hash const_tags
                   (Some (replicate 32 0xff)) (Some (zeros 32))
                   [[4; 1; 42]; leaf_blob]
                 = (HSK_EUNEXPECTEDNODE, None, 0)) by reflexivity.
  rewrite Hrun in Hall.
  assert (Hno : (HSK_EUNEXPECTEDNODE, @None (list Z), 0)
                = (HSK_EEARLYEND, None, 0) -> False) by discriminate.
  apply Hno, Hall.
  - apply walk_here.
  - reflexivity.
  - reflexivity.
  - reflexivity.
  - discriminate.
Qed.

(** * Further properties of the code *)

(** ** Compact difficulty: what a decoded target is worth *)

Lemma le_bytes_zero (n : nat) : le_bytes n 0 = zeros n.
Proof.
  induction n as [| n IH]; [reflexivity |]. cbn [le_bytes].
  change (0 / 256) with 0. change (0 mod 256) with 0. now rewrite IH.
Qed.

Lemma length_zeros (n : nat) : length (zeros n) = n.
Proof. apply length_replicate. Qed.

Lemma zeros_snoc (n : nat) : zeros (S n) = zeros n ++ [0].
Proof. apply replicate_S_end. Qed.

Lemma be_bytes_zero (n : nat) : be_bytes n 0 = zeros n.
Proof.
  unfold be_bytes. rewrite le_bytes_zero.
  induction n as [| n IH]; [reflexivity |].
  cbn [zeros replicate rev]. fold (zeros n). rewrite IH. symmetry. apply zeros_snoc.
Qed.

Lemma be_bytes_S (n : nat) (v : Z) :
  be_bytes (S n) v = be_bytes n (v / 256) ++ [v mod 256].
Proof. reflexivity. Qed.

(** The decoding loop leaves the [n] low bytes of the mantissa, most
    significant first, in the [n] zero bytes it starts from, and what does
    not fit in the mantissa. *)
Lemma pow_target_loop_be (n : nat) (suffix : list Z) (m : Z) :
  0 <= m ->
  pow_target_loop n (zeros n ++ suffix) m
  = (be_bytes n m ++ suffix, m / 256 ^ Z.of_nat n).
Proof.
  revert suffix m. induction n as [| i IH]; intros suffix m Hm.
  - cbn. now rewrite Z.div_1_r.
  - cbn [pow_target_loop]. destruct (m =? 0) eqn:E.
    + apply Z.eqb_eq in E. subst m. rewrite be_bytes_zero, Z.div_0_l; [reflexivity |].
      apply Z.pow_nonzero; lia.
    + rewrite zeros_snoc, <- app_assoc. cbn [app].
      rewrite insert_app_r_alt by (rewrite length_zeros; lia).
      rewrite length_zeros, Nat.sub_diag. cbn [insert list_insert].
      rewrite Z.shiftr_div_pow2 by lia. change (2 ^ 8) with 256.
      rewrite IH by (apply Z.div_pos; lia).
      rewrite be_bytes_S, <- app_assoc, u8_mod. cbn [app]. f_equal.
      rewrite Nat2Z.inj_succ, Z.pow_succ_r by lia.
      rewrite Z.div_div by (try apply Z.pow_pos_nonneg; lia). reflexivity.
Qed.

Lemma be_value_acc_shift (acc : Z) (l : list Z) :
  be_value_acc acc l = acc * 256 ^ Z.of_nat (length l) + be_value l.
Proof.
  unfold be_value. revert acc. induction l as [| b l IH]; intros acc.
  - cbn. lia.
  - cbn [be_value_acc length]. rewrite IH, (IH (256 * 0 + b)).
    rewrite Nat2Z.inj_succ, Z.pow_succ_r by lia. lia.
Qed.

Lemma be_value_app (l1 l2 : list Z) :
  be_value (l1 ++ l2) = be_value l1 * 256 ^ Z.of_nat (length l2) + be_value l2.
Proof.
  unfold be_value at 1. rewrite be_value_acc_app.
  fold (be_value l1). apply be_value_acc_shift.
Qed.

Lemma be_value_zeros (n : nat) : be_value (zeros n) = 0.
Proof.
  rewrite <- be_bytes_zero, be_value_be_bytes. apply Z.mod_0_l.
  apply Z.pow_nonzero; lia.
Qed.

Lemma pow_shift_range (bits : Z) : 0 <= pow_shift bits <= 31.
Proof.
  unfold pow_shift. destruct (Z.shiftr bits 24 <=? 3); [lia |].
  assert (Hl : Z.land (Z.shiftr bits 24 - 3) 31 = (Z.shiftr bits 24 - 3) mod 32)
    by (change 31 with (Z.ones 5); now rewrite Z.land_ones).
  rewrite Hl.
  pose proof (Z.mod_pos_bound (Z.shiftr bits 24 - 3) 32 ltac:(lia)). lia.
Qed.

Lemma pow_mantissa_nonneg (bits : Z) : 0 <= pow_mantissa bits.
Proof.
  unfold pow_mantissa.
  assert (0 <= Z.land bits 0x7fffff)
    by (rewrite land_7fffff_mod; apply Z.mod_pos_bound; lia).
  destruct (Z.shiftr bits 24 <=? 3); [| assumption].
  apply Z.shiftr_nonneg. assumption.
Qed.

(** Past its two guards, [hsk_pow_to_target] in closed form. *)
Lemma pow_to_target_closed (bits : Z) :
  bits <> 0 -> Z.land (Z.shiftr bits 23) 1 = 0 ->
  let n := Z.to_nat (32 - pow_shift bits) in
  hsk_pow_to_target bits
  = (pow_mantissa bits / 256 ^ Z.of_nat n =? 0,
     be_bytes n (pow_mantissa bits) ++ zeros (Z.to_nat (pow_shift bits))).
Proof.
  intros Hnz Hsign n. unfold hsk_pow_to_target.
  replace (bits =? 0) with false by (symmetry; apply Z.eqb_neq; assumption).
  rewrite Hsign. cbn [Z.eqb negb].
  pose proof (pow_shift_range bits) as Hs.
  pose proof (pow_mantissa_nonneg bits) as Hm.
  unfold pow_mantissa, pow_shift in *.
  destruct (Z.shiftr bits 24 <=? 3).
  - change (Z.to_nat (31 - 0 + 1)) with 32%nat. subst n.
    change (Z.to_nat (32 - 0)) with 32%nat. change (Z.to_nat 0) with 0%nat.
    rewrite <- (app_nil_r (zeros 32)) at 1.
    rewrite pow_target_loop_be by assumption.
    destruct (_ =? 0); reflexivity.
  - set (s := Z.land (Z.shiftr bits 24 - 3) 31) in *.
    replace (Z.to_nat (31 - s + 1)) with n by (subst n; lia).
    replace (zeros 32) with (zeros n ++ zeros (Z.to_nat s))
      by (unfold zeros; rewrite <- replicate_add; f_equal; subst n; lia).
    rewrite pow_target_loop_be by assumption.
    destruct (_ =? 0); reflexivity.
Qed.

Lemma compact_value_split (bits : Z) :
  0 <= Z.shiftr bits 24 <= 34 ->
  compact_value bits = pow_mantissa bits * 256 ^ pow_shift bits
  /\ pow_shift bits = Z.max 0 (Z.shiftr bits 24 - 3).
Proof.
  intros He. unfold compact_value, pow_mantissa, pow_shift.
  set (e := Z.shiftr bits 24) in *. set (m := Z.land bits 0x7fffff).
  destruct (e <=? 3) eqn:E.
  - apply Z.leb_le in E. split; [| lia].
    rewrite Z.pow_0_r, Z.mul_1_r, Z.shiftr_div_pow2 by lia.
    rewrite Z.pow_mul_r by lia. change (2 ^ 8) with 256.
    assert (H3 : 256 ^ 3 = 256 ^ e * 256 ^ (3 - e)).
    { rewrite <- Z.pow_add_r by lia. f_equal. lia. }
    rewrite H3, (Z.mul_comm m).
    apply Z.div_mul_cancel_l; apply Z.pow_nonzero; lia.
  - apply Z.leb_gt in E.
    assert (Hl : Z.land (e - 3) 31 = e - 3).
    { change 31 with (Z.ones 5). rewrite Z.land_ones by lia.
      apply Z.mod_small. change (2 ^ 5) with 32. lia. }
    rewrite Hl. split; [| lia].
    assert (H3 : 256 ^ e = 256 ^ (e - 3) * 256 ^ 3).
    { rewrite <- Z.pow_add_r by lia. f_equal. lia. }
    rewrite H3, Z.mul_assoc.
    apply Z.div_mul. apply Z.pow_nonzero; lia.
Qed.

Lemma pow_to_target_number (bits : Z) :
  bits <> 0 -> Z.land (Z.shiftr bits 23) 1 = 0 ->
  0 <= Z.shiftr bits 24 <= 34 ->
  (fst (hsk_pow_to_target bits) = true <-> compact_value bits < 2 ^ 256)
  /\ (compact_value bits < 2 ^ 256 ->
      be_value (snd (hsk_pow_to_target bits)) = compact_value bits).
Proof.
  intros Hnz Hsign He.
  rewrite (pow_to_target_closed bits Hnz Hsign). cbn [fst snd].
  destruct (compact_value_split bits He) as [Hv Hs].
  pose proof (pow_mantissa_nonneg bits) as Hm.
  pose proof (pow_shift_range bits) as Hr.
  set (s := pow_shift bits) in *. set (m := pow_mantissa bits) in *.
  rewrite Hv.
  assert (Hn : Z.of_nat (Z.to_nat (32 - s)) = 32 - s) by lia.
  assert (H256 : 2 ^ 256 = 256 ^ (32 - s) * 256 ^ s).
  { rewrite <- Z.pow_add_r by lia. replace (32 - s + s) with 32 by lia. reflexivity. }
  assert (Hps : 0 < 256 ^ s) by (apply Z.pow_pos_nonneg; lia).
  assert (Hpn : 0 < 256 ^ (32 - s)) by (apply Z.pow_pos_nonneg; lia).
  assert (Hfit : m / 256 ^ (32 - s) = 0 <-> m * 256 ^ s < 2 ^ 256).
  { rewrite H256. split.
    - intros Hd. apply Z.div_small_iff in Hd; [| lia].
      apply Z.mul_lt_mono_pos_r; lia.
    - intros Hlt. apply Z.div_small. split; [lia |].
      apply Z.mul_lt_mono_pos_r in Hlt; lia. }
  split.
  - rewrite Hn, Z.eqb_eq. exact Hfit.
  - intros Hlt. rewrite be_value_app, be_value_zeros, length_zeros.
    rewrite be_value_be_bytes, Hn, Z.add_0_r.
    replace (Z.of_nat (Z.to_nat s)) with s by lia.
    rewrite Z.mod_small; [reflexivity |].
    split; [lia |]. apply Hfit in Hlt.
    apply Z.div_small_iff in Hlt; lia.
Qed.

(** X1: for every 32-bit [bits] that is not 0, has a clear sign bit and an
    exponent of at most 34, [hsk_pow_to_target] accepts exactly when the
    number [bits] stands for is below [2^256], and the target it then
    leaves is that number as a 32-byte big-endian integer. *)
Theorem pow_to_target_value (bits : Z) :
  bits <> 0 -> Z.land (Z.shiftr bits 23) 1 = 0 ->
  0 <= Z.shiftr bits 24 <= 34 ->
  (fst (hsk_pow_to_target bits) = true <-> compact_value bits < 2 ^ 256)
  /\ (compact_value bits < 2 ^ 256 ->
      be_value (snd (hsk_pow_to_target bits)) = compact_value bits).
Proof. exact (pow_to_target_number bits). Qed.

Lemma pow_to_target_value_witness :
  fst (hsk_pow_to_target 0x1d00ffff) = true
  /\ be_value (snd (hsk_pow_to_target 0x1d00ffff)) = 0xffff * 2 ^ 208.
Proof.
  destruct (pow_to_target_value 0x1d00ffff) as [Hacc Hval].
  - discriminate.
  - reflexivity.
  - vm_compute. split; discriminate.
  - split.
    + apply Hacc. vm_compute. reflexivity.
    + rewrite Hval; [| vm_compute; reflexivity]. vm_compute. reflexivity.
Defined.

(** X2: an exponent above 34 is not rejected as an overflow: the byte
    shift is taken modulo 32, so for every exponent [e > 3] the compact
    values with exponents [e] and [e + 32] decode alike. *)
Theorem pow_to_target_exponent_wraps (e m : Z) :
  3 < e -> 0 <= m < 2 ^ 23 ->
  hsk_pow_to_target ((e + 32) * 2 ^ 24 + m) = hsk_pow_to_target (e * 2 ^ 24 + m).
Proof.
  intros He Hm.
  assert (Hfields : forall x, 3 < x ->
            (x * 2 ^ 24 + m <> 0)
            /\ Z.land (Z.shiftr (x * 2 ^ 24 + m) 23) 1 = 0
            /\ Z.shiftr (x * 2 ^ 24 + m) 24 = x
            /\ Z.land (x * 2 ^ 24 + m) 0x7fffff = m).
  { intros x Hx. split; [pow2_consts; lia |]. split; [| split].
    - rewrite land_1_mod, Z.shiftr_div_pow2 by lia. pow2_consts.
      Z.div_mod_to_equations. lia.
    - rewrite Z.shiftr_div_pow2 by lia. pow2_consts.
      Z.div_mod_to_equations. lia.
    - rewrite land_7fffff_mod. pow2_consts. Z.div_mod_to_equations. lia. }
  destruct (Hfields e He) as (Hnz & Hs & Hexp & Hman).
  destruct (Hfields (e + 32) ltac:(lia)) as (Hnz' & Hs' & Hexp' & Hman').
  rewrite (pow_to_target_closed _ Hnz Hs), (pow_to_target_closed _ Hnz' Hs').
  unfold pow_mantissa, pow_shift. rewrite Hexp, Hexp', Hman, Hman'.
  replace (e <=? 3) with false by (symmetry; apply Z.leb_gt; lia).
  replace (e + 32 <=? 3) with false by (symmetry; apply Z.leb_gt; lia).
  assert (Hl : Z.land (e + 32 - 3) 31 = Z.land (e - 3) 31).
  { change 31 with (Z.ones 5). rewrite !Z.land_ones by lia.
    change (2 ^ 5) with 32. replace (e + 32 - 3) with (e - 3 + 1 * 32) by lia.
    apply Z.mod_add. lia. }
  rewrite Hl. reflexivity.
Qed.

Lemma pow_to_target_exponent_wraps_witness :
  hsk_pow_to_target ((4 + 32) * 2 ^ 24 + 0xffff)
  = hsk_pow_to_target (4 * 2 ^ 24 + 0xffff).
Proof.
  apply (pow_to_target_exponent_wraps 4 0xffff).
  - reflexivity.
  - split; [discriminate | reflexivity].
Defined.

(** ** Compact difficulty: re-encoding small targets *)

(** [hsk_pow_to_bits] on a target whose 29 leading bytes are zero. *)
Lemma pow_to_bits_small_closed (a b c : Z) :
  is_byte a -> is_byte b -> is_byte c ->
  hsk_pow_to_bits (zeros 29 ++ [a; b; c])
  = if negb (a =? 0) then
      if a <? 0x80 then Some (3 * 2 ^ 24 + (a * 2 ^ 16 + b * 2 ^ 8 + c)) else None
    else if negb (b =? 0) then
      if b <? 0x80 then Some (2 * 2 ^ 24 + (b * 2 ^ 16 + c * 2 ^ 8)) else None
    else if negb (c =? 0) then
      if c <? 0x80 then Some (1 * 2 ^ 24 + c * 2 ^ 16) else None
    else Some 0.
Proof.
  intros Ha Hb Hc. unfold hsk_pow_to_bits. rewrite first_nonzero_tail.
  assert (Ha' := Ha). assert (Hb' := Hb). assert (Hc' := Hc).
  unfold is_byte in Ha', Hb', Hc'.
  assert (Hfin : forall e m top,
             1 <= e <= 3 -> 0 <= m < 2 ^ 24 ->
             (m <? 2 ^ 23) = (top <? 0x80) ->
             (if negb (Z.land m 0x800000 =? 0) then None
              else Some (Z.lor (u32 (Z.shiftl e 24)) m))
             = if top <? 0x80 then Some (e * 2 ^ 24 + m) else None).
  { intros e m top He Hm Htop. rewrite land_bit23, Htop by assumption.
    destruct (top <? 0x80); cbn [negb]; [| reflexivity].
    rewrite u32_small by (rewrite Z.shiftl_mul_pow2 by lia; pow2_consts; lia).
    rewrite lor_shiftl_add by lia. reflexivity. }
  destruct (a =? 0) eqn:Ea; cbn [negb].
  2:{ change (u32 (32 - 29)) with 3.
      change (3 =? 0) with false. change (3 <=? 3) with true. cbv iota zeta.
      rewrite pow_bits_small_3 by assumption.
      apply Hfin; [lia | pow2_consts; lia |].
      pow2_consts. destruct (a <? 128) eqn:E.
      - apply Z.ltb_lt in E. apply Z.ltb_lt. lia.
      - apply Z.ltb_ge in E. apply Z.ltb_ge. lia. }
  destruct (b =? 0) eqn:Eb; cbn [negb].
  2:{ change (u32 (32 - 30)) with 2.
      change (2 =? 0) with false. change (2 <=? 3) with true. cbv iota zeta.
      rewrite pow_bits_small_2 by assumption.
      apply Hfin; [lia | pow2_consts; lia |].
      pow2_consts. destruct (b <? 128) eqn:E.
      - apply Z.ltb_lt in E. apply Z.ltb_lt. lia.
      - apply Z.ltb_ge in E. apply Z.ltb_ge. lia. }
  destruct (c =? 0) eqn:Ec; cbn [negb]; [reflexivity |].
  change (u32 (32 - 31)) with 1.
  change (1 =? 0) with false. change (1 <=? 3) with true. cbv iota zeta.
  rewrite pow_bits_small_1 by assumption.
  apply Hfin; [lia | pow2_consts; lia |].
  pow2_consts. destruct (c <? 128) eqn:E.
  - apply Z.ltb_lt in E. apply Z.ltb_lt. lia.
  - apply Z.ltb_ge in E. apply Z.ltb_ge. lia.
Qed.

Lemma pow_to_bits_negative_small (t : list Z) :
  length t = 32%nat -> bytes_ok t ->
  29 <= first_nonzero 32 t 0 < 32 ->
  (hsk_pow_to_bits t = None <-> 0x80 <= byte_at t (first_nonzero 32 t 0)).
Proof.
  intros Hlen Hok Hi.
  destruct (first_nonzero_spec 32 t 0) as (_ & Hz & _).
  assert (Hzero : take 29 t = zeros 29)
    by (apply zero_prefix; [assumption | intros j Hj; apply Hz; lia]).
  pose proof (bytes_ok_at t 29 Hok) as H29.
  pose proof (bytes_ok_at t 30 Hok) as H30.
  pose proof (bytes_ok_at t 31 Hok) as H31.
  revert Hi. rewrite (small_target_shape t Hlen Hzero).
  set (a := byte_at t 29) in *. set (b := byte_at t 30) in *.
  set (c := byte_at t 31) in *.
  rewrite pow_to_bits_small_closed by assumption. rewrite first_nonzero_tail.
  destruct (a =? 0) eqn:Ea; cbn [negb].
  2:{ intros _. change (byte_at (zeros 29 ++ [a; b; c]) 29) with a.
      destruct (a <? 128) eqn:E;
        [apply Z.ltb_lt in E | apply Z.ltb_ge in E]; split; try discriminate;
        try lia; auto. }
  destruct (b =? 0) eqn:Eb; cbn [negb].
  2:{ intros _. change (byte_at (zeros 29 ++ [a; b; c]) 30) with b.
      destruct (b <? 128) eqn:E;
        [apply Z.ltb_lt in E | apply Z.ltb_ge in E]; split; try discriminate;
        try lia; auto. }
  destruct (c =? 0) eqn:Ec; cbn [negb]; [lia |].
  intros _. change (byte_at (zeros 29 ++ [a; b; c]) 31) with c.
  destruct (c <? 128) eqn:E;
    [apply Z.ltb_lt in E | apply Z.ltb_ge in E]; split; try discriminate;
    try lia; auto.
Qed.

(** X4: a compact value with exponent 1, 2 or 3, a clear sign bit, a
    non-zero top mantissa byte and no mantissa bits below the exponent's
    reach survives decoding and re-encoding:
    [hsk_pow_to_bits] of the target [hsk_pow_to_target] makes of it gives
    it back. *)
Theorem pow_target_bits_roundtrip (e m : Z) :
  1 <= e <= 3 -> 2 ^ 16 <= m < 2 ^ 23 -> m mod 256 ^ (3 - e) = 0 ->
  hsk_pow_to_bits (snd (hsk_pow_to_target (e * 2 ^ 24 + m)))
  = Some (e * 2 ^ 24 + m).
Proof.
  intros He Hm Hlow.
  rewrite pow_to_target_small by lia. cbv zeta. cbn [snd].
  set (x := m / 65536). set (y := m / 256 mod 256). set (z := m mod 256).
  assert (Hx : 1 <= x < 128) by (subst x; pow2_consts; Z.div_mod_to_equations; lia).
  assert (Hy : is_byte y) by (subst y; unfold is_byte; Z.div_mod_to_equations; lia).
  assert (Hz : is_byte z) by (subst z; unfold is_byte; Z.div_mod_to_equations; lia).
  assert (Hxb : is_byte x) by (unfold is_byte; lia).
  assert (H0b : is_byte 0) by (unfold is_byte; lia).
  assert (Hmxyz : m = x * 65536 + y * 256 + z)
    by (subst x y z; Z.div_mod_to_equations; lia).
  assert (He3 : e = 3 \/ e = 2 \/ e = 1) by lia.
  destruct He3 as [-> | [-> | ->]].
  - change (8 * (3 - 3)) with 0. rewrite Z.shiftr_0_r.
    replace (u8 (Z.shiftr m 16)) with x
      by (arith_bits; pow2_consts; Z.div_mod_to_equations; lia).
    replace (u8 (Z.shiftr m 8)) with y
      by (arith_bits; pow2_consts; Z.div_mod_to_equations; lia).
    replace (u8 m) with z
      by (arith_bits; pow2_consts; Z.div_mod_to_equations; lia).
    change (<[29%nat:=x]> (<[30%nat:=y]> (<[31%nat:=z]> (zeros 32))))
      with (zeros 29 ++ [x; y; z]).
    rewrite pow_to_bits_small_closed by assumption.
    replace (x =? 0) with false by (symmetry; apply Z.eqb_neq; lia).
    replace (x <? 0x80) with true by (symmetry; apply Z.ltb_lt; lia).
    cbn [negb]. f_equal. pow2_consts. lia.
  - change (8 * (3 - 2)) with 8. change (256 ^ (3 - 2)) with 256 in Hlow.
    assert (Hz0 : z = 0) by (subst z; exact Hlow).
    replace (u8 (Z.shiftr (Z.shiftr m 8) 16)) with 0
      by (arith_bits; pow2_consts; Z.div_mod_to_equations; lia).
    replace (u8 (Z.shiftr (Z.shiftr m 8) 8)) with x
      by (arith_bits; pow2_consts; Z.div_mod_to_equations; lia).
    replace (u8 (Z.shiftr m 8)) with y
      by (arith_bits; pow2_consts; Z.div_mod_to_equations; lia).
    change (<[29%nat:=0]> (<[30%nat:=x]> (<[31%nat:=y]> (zeros 32))))
      with (zeros 29 ++ [0; x; y]).
    rewrite pow_to_bits_small_closed by assumption.
    replace (x =? 0) with false by (symmetry; apply Z.eqb_neq; lia).
    replace (x <? 0x80) with true by (symmetry; apply Z.ltb_lt; lia).
    cbn [negb Z.eqb]. f_equal. pow2_consts. lia.
  - change (8 * (3 - 1)) with 16. change (256 ^ (3 - 1)) with 65536 in Hlow.
    assert (Hyz : y = 0 /\ z = 0)
      by (subst y z; Z.div_mod_to_equations; lia).
    replace (u8 (Z.shiftr (Z.shiftr m 16) 16)) with 0
      by (arith_bits; pow2_consts; Z.div_mod_to_equations; lia).
    replace (u8 (Z.shiftr (Z.shiftr m 16) 8)) with 0
      by (arith_bits; pow2_consts; Z.div_mod_to_equations; lia).
    replace (u8 (Z.shiftr m 16)) with x
      by (arith_bits; pow2_consts; Z.div_mod_to_equations; lia).
    change (<[29%nat:=0]> (<[30%nat:=0]> (<[31%nat:=x]> (zeros 32))))
      with (zeros 29 ++ [0; 0; x]).
    rewrite pow_to_bits_small_closed by assumption.
    replace (x =? 0) with false by (symmetry; apply Z.eqb_neq; lia).
    replace (x <? 0x80) with true by (symmetry; apply Z.ltb_lt; lia).
    cbn [negb Z.eqb]. f_equal. pow2_consts. lia.
Qed.

Lemma pow_target_bits_roundtrip_witness :
  hsk_pow_to_bits (snd (hsk_pow_to_target (2 * 2 ^ 24 + 0x123400)))
  = Some (2 * 2 ^ 24 + 0x123400).
Proof.
  apply (pow_target_bits_roundtrip 2 0x123400).
  - split; discriminate.
  - split; [discriminate | reflexivity].
  - reflexivity.
Defined.

(** ** Header codec: what a decoder accepts and what it read *)

Lemma take_add_slices {A} (a b : nat) (l : list A) :
  take (a + b) l = take a l ++ take b (drop a l).
Proof.
  revert l. induction a as [| a IH]; intros l; [reflexivity |].
  destruct l as [| x l]; [cbn; now rewrite take_nil |].
  cbn. now rewrite IH.
Qed.

Lemma le_bytes_le_value (bs : list Z) :
  bytes_ok bs -> le_bytes (length bs) (le_value bs) = bs.
Proof.
  induction bs as [| b bs IH]; intros Hok; [reflexivity |].
  apply bytes_ok_cons in Hok. destruct Hok as [Hb Hok]. unfold is_byte in Hb.
  cbn [length le_bytes le_value].
  replace ((b + 256 * le_value bs) mod 256) with b
    by (Z.div_mod_to_equations; lia).
  replace ((b + 256 * le_value bs) / 256) with (le_value bs)
    by (Z.div_mod_to_equations; lia).
  now rewrite IH.
Qed.

Lemma le_value_range (bs : list Z) :
  bytes_ok bs -> 0 <= le_value bs < 256 ^ Z.of_nat (length bs).
Proof.
  induction bs as [| b bs IH]; intros Hok; [cbn; lia |].
  apply bytes_ok_cons in Hok. destruct Hok as [Hb Hok]. unfold is_byte in Hb.
  specialize (IH Hok). cbn [length le_value].
  rewrite Nat2Z.inj_succ, Z.pow_succ_r by lia. lia.
Qed.

Lemma length_decode_words (n : nat) (c : list Z) : length (decode_words n c) = n.
Proof. revert c. induction n as [| n IH]; intros c; cbn; [| rewrite IH]; reflexivity. Qed.

Lemma decode_words_ok (n : nat) (c : list Z) :
  bytes_ok c -> (4 * n <= length c)%nat -> Forall word_ok (decode_words n c).
Proof.
  revert c. induction n as [| n IH]; intros c Hok Hlen; cbn [decode_words].
  - constructor.
  - constructor.
    + assert (Hr := le_value_range (take 4 c)).
      specialize (Hr ltac:(apply Forall_take, Hok)).
      rewrite length_take_le in Hr by lia. exact Hr.
    + apply IH; [apply Forall_drop, Hok | rewrite length_drop; lia].
Qed.

Lemma sol_bytes_ext (n : nat) (i : Z) (s1 s2 : list Z) :
  (forall j, i <= j < i + Z.of_nat n -> word_at s1 j = word_at s2 j) ->
  sol_bytes n i s1 = sol_bytes n i s2.
Proof.
  revert i. induction n as [| n IH]; intros i Hext; cbn [sol_bytes]; [reflexivity |].
  rewrite (Hext i) by lia. f_equal. apply IH. intros j Hj. apply Hext. lia.
Qed.

Lemma word_at_cons (w : Z) (s : list Z) (i : Z) :
  0 <= i -> word_at (w :: s) (i + 1) = word_at s i.
Proof.
  intros Hi. unfold word_at.
  replace (Z.to_nat (i + 1)) with (S (Z.to_nat i)) by lia. reflexivity.
Qed.

Lemma sol_bytes_cons (n : nat) (i w : Z) (s : list Z) :
  0 <= i -> sol_bytes n (i + 1) (w :: s) = sol_bytes n i s.
Proof.
  revert i. induction n as [| n IH]; intros i Hi; cbn [sol_bytes]; [reflexivity |].
  rewrite word_at_cons by assumption. f_equal. apply IH. lia.
Qed.

Lemma sol_bytes_decode_words (n : nat) (c pad : list Z) :
  bytes_ok c -> (4 * n <= length c)%nat ->
  sol_bytes n 0 (decode_words n c ++ pad) = take (4 * n) c.
Proof.
  revert c. induction n as [| n IH]; intros c Hok Hlen; [reflexivity |].
  cbn [sol_bytes decode_words app].
  change (word_at (le_value (take 4 c) :: decode_words n (drop 4 c) ++ pad) 0)
    with (le_value (take 4 c)).
  replace (4 * S n)%nat with (4 + 4 * n)%nat by lia.
  rewrite take_add_slices. f_equal.
  - rewrite <- (le_bytes_le_value (take 4 c)) at 2 by (apply Forall_take, Hok).
    rewrite length_take_le by lia. reflexivity.
  - rewrite sol_bytes_cons by lia. apply IH.
    + apply Forall_drop, Hok.
    + rewrite length_drop. lia.
Qed.

Lemma header_of_bytes_wf (data : list Z) :
  bytes_ok data -> header_image_ok data -> header_wf (header_of_bytes data).
Proof.
  intros Hok (Hlen & Hs & Hsol).
  pose proof (bytes_ok_at data 160 Hok) as Hb. unfold is_byte in Hb.
  assert (Hslice : forall a b, bytes_ok (take a (drop b data)))
    by (intros a b; apply Forall_take, Forall_drop, Hok).
  unfold header_wf, header_of_bytes; cbn.
  repeat split; try lia.
  - apply (le_value_range (take 4 data)). apply Forall_take, Hok.
  - pose proof (le_value_range (take 4 data) ltac:(apply Forall_take, Hok)) as Hr.
    rewrite length_take_le in Hr by lia. exact (proj2 Hr).
  - rewrite length_take_le; [lia | rewrite length_drop; lia].
  - rewrite length_take_le; [lia | rewrite length_drop; lia].
  - rewrite length_take_le; [lia | rewrite length_drop; lia].
  - rewrite length_take_le; [lia | rewrite length_drop; lia].
  - apply (le_value_range _ (Hslice 8%nat 132%nat)).
  - pose proof (le_value_range _ (Hslice 8%nat 132%nat)) as Hr.
    rewrite length_take_le in Hr by (rewrite length_drop; lia). exact (proj2 Hr).
  - apply (le_value_range _ (Hslice 4%nat 140%nat)).
  - pose proof (le_value_range _ (Hslice 4%nat 140%nat)) as Hr.
    rewrite length_take_le in Hr by (rewrite length_drop; lia). exact (proj2 Hr).
  - rewrite length_take_le; [lia | rewrite length_drop; lia].
  - rewrite length_app, length_decode_words, length_replicate. lia.
  - apply Forall_app. split.
    + apply decode_words_ok; [apply Forall_drop, Hok | rewrite length_drop; lia].
    + apply Forall_replicate. unfold word_ok. lia.
Qed.

Lemma take_one_byte (data : list Z) (i : nat) :
  (i < length data)%nat -> take 1 (drop i data) = [byte_at data (Z.of_nat i)].
Proof.
  intros Hi. unfold byte_at. rewrite Nat2Z.id.
  destruct (data !! i) as [x |] eqn:E; [| apply lookup_ge_None in E; lia].
  rewrite (drop_S data x i E). reflexivity.
Qed.

Lemma header_of_bytes_image (data : list Z) :
  bytes_ok data -> header_image_ok data ->
  header_bytes (header_of_bytes data)
  = take (161 + 4 * Z.to_nat (byte_at data 160)) data.
Proof.
  intros Hok (Hlen & Hs & Hsol).
  pose proof (bytes_ok_at data 160 Hok) as Hb. unfold is_byte in Hb.
  assert (Hslice : forall a b, bytes_ok (take a (drop b data)))
    by (intros a b; apply Forall_take, Forall_drop, Hok).
  assert (Hle : forall a b, (a + b <= length data)%nat ->
            le_bytes a (le_value (take a (drop b data))) = take a (drop b data)).
  { intros a b Hab. rewrite <- (le_bytes_le_value _ (Hslice a b)) at 2.
    rewrite length_take_le by (rewrite length_drop; lia). reflexivity. }
  unfold header_bytes, header_of_bytes.
  cbn [version prev_block merkle_root witness_root trie_root time bits nonce
       sol_size sol].
  rewrite !take_take. cbn [Nat.min].
  change (take 4 data) with (take 4 (drop 0 data)).
  rewrite (Hle 4%nat 0%nat), (Hle 8%nat 132%nat), (Hle 4%nat 140%nat) by lia.
  replace (le_bytes 1 (byte_at data 160)) with (take 1 (drop 160 data)).
  2:{ rewrite (take_one_byte data 160) by lia. cbn.
      now rewrite Z.mod_small by lia. }
  rewrite sol_bytes_decode_words
    by (try apply Forall_drop; try rewrite length_drop; try assumption; lia).
  replace (161 + 4 * Z.to_nat (byte_at data 160))%nat
    with (4 + (32 + (32 + (32 + (32 + (8 + (4 + (16 + (1
            + 4 * Z.to_nat (byte_at data 160))))))))))%nat by lia.
  rewrite !take_add_slices, !drop_drop. reflexivity.
Qed.

Lemma read_le_inv (n : nat) (c : list Z) (v : Z) (c' : list Z) :
  read_le n c = Some (v, c') ->
  (n <= length c)%nat /\ v = le_value (take n c) /\ c' = drop n c.
Proof.
  unfold read_le, read_bytes. destruct (length c <? n)%nat eqn:E; [discriminate |].
  apply Nat.ltb_ge in E. intros [= <- <-]. auto.
Qed.

Lemma read_bytes_inv (n : nat) (c bs c' : list Z) :
  read_bytes c n = Some (bs, c') ->
  (n <= length c)%nat /\ bs = take n c /\ c' = drop n c.
Proof.
  unfold read_bytes. destruct (length c <? n)%nat eqn:E; [discriminate |].
  apply Nat.ltb_ge in E. intros [= <- <-]. auto.
Qed.

Lemma read_sol_loop_length (n i : nat) (c sol : list Z) :
  fst (fst (read_sol_loop n i c sol)) = true -> (4 * n <= length c)%nat.
Proof.
  revert i c sol. induction n as [| n IH]; intros i c sol; cbn [read_sol_loop]; [lia |].
  destruct (read_u32 c) as [[v c'] |] eqn:E; [| discriminate].
  apply read_le_inv in E. destruct E as (Hlen & _ & ->).
  intros Hrun. apply IH in Hrun. rewrite length_drop in Hrun. lia.
Qed.

(** A successful [hsk_header_read] saw a well-formed image. *)
Lemma hsk_header_read_accepted (data : list Z) (hdr0 : hsk_header_t) :
  fst (fst (hsk_header_read data hdr0)) = true -> header_image_ok data.
Proof.
  unfold hsk_header_read, read_u8, read_u32, read_u64.
  destruct (read_le 4 data) as [[v1 c1] |] eqn:E1; [| discriminate].
  apply read_le_inv in E1. destruct E1 as (L1 & _ & ->).
  destruct (read_bytes _ 32) as [[v2 c2] |] eqn:E2; [| discriminate].
  apply read_bytes_inv in E2. destruct E2 as (L2 & _ & ->).
  destruct (read_bytes _ 32) as [[v3 c3] |] eqn:E3; [| discriminate].
  apply read_bytes_inv in E3. destruct E3 as (L3 & _ & ->).
  destruct (read_bytes _ 32) as [[v4 c4] |] eqn:E4; [| discriminate].
  apply read_bytes_inv in E4. destruct E4 as (L4 & _ & ->).
  destruct (read_bytes _ 32) as [[v5 c5] |] eqn:E5; [| discriminate].
  apply read_bytes_inv in E5. destruct E5 as (L5 & _ & ->).
  destruct (read_le 8 _) as [[v6 c6] |] eqn:E6; [| discriminate].
  apply read_le_inv in E6. destruct E6 as (L6 & _ & ->).
  destruct (read_le 4 _) as [[v7 c7] |] eqn:E7; [| discriminate].
  apply read_le_inv in E7. destruct E7 as (L7 & _ & ->).
  destruct (read_bytes _ 16) as [[v8 c8] |] eqn:E8; [| discriminate].
  apply read_bytes_inv in E8. destruct E8 as (L8 & _ & ->).
  destruct (read_le 1 _) as [[v9 c9] |] eqn:E9; [| discriminate].
  apply read_le_inv in E9. destruct E9 as (L9 & -> & ->).
  rewrite !drop_drop in *. rewrite !length_drop in *.
  cbn [Nat.add] in *.
  rewrite (take_one_byte data 160) by lia.
  change (Z.of_nat 160) with 160.
  cbn [set_sol_size sol_size sol le_value].
  replace (byte_at data 160 + 256 * 0) with (byte_at data 160) by lia.
  destruct (byte_at data 160 >? 42) eqn:Es; [discriminate |].
  rewrite Z.gtb_ltb in Es. apply Z.ltb_ge in Es.
  unfold read_sol.
  destruct (read_sol_loop _ 0 _ _) as [[ok c] s] eqn:Er. cbn [fst].
  intros ->.
  pose proof (read_sol_loop_length _ _ _ _ ltac:(rewrite Er; reflexivity)) as Hl.
  rewrite length_drop in Hl. unfold header_image_ok. lia.
Qed.

Lemma word_at_take (n : nat) (s1 s2 : list Z) (j : Z) :
  take n s1 = take n s2 -> 0 <= j < Z.of_nat n -> word_at s1 j = word_at s2 j.
Proof.
  intros Ht Hj. unfold word_at.
  rewrite <- (lookup_take_lt s1 n (Z.to_nat j)) by lia.
  rewrite <- (lookup_take_lt s2 n (Z.to_nat j)) by lia.
  now rewrite Ht.
Qed.

(** Reading a well-formed image: the cursor ends after [161 + 4 * sol_size]
    bytes and the header read serializes to the bytes consumed. *)
Lemma hsk_header_read_image (data : list Z) (hdr0 : hsk_header_t) :
  bytes_ok data -> header_image_ok data -> length (sol hdr0) = 42%nat ->
  let n := (161 + 4 * Z.to_nat (byte_at data 160))%nat in
  exists hdr',
    hsk_header_read data hdr0 = (true, drop n data, hdr')
    /\ sol_size hdr' = byte_at data 160
    /\ header_bytes hdr' = take n data.
Proof.
  intros Hok Himg Hdst n.
  pose proof (header_of_bytes_wf data Hok Himg) as Hwf.
  pose proof (header_of_bytes_image data Hok Himg) as Hbytes. fold n in Hbytes.
  destruct Himg as (Hlen & Hs & Hsol).
  destruct (hsk_header_read_written (header_of_bytes data) hdr0 (drop n data)
              Hwf Hs Hdst) as (s' & Hrun & Hsol').
  rewrite Hbytes, take_drop in Hrun.
  eexists. split; [exact Hrun |]. split; [reflexivity |].
  rewrite <- Hbytes. unfold header_bytes.
  cbn [version prev_block merkle_root witness_root trie_root time bits nonce
       sol_size sol].
  do 9 f_equal. apply sol_bytes_ext. intros j Hj.
  apply (word_at_take _ _ _ _ Hsol').
  change (sol_size (header_of_bytes data)) with (byte_at data 160) in *.
  pose proof (bytes_ok_at data 160 Hok) as Hb. unfold is_byte in Hb. lia.
Qed.

(** X5: [hsk_header_decode] accepts a byte string exactly when it holds the
    161 fixed bytes, its byte 160 (sol_size) is at most 42 and the
    4 * sol_size bytes of the solution follow; trailing bytes are ignored. *)
Theorem header_decode_accepts (data : list Z) (hdr0 : hsk_header_t) :
  bytes_ok data -> length (sol hdr0) = 42%nat ->
  (fst (hsk_header_decode data hdr0) = true <-> header_image_ok data).
Proof.
  intros Hok Hdst. unfold hsk_header_decode. split.
  - intros Hrun. apply (hsk_header_read_accepted data hdr0).
    destruct (hsk_header_read data hdr0) as [[ok c] h]. exact Hrun.
  - intros Himg.
    destruct (hsk_header_read_image data hdr0 Hok Himg Hdst) as (h & -> & _).
    reflexivity.
Qed.

Lemma header_decode_accepts_witness :
  fst (hsk_header_decode (header_bytes sample_header ++ [1; 2; 3]) hsk_header_init)
  = true <-> header_image_ok (header_bytes sample_header ++ [1; 2; 3]).
Proof.
  apply (header_decode_accepts (header_bytes sample_header ++ [1; 2; 3])
           hsk_header_init).
  - apply bytes_okb_ok. vm_compute. reflexivity.
  - reflexivity.
Defined.

(** X6: when [hsk_header_read] succeeds it has consumed exactly
    [161 + 4 * sol_size] bytes, and [hsk_encode_header] on the header it
    filled in gives back that count and exactly the bytes consumed. *)
Theorem header_encode_decode (data : list Z) (hdr0 : hsk_header_t) :
  bytes_ok data -> length (sol hdr0) = 42%nat ->
  fst (fst (hsk_header_read data hdr0)) = true ->
  let n := (161 + 4 * Z.to_nat (byte_at data 160))%nat in
  snd (fst (hsk_header_read data hdr0)) = drop n data
  /\ hsk_encode_header (snd (hsk_header_read data hdr0))
     = (Z.of_nat n, take n data).
Proof.
  intros Hok Hdst Hrun n.
  pose proof (hsk_header_read_accepted data hdr0 Hrun) as Himg.
  destruct (hsk_header_read_image data hdr0 Hok Himg Hdst) as (h & -> & Hs & Hb).
  cbn [fst snd]. split; [reflexivity |].
  unfold hsk_encode_header. rewrite hsk_header_write_some.
  cbn [default from_option id app]. fold n in Hb. rewrite Hb, Hs.
  f_equal. rewrite Z.shiftl_mul_pow2 by lia.
  pose proof (bytes_ok_at data 160 Hok) as Hbyte. unfold is_byte in Hbyte.
  subst n. change (2 ^ 2) with 4. lia.
Qed.

Lemma header_encode_decode_witness :
  let data := header_bytes sample_header ++ [1; 2; 3] in
  let n := (161 + 4 * Z.to_nat (byte_at data 160))%nat in
  snd (fst (hsk_header_read data hsk_header_init)) = drop n data
  /\ hsk_encode_header (snd (hsk_header_read data hsk_header_init))
     = (Z.of_nat n, take n data).
Proof.
  apply (header_encode_decode (header_bytes sample_header ++ [1; 2; 3])
           hsk_header_init).
  - apply bytes_okb_ok. vm_compute. reflexivity.
  - reflexivity.
  - vm_compute. reflexivity.
Defined.

(** ** The pre-image and the digests *)

Lemma hsk_header_write_pre_some (h : hsk_header_t) (buf : list Z) :
  hsk_header_write_pre h (Some buf)
  = (160, Some (buf ++ le_bytes 4 (version h) ++ take 32 (prev_block h)
                 ++ take 32 (merkle_root h) ++ take 32 (witness_root h)
                 ++ take 32 (trie_root h) ++ le_bytes 8 (time h)
                 ++ le_bytes 4 (bits h) ++ take 16 (nonce h))).
Proof.
  unfold hsk_header_write_pre, write_u32, write_u64, write_le, write_bytes.
  cbn [fmap option_fmap option_map]. rewrite <- !app_assoc. reflexivity.
Qed.

Lemma encode_sol_bytes (s : list Z) (n : Z) :
  encode_sol s n = sol_bytes (Z.to_nat n) 0 s.
Proof.
  unfold encode_sol, write_sol. cbn [snd].
  rewrite write_sol_loop_some. reflexivity.
Qed.

(** X7: the serialization without a sink counts 160 bytes for the pre-image
    whatever the header holds, and the full serialization is the pre-image,
    then the sol_size byte, then the solution words as [encode_sol] writes
    them; its count is the pre-image's plus 1 plus 4 * sol_size. *)
Theorem header_encoding_split (h : hsk_header_t) :
  hsk_header_size_pre h = 160
  /\ snd (hsk_encode_header h)
     = hsk_header_encode_pre h ++ le_bytes 1 (sol_size h)
       ++ encode_sol (sol h) (sol_size h)
  /\ fst (hsk_encode_header h)
     = hsk_header_size_pre h + 1 + Z.shiftl (sol_size h) 2.
Proof.
  assert (Hsize : hsk_header_size_pre h = 160) by reflexivity.
  split; [exact Hsize |]. rewrite Hsize.
  unfold hsk_encode_header, hsk_header_encode_pre.
  rewrite hsk_header_write_some, hsk_header_write_pre_some, encode_sol_bytes.
  cbn [fst snd default from_option id app]. split; [| lia].
  unfold header_bytes. rewrite <- !app_assoc. reflexivity.
Qed.

Lemma hsk_header_read_keeps (data : list Z) (hdr0 : hsk_header_t) :
  let hdr := snd (hsk_header_read data hdr0) in
  cache hdr = cache hdr0 /\ hash hdr = hash hdr0
  /\ height hdr = height hdr0 /\ work hdr = work hdr0.
Proof.
  unfold hsk_header_read.
  repeat match goal with
  | |- context [match ?x with Some _ => _ | None => _ end] =>
      destruct x as [[? ?] |]; [| cbn; auto]
  end.
  destruct (_ >? 42); [cbn; auto |].
  destruct (read_sol _ _ _) as [[ok c'] s']. cbn. auto.
Qed.

Section digests_facts.
Context `{Blake2b}.

(** X8: [hsk_header_cache] on a header that [hsk_header_read] filled in
    from [data], starting from a header whose cache flag is clear, returns
    the digest of exactly the [161 + 4 * sol_size] bytes consumed; a second
    call returns the same digest and leaves the header as it is; and
    [hsk_header_hash] copies out the first 32 bytes of that digest. *)
Theorem header_cache_of_decoded (data : list Z) (hdr0 : hsk_header_t) :
  bytes_ok data -> length (sol hdr0) = 42%nat -> cache hdr0 = false ->
  fst (fst (hsk_header_read data hdr0)) = true ->
  let n := (161 + 4 * Z.to_nat (byte_at data 160))%nat in
  let hdr := snd (hsk_header_read data hdr0) in
  let hdr' := snd (hsk_header_cache hdr) in
  fst (hsk_header_cache hdr) = hsk_hash_blake2b (take n data)
  /\ hsk_header_cache hdr' = (hsk_hash_blake2b (take n data), hdr')
  /\ fst (hsk_header_hash hdr) = take 32 (hsk_hash_blake2b (take n data)).
Proof.
  intros Hok Hdst Hc Hrun n hdr hdr'.
  pose proof (hsk_header_read_accepted data hdr0 Hrun) as Himg.
  destruct (hsk_header_read_keeps data hdr0) as (Hcache & _). fold hdr in Hcache.
  destruct (hsk_header_read_image data hdr0 Hok Himg Hdst) as (h & Hread & _ & Hb).
  assert (Hraw : snd (hsk_encode_header hdr) = take n data).
  { subst hdr. rewrite Hread. cbn [snd]. unfold hsk_encode_header.
    rewrite hsk_header_write_some. cbn [snd default from_option id app].
    exact Hb. }
  assert (Hfirst : hsk_header_cache hdr
                   = (hsk_hash_blake2b (take n data),
                      set_cache (set_hash hdr (hsk_hash_blake2b (take n data))) true)).
  { unfold hsk_header_cache. rewrite Hcache, Hc, Hraw. reflexivity. }
  subst hdr'. unfold hsk_header_hash. rewrite Hfirst. cbn [fst snd].
  repeat split; reflexivity.
Qed.

(** X9: on every path, [hsk_header_read] leaves the cache flag, the stored
    hash, the height and the work of the header it fills in as they were; so
    reading into a header whose cache flag is set makes [hsk_header_cache]
    return the hash stored before, whatever bytes were read. *)
Theorem header_read_keeps_cache (data : list Z) (hdr0 : hsk_header_t) :
  let hdr := snd (hsk_header_read data hdr0) in
  cache hdr = cache hdr0 /\ hash hdr = hash hdr0
  /\ height hdr = height hdr0 /\ work hdr = work hdr0
  /\ (cache hdr0 = true -> hsk_header_cache hdr = (hash hdr0, hdr)).
Proof.
  intros hdr.
  destruct (hsk_header_read_keeps data hdr0) as (Hc & Hh & Hht & Hw).
  fold hdr in Hc, Hh, Hht, Hw.
  repeat (split; [assumption |]).
  intros Hset. unfold hsk_header_cache. rewrite Hc, Hset, Hh. reflexivity.
Qed.
End digests_facts.

Lemma header_cache_of_decoded_witness :
  let data := header_bytes sample_header ++ [1; 2; 3] in
  let n := (161 + 4 * Z.to_nat (byte_at data 160))%nat in
  let hdr := snd (hsk_header_read data hsk_header_init) in
  let hdr' := snd (@hsk_header_cache const_hash hdr) in
  fst (@hsk_header_cache const_hash hdr) = const_hash (take n data)
  /\ @hsk_header_cache const_hash hdr' = (const_hash (take n data), hdr')
  /\ fst (@hsk_header_hash const_hash hdr) = take 32 (const_hash (take n data)).
Proof.
  apply (@header_cache_of_decoded const_hash
           (header_bytes sample_header ++ [1; 2; 3]) hsk_header_init).
  - apply bytes_okb_ok. vm_compute. reflexivity.
  - reflexivity.
  - reflexivity.
  - vm_compute. reflexivity.
Defined.

(** ** The reverse compare as a comparison of numbers *)

Lemma le_value_snoc (l : list Z) (x : Z) :
  le_value (l ++ [x]) = le_value l + 256 ^ Z.of_nat (length l) * x.
Proof.
  induction l as [| b l IH]; [cbn; lia |].
  cbn [app le_value length]. rewrite IH, Nat2Z.inj_succ, Z.pow_succ_r by lia. lia.
Qed.

Lemma be_value_range (l : list Z) :
  bytes_ok l -> 0 <= be_value l < 256 ^ Z.of_nat (length l).
Proof.
  intros Hok. pose proof (le_value_range (rev l) ltac:(apply Forall_rev, Hok)) as Hr.
  rewrite length_rev, <- be_value_rev, rev_involutive in Hr. exact Hr.
Qed.

Lemma be_value_cons (y : Z) (l : list Z) :
  be_value (y :: l) = y * 256 ^ Z.of_nat (length l) + be_value l.
Proof. apply (be_value_app [y] l). Qed.

Lemma rcmp_loop_sgn (n : nat) (a b : list Z) (j : nat) :
  bytes_ok a -> bytes_ok b -> (n <= length a)%nat -> (j + n <= length b)%nat ->
  rcmp_loop a b n (Z.of_nat j)
  = Z.sgn (le_value (take n a) - be_value (take n (drop j b))).
Proof.
  intros Ha Hb. revert j. induction n as [| i IH]; intros j Hla Hlb.
  - rewrite !take_0. reflexivity.
  - cbn [rcmp_loop].
    destruct (a !! i) as [x |] eqn:Ex; [| apply lookup_ge_None in Ex; lia].
    destruct (b !! j) as [y |] eqn:Ey; [| apply lookup_ge_None in Ey; lia].
    assert (Hx : byte_at a (Z.of_nat i) = x)
      by (unfold byte_at; rewrite Nat2Z.id, Ex; reflexivity).
    assert (Hy : byte_at b (Z.of_nat j) = y)
      by (unfold byte_at; rewrite Nat2Z.id, Ey; reflexivity).
    rewrite Hx, Hy.
    rewrite (take_S_r a i x Ex), le_value_snoc.
    rewrite (drop_S b y j Ey). cbn [take]. rewrite be_value_cons.
    pose proof (le_value_range (take i a) ltac:(apply Forall_take, Ha)) as Hra.
    pose proof (be_value_range (take i (drop (S j) b))
                  ltac:(apply Forall_take, Forall_drop, Hb)) as Hrb.
    rewrite length_take_le in Hra |- * by lia.
    rewrite length_take_le in Hrb |- * by (rewrite length_drop; lia).
    pose proof (Forall_lookup_1 _ _ _ _ Ha Ex) as Bx.
    pose proof (Forall_lookup_1 _ _ _ _ Hb Ey) as By.
    unfold is_byte in Bx, By.
    set (P := 256 ^ Z.of_nat i) in *.
    destruct (x <? y) eqn:Elt.
    { apply Z.ltb_lt in Elt. symmetry. apply Z.sgn_neg. nia. }
    apply Z.ltb_ge in Elt.
    destruct (x >? y) eqn:Egt.
    { rewrite Z.gtb_ltb in Egt. apply Z.ltb_lt in Egt.
      symmetry. apply Z.sgn_pos. nia. }
    rewrite Z.gtb_ltb in Egt. apply Z.ltb_ge in Egt.
    assert (x = y) by lia. subst y.
    replace (Z.of_nat j + 1) with (Z.of_nat (S j)) by lia.
    rewrite IH by lia. f_equal. lia.
Qed.

(** X10: on two byte arrays of [size] bytes, [rcmp] compares the number
    that [a] spells least significant byte first with the number that [b]
    spells most significant byte first: it returns -1, 0 or 1 as the first
    is smaller than, equal to or greater than the second. *)
Theorem rcmp_compares_numbers (a b : list Z) (size : nat) :
  bytes_ok a -> bytes_ok b -> length a = size -> length b = size ->
  rcmp a b size = Z.sgn (le_value a - be_value b).
Proof.
  intros Ha Hb Hla Hlb. unfold rcmp.
  change 0 with (Z.of_nat 0) at 1.
  rewrite (rcmp_loop_sgn size a b 0 Ha Hb) by lia.
  rewrite drop_0, !take_ge by lia. reflexivity.
Qed.

Lemma rcmp_compares_numbers_witness :
  rcmp [0x34; 0x12] [0x12; 0x35] 2 = Z.sgn (le_value [0x34; 0x12] - be_value [0x12; 0x35]).
Proof.
  apply (rcmp_compares_numbers [0x34; 0x12] [0x12; 0x35] 2).
  - apply bytes_okb_ok. reflexivity.
  - apply bytes_okb_ok. reflexivity.
  - reflexivity.
  - reflexivity.
Defined.

(** ** What the proof-of-work check compares *)

Section pow_number.
Context `{Blake2b, Cuckoo}.

(** X11: when [bits] stands for a number below [2^256] (non-zero, clear
    sign bit, exponent at most 34) and the digest of the solution is 32
    bytes, [hsk_header_verify_pow] returns [HSK_HIGHHASH] when the digest,
    read as a little-endian number, is greater than the number [bits] stands
    for, and hands over to the Cuckoo verifier when it is not. *)
Theorem verify_pow_number (hdr : hsk_header_t) :
  let solhash := hsk_header_hash_sol hdr in
  bits hdr <> 0 -> Z.land (Z.shiftr (bits hdr) 23) 1 = 0 ->
  0 <= Z.shiftr (bits hdr) 24 <= 34 -> compact_value (bits hdr) < 2 ^ 256 ->
  bytes_ok solhash -> length solhash = 32%nat ->
  (compact_value (bits hdr) < le_value solhash ->
   hsk_header_verify_pow hdr = HSK_HIGHHASH)
  /\ (le_value solhash <= compact_value (bits hdr) ->
      hsk_header_verify_pow hdr
      = hsk_cuckoo_verify_header (hsk_header_encode_pre hdr) (sol hdr) (sol_size hdr)).
Proof.
  intros solhash Hnz Hsign He Hfit Hok Hlen.
  destruct (pow_to_target_number (bits hdr) Hnz Hsign He) as [Hacc Hval].
  destruct (pow_to_target_bytes (bits hdr)) as [Htok Htlen].
  apply Hacc in Hfit as Hyes. specialize (Hval Hfit).
  unfold hsk_header_verify_pow. fold (hsk_header_hash_sol hdr). fold solhash.
  destruct (hsk_pow_to_target (bits hdr)) as [ok target]. cbn [fst snd] in *.
  subst ok. cbn [negb]. unfold rcmp. change 0 with (Z.of_nat 0) at 1 3.
  rewrite (rcmp_loop_sgn 32 solhash target 0 Hok Htok) by lia.
  rewrite drop_0, !take_ge, Hval by lia.
  split; intros Hcmp.
  - rewrite Z.sgn_pos by lia. reflexivity.
  - destruct (Z.sgn_spec (le_value solhash - compact_value (bits hdr)))
      as [[? ->] | [[? ->] | [? ->]]]; [lia | reflexivity | reflexivity].
Qed.
End pow_number.

Lemma verify_pow_number_witness :
  let solhash := @hsk_header_hash_sol const_hash sample_header in
  (compact_value (bits sample_header) < le_value solhash ->
   @hsk_header_verify_pow const_hash const_cuckoo sample_header = 16)
  /\ (le_value solhash <= compact_value (bits sample_header) ->
      @hsk_header_verify_pow const_hash const_cuckoo sample_header = 0).
Proof.
  apply (@verify_pow_number const_hash const_cuckoo sample_header).
  - discriminate.
  - reflexivity.
  - vm_compute. split; discriminate.
  - vm_compute. reflexivity.
  - apply bytes_okb_ok. reflexivity.
  - reflexivity.
Defined.

(** ** Nibbles *)

Lemma nibble_split (b : Z) :
  is_byte b ->
  0 <= Z.shiftr b 4 < 16 /\ 0 <= Z.land b 0x0f < 16
  /\ b = 16 * Z.shiftr b 4 + Z.land b 0x0f.
Proof.
  unfold is_byte. intros Hb.
  rewrite Z.shiftr_div_pow2 by lia.
  change 0x0f with (Z.ones 4). rewrite Z.land_ones by lia.
  change (2 ^ 4) with 16. Z.div_mod_to_equations. lia.
Qed.

Lemma nibbles_loop_lookup (n : nat) (data : list Z) (i : Z) (j : nat) :
  (j < n)%nat ->
  nibbles_loop n data i !! (2 * j)%nat = Some (Z.shiftr (byte_at data (i + Z.of_nat j)) 4)
  /\ nibbles_loop n data i !! (2 * j + 1)%nat
     = Some (Z.land (byte_at data (i + Z.of_nat j)) 0x0f).
Proof.
  revert i j. induction n as [| n IH]; intros i j Hj; [lia |].
  cbn [nibbles_loop]. destruct j as [| j].
  - cbn. rewrite Z.add_0_r. auto.
  - replace (2 * S j)%nat with (S (S (2 * j))) by lia.
    replace (S (S (2 * j)) + 1)%nat with (S (S (2 * j + 1))) by lia.
    cbn [lookup list_lookup].
    destruct (IH (i + 1) j ltac:(lia)) as [H1 H2].
    replace (i + Z.of_nat (S j)) with (i + 1 + Z.of_nat j) by lia. auto.
Qed.

Lemma nibbles_loop_ok (n : nat) (data : list Z) (i : Z) :
  bytes_ok data -> Forall (fun x => 0 <= x < 16) (nibbles_loop n data i).
Proof.
  intros Hok. revert i. induction n as [| n IH]; intros i; cbn [nibbles_loop].
  - constructor.
  - destruct (nibble_split _ (bytes_ok_at data i Hok)) as (Hhi & Hlo & _).
    repeat constructor; try lia. apply IH.
Qed.



(** ** Length-prefixed byte strings *)

(** What [read_varint] can return on bytes: a failure is [HSK_EENCODING]
    with both outputs 0; a success consumed 1, 3 or 5 bytes that were
    there and its value is in the range of its form. *)
Lemma read_varint_outcome (data : list Z) :
  bytes_ok data ->
  match read_varint data with
  | (HSK_SUCCESS, size, v) =>
      size <= Z.of_nat (length data)
      /\ ((size = 1 /\ 0 <= v < 0xfd) \/ (size = 3 /\ 0xfd <= v < 2 ^ 16)
          \/ (size = 5 /\ 2 ^ 16 <= v < 2 ^ 31))
  | (rc, size, v) => rc = HSK_EENCODING /\ size = 0 /\ v = 0
  end.
Proof.
  intros Hok. unfold read_varint.
  destruct (Z.of_nat (length data) =? 0) eqn:E0; [auto |].
  apply Z.eqb_neq in E0.
  pose proof (bytes_ok_at data 0 Hok) as H0.
  pose proof (bytes_ok_at data 1 Hok) as H1.
  pose proof (bytes_ok_at data 2 Hok) as H2.
  pose proof (bytes_ok_at data 3 Hok) as H3.
  pose proof (bytes_ok_at data 4 Hok) as H4.
  destruct (byte_at data 0 =? 0xff) eqn:Eff; [auto |]. apply Z.eqb_neq in Eff.
  destruct (byte_at data 0 =? 0xfe) eqn:Efe.
  { destruct (Z.of_nat (length data) <? 5) eqn:E5; [auto |]. apply Z.ltb_ge in E5.
    cbv zeta.
    destruct (Z_lt_ge_dec (byte_at data 4) 128) as [Hs | Hs].
    - rewrite (varint_fe_value _ _ _ _ H1 H2 H3 H4 Hs).
      destruct (_ <=? 0xffff) eqn:Ev; [auto |]. apply Z.leb_gt in Ev.
      split; [lia |]. right. right. split; [reflexivity |].
      unfold is_byte in *. cbn [le_value] in *. lia.
    - set (v := Z.lor _ _).
      assert (Hneg : v < 0).
      { subst v. apply Z.lor_neg. left. apply Z.lor_neg. left.
        apply Z.lor_neg. left. apply Z.lor_neg. right.
        unfold is_byte in H4. unfold i32.
        rewrite Z.shiftl_mul_pow2 by lia. pow2_consts.
        Z.div_mod_to_equations. lia. }
      replace (v <=? 0xffff) with true by (symmetry; apply Z.leb_le; lia).
      auto. }
  destruct (byte_at data 0 =? 0xfd) eqn:Efd.
  { destruct (Z.of_nat (length data) <? 3) eqn:E3; [auto |]. apply Z.ltb_ge in E3.
    cbv zeta. rewrite (varint_fd_value _ _ H1 H2).
    destruct (_ <? 0xfd) eqn:Ev; [auto |]. apply Z.ltb_ge in Ev.
    split; [lia |]. right. left. split; [reflexivity |].
    unfold is_byte in *. cbn [le_value] in *. lia. }
  apply Z.eqb_neq in Efe, Efd. unfold is_byte in H0.
  split; [lia |]. left. split; [reflexivity | lia].
Qed.

Lemma read_varbytes_cases (data : list Z) (light : bool) :
  bytes_ok data ->
  match read_varbytes data light with
  | (HSK_SUCCESS, out, out_len, varlen) =>
      (varlen = 1 \/ varlen = 3 \/ varlen = 5)
      /\ 0 <= out_len < 2 ^ 31
      /\ varlen + out_len <= Z.of_nat (length data)
      /\ out = take (Z.to_nat out_len) (drop (Z.to_nat varlen) data)
      /\ Z.of_nat (length out) = out_len
  | (rc, out, out_len, varlen) =>
      rc = HSK_EENCODING /\ out = [] /\ out_len = 0 /\ varlen = 0
  end.
Proof.
  intros Hok. pose proof (read_varint_outcome data Hok) as Hv.
  unfold read_varbytes.
  destruct (read_varint data) as [[rc size] v].
  destruct rc; try (destruct Hv as (Hrc & _ & _); discriminate Hrc);
    try (repeat split; reflexivity).
  destruct Hv as (Hsize & Hform).
  assert (Hrange : 1 <= size <= 5 /\ 0 <= v < 2 ^ 31)
    by (change (2 ^ 16) with 65536 in Hform; change (2 ^ 31) with 2147483648 in *; lia).
  unfold to_size_t. rewrite (Z.mod_small v) by (change (2 ^ 64) with (2 ^ 31 * 2 ^ 33); lia).
  destruct (_ <? v) eqn:Elen; [repeat split; reflexivity |].
  apply Z.ltb_ge in Elen.
  split; [lia |]. split; [lia |]. split; [lia |]. split; [reflexivity |].
  rewrite length_take_le by (rewrite length_drop; lia). lia.
Qed.

(** X13: on bytes, [read_varbytes] fails only with [HSK_EENCODING], leaving
    its three outputs cleared; when it succeeds, the prefix is 1, 3 or 5
    bytes, the length is not negative, prefix and payload together lie
    within the [data_len] bytes given, and [out] is the payload right
    after the prefix. *)
Theorem read_varbytes_bounds (data : list Z) (light : bool) :
  bytes_ok data ->
  match read_varbytes data light with
  | (HSK_SUCCESS, out, out_len, varlen) =>
      (varlen = 1 \/ varlen = 3 \/ varlen = 5)
      /\ 0 <= out_len < 2 ^ 31
      /\ varlen + out_len <= Z.of_nat (length data)
      /\ out = take (Z.to_nat out_len) (drop (Z.to_nat varlen) data)
      /\ Z.of_nat (length out) = out_len
  | (rc, out, out_len, varlen) =>
      rc = HSK_EENCODING /\ out = [] /\ out_len = 0 /\ varlen = 0
  end.
Proof. exact (read_varbytes_cases data light). Qed.

Lemma read_varbytes_bounds_witness :
  match read_varbytes [3; 1; 2; 3; 9] true with
  | (HSK_SUCCESS, out, out_len, varlen) =>
      (varlen = 1 \/ varlen = 3 \/ varlen = 5)
      /\ 0 <= out_len < 2 ^ 31
      /\ varlen + out_len <= Z.of_nat (length [3; 1; 2; 3; 9])
      /\ out = take (Z.to_nat out_len) (drop (Z.to_nat varlen) [3; 1; 2; 3; 9])
      /\ Z.of_nat (length out) = out_len
  | (rc, out, out_len, varlen) =>
      rc = HSK_EENCODING /\ out = [] /\ out_len = 0 /\ varlen = 0
  end.
Proof.
  apply (read_varbytes_bounds [3; 1; 2; 3; 9] true).
  apply bytes_okb_ok. reflexivity.
Defined.

(** ** Parsed nodes *)

Lemma node_wf_full (cs : list hsk_node) :
  node_wf (FullNode cs) <-> length cs = 17%nat /\ Forall node_wf cs.
Proof.
  cbn [node_wf].
  assert (Hall : forall l,
            (fix all (l : list hsk_node) : Prop :=
               match l with
               | [] => True
               | c :: l' => node_wf c /\ all l'
               end) l <-> Forall node_wf l).
  { induction l as [| c l IH]; [split; [constructor | trivial] |].
    rewrite Forall_cons, IH. reflexivity. }
  rewrite Hall. reflexivity.
Qed.

Lemma suffix_drop_of {A} (n : nat) (l : list A) : drop n l `suffix_of` l.
Proof. exists (take n l). symmetry. apply take_drop. Qed.

Lemma bytes_ok_suffix (l1 l2 : list Z) :
  l1 `suffix_of` l2 -> bytes_ok l2 -> bytes_ok l1.
Proof. intros [k ->] Hok. apply Forall_app in Hok. tauto. Qed.

Lemma decompress_loop_keeps (P : Z -> Prop) (n : nat) (nib : list Z) (i pos : nat) :
  P 0 -> Forall P nib -> Forall P (decompress_loop n nib i pos).
Proof.
  intros H0. revert nib i. induction n as [| n IH]; intros nib i Hnib; [exact Hnib |].
  cbn [decompress_loop]. apply IH. apply Forall_insert; [exact Hnib |].
  destruct (nib !! i) as [x |] eqn:E; [| exact H0].
  exact (Forall_lookup_1 _ _ _ _ Hnib E).
Qed.

Lemma to_nibbles_ok (data : list Z) (n : nat) :
  bytes_ok data -> Forall (fun x => 0 <= x <= 16) (to_nibbles data n).
Proof.
  intros Hok. unfold to_nibbles. apply Forall_app. split.
  - eapply Forall_impl; [apply nibbles_loop_ok, Hok |]. cbn. intros x Hx. lia.
  - repeat constructor; lia.
Qed.

(** [decompress] never fails, and the key it leaves holds half-bytes and
    terminators only. *)
Lemma decompress_key_ok (data : list Z) :
  bytes_ok data ->
  exists dec dec_len,
    decompress data = (HSK_SUCCESS, dec, dec_len)
    /\ Forall (fun x => 0 <= x <= 16) (take (Z.to_nat dec_len) dec).
Proof.
  intros Hok. unfold decompress.
  destruct (length data =? 0)%nat.
  - do 2 eexists. split; [reflexivity |]. cbn. constructor.
  - do 2 eexists. split; [reflexivity |].
    apply Forall_take, decompress_loop_keeps; [lia |].
    apply to_nibbles_ok, Hok.
Qed.

Section parser_facts.
Context `{NodeTags}.

Lemma parse_children_sound parse :
  parse_sound parse ->
  forall n data acc rc node rest,
    bytes_ok data -> Forall node_wf acc ->
    parse_children parse n data acc = Some (rc, node, rest) ->
    parse_code rc
    /\ (rc = HSK_SUCCESS ->
        (exists cs, node = FullNode cs /\ length cs = (length acc + n)%nat
                    /\ Forall node_wf cs)
        /\ rest `suffix_of` data).
Proof.
  intros Hparse. induction n as [| n IH]; intros data acc rc node rest Hok Hacc;
    cbn [parse_children].
  - intros [= <- <- <-]. split; [left; reflexivity |]. intros _. split; [| reflexivity].
    exists (rev acc). split; [reflexivity |].
    split; [rewrite length_rev; lia | apply Forall_rev, Hacc].
  - destruct (parse data) as [[[rc1 child] rest1] |] eqn:Ep; [| discriminate].
    destruct (Hparse _ _ _ _ Hok Ep) as [Hcode Hgood].
    destruct rc1;
      try (intros [= <- <- <-]; split; [exact Hcode | discriminate]).
    destruct (Hgood eq_refl) as [Hwf Hsuf].
    intros Hrun.
    destruct (IH rest1 (child :: acc) rc node rest) as [Hc Hs];
      [eapply bytes_ok_suffix; eassumption | constructor; assumption | exact Hrun |].
    split; [exact Hc |]. intros Hrc. destruct (Hs Hrc) as [(cs & -> & Hlen & Hcs) Hsuf'].
    split.
    + exists cs. split; [reflexivity |]. split; [cbn [length] in Hlen; lia | exact Hcs].
    + etransitivity; eassumption.
Qed.

Lemma parse_node_sound (fuel : nat) : parse_sound (parse_node fuel).
Proof.
  induction fuel as [| fuel IH]; intros data rc node rest Hok; [discriminate |].
  cbn [parse_node].
  destruct data as [| type data];
    [intros [= <- <- <-]; split; [right; left; reflexivity | discriminate] |].
  apply bytes_ok_cons in Hok. destruct Hok as [_ Hok].
  assert (Hcons : forall l, l `suffix_of` data -> l `suffix_of` type :: data)
    by (intros l Hl; apply suffix_cons_r, Hl).
  destruct (type =? HSK_NULLNODE).
  { intros [= <- <- <-]. split; [left; reflexivity |]. intros _.
    split; [exact I | apply Hcons; reflexivity]. }
  destruct (type =? HSK_HASHNODE).
  { destruct (length data <? 32)%nat eqn:E.
    - intros [= <- <- <-]. split; [right; left; reflexivity | discriminate].
    - apply Nat.ltb_ge in E. intros [= <- <- <-]. split; [left; reflexivity |].
      intros _. split; [cbn; apply length_take_le; lia | apply Hcons, suffix_drop_of]. }
  destruct (type =? HSK_SHORTNODE).
  { pose proof (read_varbytes_cases data true Hok) as Hv.
    destruct (read_varbytes data true) as [[[rc1 out] out_len] varlen].
    destruct rc1;
      try (destruct Hv as [Hv _]; discriminate Hv);
      try (intros [= <- <- <-]; split; [right; right; reflexivity | discriminate]).
    destruct Hv as (_ & _ & _ & -> & _).
    destruct (decompress_key_ok (take (Z.to_nat out_len) (drop (Z.to_nat varlen) data)))
      as (dec & dec_len & -> & Hkey);
      [apply Forall_take, Forall_drop, Hok |].
    destruct (parse_node fuel _) as [[[rc2 value] rest2] |] eqn:Ep; [| discriminate].
    destruct (IH _ _ _ _ ltac:(apply Forall_drop, Forall_drop, Hok) Ep) as [Hcode Hgood].
    destruct rc2;
      try (intros [= <- <- <-]; split; [exact Hcode | discriminate]).
    destruct (Hgood eq_refl) as [Hwf Hsuf].
    intros [= <- <- <-]. split; [left; reflexivity |]. intros _.
    split; [cbn; auto |].
    apply Hcons. etransitivity; [exact Hsuf |].
    etransitivity; apply suffix_drop_of. }
  destruct (type =? HSK_FULLNODE).
  { intros Hrun.
    destruct (parse_children_sound (parse_node fuel) IH 17 data [] rc node rest
                Hok ltac:(constructor) Hrun) as [Hcode Hgood].
    split; [exact Hcode |]. intros Hrc.
    destruct (Hgood Hrc) as [(cs & -> & Hlen & Hcs) Hsuf].
    split; [apply node_wf_full; auto | apply Hcons, Hsuf]. }
  destruct (type =? HSK_VALUENODE).
  { pose proof (read_varbytes_cases data false Hok) as Hv.
    destruct (read_varbytes data false) as [[[rc1 out] out_len] varlen].
    destruct rc1;
      try (destruct Hv as [Hv _]; discriminate Hv);
      try (intros [= <- <- <-]; split; [right; right; reflexivity | discriminate]).
    intros [= <- <- <-]. split; [left; reflexivity |]. intros _.
    split; [exact I |]. apply Hcons. etransitivity; apply suffix_drop_of. }
  intros [= <- <- <-]. split; [right; left; reflexivity | discriminate].
Qed.

End parser_facts.


(** ** Key positions *)

(** A hash node that [next_child] hands back comes with a position of the
    key, reached from [p] without going back. *)
Lemma next_child_position (node : hsk_node) (k : list Z) (p : Z) :
  let '(_, node', p') := next_child node k p in
  match node' with HashNode _ => p <= p' <= 64 | _ => True end.
Proof.
  revert node p.
  fix IH 1. intros node p.
  destruct node as [| data | key value | children | data]; cbn [next_child].
  - destruct (65 - p >? 0); cbn; auto.
  - destruct (65 - p >? 0) eqn:E; [| cbn; auto].
    rewrite Z.gtb_ltb in E. apply Z.ltb_lt in E. cbn. lia.
  - destruct (65 - p >? 0); [| cbn; auto].
    destruct (_ || _); [cbn; auto |].
    specialize (IH value (p + Z.of_nat (length key))).
    destruct (next_child value k _) as [[rc node'] p'].
    destruct node'; auto. lia.
  - destruct (65 - p >? 0); [| cbn; auto].
    generalize (Z.to_nat (byte_at k p)).
    induction children as [| nn children IHc]; intros j.
    + cbn. auto.
    + destruct j as [| j]; [| apply IHc].
      specialize (IH nn (p + 1)).
      destruct (next_child nn k _) as [[rc node'] p'].
      destruct node'; auto. lia.
  - destruct (65 - p >? 0); cbn; auto.
Qed.

Section position_facts.
Context `{Blake2b, NodeTags}.

(** X15: the key position that [hsk_verify_proof] carries from blob to
    blob starts at 0, never goes back and stays within 0 .. 64, the
    indices of the 64 half-bytes of the key; the blobs still to come are
    a suffix of the list given. *)
Theorem walk_position (k : list Z) (c : list (list Z)) (h : list Z) (p : Z)
    (c' : list (list Z)) (h' : list Z) (p' : Z) :
  walk k c h p c' h' p' -> 0 <= p <= 64 ->
  p <= p' <= 64 /\ c' `suffix_of` c.
Proof.
  induction 1 as [| blob next h p node rest data p1 c' h' p' Hh Hp Hn _ IH];
    intros Hpos.
  - split; [lia | reflexivity].
  - pose proof (next_child_position node k p) as Hp1. rewrite Hn in Hp1.
    destruct (IH ltac:(lia)) as [Hrange Hsuf].
    split; [lia |]. apply suffix_cons_r, Hsuf.
Qed.
End position_facts.

Lemma walk_position_witness :
  0 <= 0 <= 64 /\ [leaf_blob] `suffix_of` [hash_blob; leaf_blob].
Proof.
  apply (@walk_position const_hash const_tags (to_nibbles (zeros 32) 32)
           [hash_blob; leaf_blob] (replicate 32 0xff) 0
           [leaf_blob] (replicate 32 0xff) 0).
  - eapply (@walk_next const_hash const_tags); [reflexivity | reflexivity | reflexivity |].
    apply walk_here.
  - lia.
Defined.

(** ** The descent of [next_child] *)

Lemma hsk_node_induction (P : hsk_node -> Prop) :
  P NullNode -> (forall d, P (HashNode d)) ->
  (forall key value, P value -> P (ShortNode key value)) ->
  (forall children, Forall P children -> P (FullNode children)) ->
  (forall d, P (ValueNode d)) ->
  forall node, P node.
Proof.
  intros Hnull Hhash Hshort Hfull Hvalue.
  fix IH 1. intros node.
  destruct node as [| d | key value | children | d].
  - exact Hnull.
  - apply Hhash.
  - apply Hshort, IH.
  - apply Hfull. induction children as [| c children IHc]; constructor;
      [apply IH | exact IHc].
  - apply Hvalue.
Qed.

Lemma next_child_short (key : list Z) (value : hsk_node) (k : list Z) (p : Z) :
  p <= 64 -> Z.of_nat (length key) <= 65 - p ->
  take (length key) (drop (Z.to_nat p) k) = key ->
  next_child (ShortNode key value) k p
  = next_child value k (p + Z.of_nat (length key)).
Proof.
  intros Hp Hlen Hkey. cbn [next_child].
  replace (65 - p >? 0) with true by (symmetry; rewrite Z.gtb_ltb; apply Z.ltb_lt; lia).
  replace (65 - p <? Z.of_nat (length key)) with false
    by (symmetry; apply Z.ltb_ge; lia).
  unfold memcmp_eq. rewrite Hkey, firstn_all.
  rewrite bool_decide_eq_true_2 by reflexivity. reflexivity.
Qed.

Lemma next_child_short_off (key : list Z) (value : hsk_node) (k : list Z) (p : Z) :
  p <= 64 ->
  ~ (Z.of_nat (length key) <= 65 - p
     /\ take (length key) (drop (Z.to_nat p) k) = key) ->
  next_child (ShortNode key value) k p = (HSK_SUCCESS, NullNode, -1).
Proof.
  intros Hp Hoff. cbn [next_child].
  replace (65 - p >? 0) with true by (symmetry; rewrite Z.gtb_ltb; apply Z.ltb_lt; lia).
  destruct (65 - p <? Z.of_nat (length key)) eqn:E; [reflexivity |].
  apply Z.ltb_ge in E. unfold memcmp_eq. rewrite firstn_all.
  rewrite bool_decide_eq_false_2; [reflexivity |].
  intros Heq. apply Hoff. split; [lia | exact Heq].
Qed.

Lemma next_child_full (children : list hsk_node) (k : list Z) (p : Z) :
  p <= 64 ->
  next_child (FullNode children) k p
  = match children !! Z.to_nat (byte_at k p) with
    | Some child => next_child child k (p + 1)
    | None => (HSK_SUCCESS, NullNode, -1)
    end.
Proof.
  intros Hp. cbn [next_child].
  replace (65 - p >? 0) with true by (symmetry; rewrite Z.gtb_ltb; apply Z.ltb_lt; lia).
  generalize (Z.to_nat (byte_at k p)).
  induction children as [| nn children IHc]; intros j; [destruct j; reflexivity |].
  destruct j as [| j]; [reflexivity | apply IHc].
Qed.

Lemma next_child_late (node : hsk_node) (k : list Z) (p : Z) :
  65 <= p ->
  next_child node k p
  = match node with
    | ValueNode _ => (HSK_SUCCESS, node, -1)
    | _ => (HSK_SUCCESS, NullNode, -1)
    end.
Proof.
  intros Hp. destruct node; cbn [next_child];
    replace (65 - p >? 0) with false
      by (symmetry; rewrite Z.gtb_ltb; apply Z.ltb_ge; lia);
    reflexivity.
Qed.

Lemma descends_next_child (k : list Z) node p node' q :
  descends k node p node' q ->
  forall r, stops_at node' q r -> next_child node k p = r.
Proof.
  induction 1 as [node p | key value p node' q Hp Hlen Hkey _ IH
                  | children child p node' q Hp Hchild _ IH]; intros r Hr.
  - destruct node as [| d | key value | children | d]; cbn [stops_at] in Hr;
      try contradiction.
    + destruct Hr as [Hp ->]. cbn [next_child].
      replace (65 - p >? 0) with true
        by (symmetry; rewrite Z.gtb_ltb; apply Z.ltb_lt; lia).
      reflexivity.
    + destruct Hr as [[Hp ->] | [Hp ->]].
      * cbn [next_child].
        replace (65 - p >? 0) with true
          by (symmetry; rewrite Z.gtb_ltb; apply Z.ltb_lt; lia).
        reflexivity.
      * apply (next_child_late (ValueNode d) k p Hp).
  - rewrite next_child_short by assumption. apply IH, Hr.
  - rewrite next_child_full, Hchild by assumption. apply IH, Hr.
Qed.

Lemma next_child_descends (k : list Z) (node : hsk_node) :
  forall p rc node' p',
    next_child node k p = (rc, node', p') -> node' <> NullNode ->
    exists q, descends k node p node' q /\ stops_at node' q (rc, node', p').
Proof.
  induction node as [| d | key value IH | children IH | d]
    using hsk_node_induction; intros p rc node' p' Hrun Hnn.
  - destruct (Z_le_gt_dec 65 p) as [Hp | Hp];
      [rewrite next_child_late in Hrun by assumption | cbn [next_child] in Hrun;
       destruct (65 - p >? 0)];
      injection Hrun as <- <- <-; congruence.
  - destruct (Z_le_gt_dec 65 p) as [Hp | Hp].
    + rewrite next_child_late in Hrun by assumption.
      injection Hrun as <- <- <-. congruence.
    + cbn [next_child] in Hrun.
      replace (65 - p >? 0) with true in Hrun
        by (symmetry; rewrite Z.gtb_ltb; apply Z.ltb_lt; lia).
      injection Hrun as <- <- <-. exists p. split; [apply descends_here |].
      cbn. split; [lia | reflexivity].
  - destruct (Z_le_gt_dec 65 p) as [Hp | Hp].
    + rewrite next_child_late in Hrun by assumption.
      injection Hrun as <- <- <-. congruence.
    + destruct (decide (Z.of_nat (length key) <= 65 - p
                        /\ take (length key) (drop (Z.to_nat p) k) = key))
        as [[Hlen Hkey] | Hoff].
      * rewrite next_child_short in Hrun by (assumption || lia).
        destruct (IH _ _ _ _ Hrun Hnn) as (q & Hd & Hs).
        exists q. split; [| exact Hs].
        apply descends_short; (assumption || lia).
      * rewrite next_child_short_off in Hrun by (assumption || lia).
        injection Hrun as <- <- <-. congruence.
  - destruct (Z_le_gt_dec 65 p) as [Hp | Hp].
    + rewrite next_child_late in Hrun by assumption.
      injection Hrun as <- <- <-. congruence.
    + rewrite next_child_full in Hrun by lia.
      destruct (children !! Z.to_nat (byte_at k p)) as [child |] eqn:Hchild;
        [| injection Hrun as <- <- <-; congruence].
      pose proof (Forall_lookup_1 _ _ _ _ IH Hchild) as IHc.
      destruct (IHc _ _ _ _ Hrun Hnn) as (q & Hd & Hs).
      exists q. split; [| exact Hs].
      eapply descends_full; [lia | exact Hchild | exact Hd].
  - destruct (Z_le_gt_dec 65 p) as [Hp | Hp].
    + rewrite next_child_late in Hrun by assumption.
      injection Hrun as <- <- <-. exists p. split; [apply descends_here |].
      cbn. right. split; [lia | reflexivity].
    + cbn [next_child] in Hrun.
      replace (65 - p >? 0) with true in Hrun
        by (symmetry; rewrite Z.gtb_ltb; apply Z.ltb_lt; lia).
      injection Hrun as <- <- <-. exists p. split; [apply descends_here |].
      cbn. left. split; [lia | reflexivity].
Qed.


(** ** Accepted proofs *)

Lemma read_varint_code (data : list Z) :
  let '(rc, _, _) := read_varint data in rc = HSK_SUCCESS \/ rc = HSK_EENCODING.
Proof.
  unfold read_varint.
  repeat match goal with
  | |- context [if ?c then _ else _] => destruct c
  end; auto.
Qed.

Lemma read_varbytes_code (data : list Z) (light : bool) :
  let '(rc, _, _, _) := read_varbytes data light in
  rc = HSK_SUCCESS \/ rc = HSK_EENCODING.
Proof.
  unfold read_varbytes. pose proof (read_varint_code data) as Hv.
  destruct (read_varint data) as [[rc size] v].
  destruct rc; auto. destruct (_ <? _); auto.
Qed.

Lemma decompress_code (data : list Z) :
  let '(rc, _, _) := decompress data in rc = HSK_SUCCESS.
Proof. unfold decompress. destruct (_ =? _)%nat; reflexivity. Qed.

Section parser_codes.
Context `{NodeTags}.

Lemma parse_children_code parse :
  (forall data rc node rest, parse data = Some (rc, node, rest) -> parse_code rc) ->
  forall n data acc rc node rest,
    parse_children parse n data acc = Some (rc, node, rest) -> parse_code rc.
Proof.
  intros Hparse. induction n as [| n IH]; intros data acc rc node rest;
    cbn [parse_children].
  - intros [= <- <- <-]. left. reflexivity.
  - destruct (parse data) as [[[rc1 child] rest1] |] eqn:Ep; [| discriminate].
    pose proof (Hparse _ _ _ _ Ep) as Hcode.
    destruct rc1; try (intros [= <- <- <-]; exact Hcode).
    apply IH.
Qed.

Lemma parse_node_code (fuel : nat) (data : list Z) rc node rest :
  parse_node fuel data = Some (rc, node, rest) -> parse_code rc.
Proof.
  revert data rc node rest.
  induction fuel as [| fuel IH]; intros data rc node rest; [discriminate |].
  cbn [parse_node]. unfold parse_code.
  destruct data as [| type data]; [intros [= <- <- <-]; auto |].
  destruct (type =? HSK_NULLNODE); [intros [= <- <- <-]; auto |].
  destruct (type =? HSK_HASHNODE).
  { destruct (length data <? 32)%nat; intros [= <- <- <-]; auto. }
  destruct (type =? HSK_SHORTNODE).
  { pose proof (read_varbytes_code data true) as Hv.
    destruct (read_varbytes data true) as [[[rc1 out] out_len] varlen].
    destruct Hv as [-> | ->]; [| intros [= <- <- <-]; auto].
    pose proof (decompress_code out) as Hd.
    destruct (decompress out) as [[rc2 dec] dec_len]. subst rc2.
    destruct (parse_node fuel _) as [[[rc3 value] rest3] |] eqn:Ep; [| discriminate].
    pose proof (IH _ _ _ _ Ep) as Hcode.
    destruct rc3; intros [= <- <- <-]; auto. }
  destruct (type =? HSK_FULLNODE).
  { apply (parse_children_code (parse_node fuel) IH). }
  destruct (type =? HSK_VALUENODE).
  { pose proof (read_varbytes_code data false) as Hv.
    destruct (read_varbytes data false) as [[[rc1 out] out_len] varlen].
    destruct Hv as [-> | ->]; intros [= <- <- <-]; auto. }
  intros [= <- <- <-]; auto.
Qed.

Lemma hsk_parse_node_code (data : list Z) :
  parse_code (fst (fst (hsk_parse_node data))).
Proof.
  destruct (parse_node_total (S (length data)) data ltac:(lia))
    as (rc & node & rest & Hrun & _).
  unfold hsk_parse_node. rewrite Hrun. cbn [default from_option id fst].
  exact (parse_node_code _ _ _ _ _ Hrun).
Qed.
End parser_codes.

Section accepted_facts.
Context `{Blake2b, NodeTags}.

Lemma verify_loop_absent k c h p len :
  verify_loop k c h p = (HSK_EPROOFOK, None, len) ->
  exists last h' p' node rest,
    walk k c h p [last] h' p'
    /\ memcmp_eq (hsk_hash_blake2b last) h' 32 = true
    /\ hsk_parse_node last = (HSK_SUCCESS, node, rest)
    /\ next_child node k p' = (HSK_SUCCESS, NullNode, -1).
Proof.
  revert h p. induction c as [| blob next IH]; intros h p; cbn [verify_loop];
    [discriminate |].
  destruct (memcmp_eq (hsk_hash_blake2b blob) h 32) eqn:Hh; cbn [negb];
    [| discriminate].
  pose proof (hsk_parse_node_code blob) as Hpc.
  destruct (hsk_parse_node blob) as [[rc node] rest] eqn:Hp.
  destruct Hpc as [Hpc | [Hpc | Hpc]]; cbn [fst] in Hpc; subst rc;
    try discriminate.
  destruct (next_child node k p) as [[rc node'] p1] eqn:Hn.
  pose proof (next_child_cases node k p) as Hc. rewrite Hn in Hc.
  destruct rc; try discriminate;
    try (destruct node'; cbn in Hc; intuition discriminate).
  destruct node' as [| data | key value | children | data]; try discriminate.
  - destruct next; [| discriminate]. intros _.
    cbn in Hc. destruct Hc as [_ ->].
    exists blob, h, p, node, rest. split; [apply walk_here | auto].
  - intros Hrun. destruct (IH _ _ Hrun) as (last & h' & p' & node' & rest' & Hw & Hrest).
    exists last, h', p', node', rest'. split; [| exact Hrest].
    eapply walk_next; eauto.
  - destruct next; discriminate.
Qed.

(** X17: with non-null [root] and [key], [hsk_verify_proof] returns
    [HSK_EPROOFOK] together with a payload exactly when the walk gets to
    the final blob and ends there on a value node holding that payload; and
    it returns [HSK_EPROOFOK] with [data] still [NULL] exactly when the
    walk gets to the final blob and the descent there ends on an absence. *)
Theorem verify_proof_accepts (root key : list Z) (nodes : list (list Z)) :
  let k := to_nibbles key 32 in
  (forall payload,
      hsk_verify_proof (Some root) (Some key) nodes
      = (HSK_EPROOFOK, Some payload, Z.of_nat (length payload))
      <-> exists last h p,
            walk k nodes root 0 [last] h p /\ ends_on_value k last h p payload)
  /\ (hsk_verify_proof (Some root) (Some key) nodes = (HSK_EPROOFOK, None, 0)
      <-> exists last h p node rest,
            walk k nodes root 0 [last] h p
            /\ memcmp_eq (hsk_hash_blake2b last) h 32 = true
            /\ hsk_parse_node last = (HSK_SUCCESS, node, rest)
            /\ next_child node k p = (HSK_SUCCESS, NullNode, -1)).
Proof.
  intros k. unfold hsk_verify_proof. fold k. split.
  - intros payload. split.
    + intros Hrun. pose proof (verify_loop_data k nodes root 0) as Hd.
      rewrite Hrun in Hd. destruct Hd as (_ & _ & Hd). exact Hd.
    + intros (last & h & p & Hw & Hh & node & rest & p' & Hp & Hn).
      rewrite (walk_verify_loop _ _ _ _ _ _ _ Hw).
      cbn [verify_loop]. rewrite Hh, Hp, Hn. reflexivity.
  - split.
    + apply verify_loop_absent.
    + intros (last & h & p & node & rest & Hw & Hh & Hp & Hn).
      rewrite (walk_verify_loop _ _ _ _ _ _ _ Hw).
      cbn [verify_loop]. rewrite Hh, Hp, Hn. reflexivity.
Qed.
End accepted_facts.

(** ** Return codes of the walker *)

Section walker_codes.
Context `{Blake2b, NodeTags}.

Lemma verify_loop_code k c h p : walk_code (fst (fst (verify_loop k c h p))).
Proof.
  unfold walk_code.
  revert h p. induction c as [| blob next IH]; intros h p; cbn [verify_loop];
    [cbn; auto |].
  destruct (memcmp_eq (hsk_hash_blake2b blob) h 32); cbn [negb]; [| cbn; auto].
  pose proof (hsk_parse_node_code blob) as Hpc.
  destruct (hsk_parse_node blob) as [[rc node] rest].
  destruct Hpc as [Hpc | [Hpc | Hpc]]; cbn [fst] in Hpc; subst rc;
    [| cbn; auto 8 | cbn; auto 8].
  pose proof (next_child_cases node k p) as Hc.
  destruct (next_child node k p) as [[rc node'] p1].
  destruct node' as [| data | key value | children | data]; cbn in Hc;
    try contradiction.
  - destruct Hc as [-> _]. destruct next; cbn; auto 8.
  - subst rc. apply IH.
  - destruct Hc as [[-> _] | ->]; [destruct next |]; cbn; auto 8.
Qed.

(** X18: [hsk_verify_proof] returns [HSK_EBADARGS] exactly when [root] or
    [key] is [NULL]; whatever the blobs hold, the [HSK_EINVALIDNODE] of its
    [default] case is never reached, [next_child] handing back only a null
    pointer, a hash node or a value node: every other result is the code of
    one of the remaining [return] statements, [HSK_ENORESULT],
    [HSK_EHASHMISMATCH], [HSK_EMALFORMEDNODE], [HSK_EENCODING],
    [HSK_EUNEXPECTEDNODE], [HSK_EEARLYEND] or [HSK_EPROOFOK]. *)
Theorem verify_proof_codes (root key : option (list Z)) (nodes : list (list Z)) :
  let rc := fst (fst (hsk_verify_proof root key nodes)) in
  (rc = HSK_EBADARGS <-> root = None \/ key = None)
  /\ (rc = HSK_EBADARGS \/ walk_code rc)
  /\ rc <> HSK_EINVALIDNODE.
Proof.
  intros rc. subst rc. unfold hsk_verify_proof.
  destruct root as [root |]; [destruct key as [key |] |].
  - pose proof (verify_loop_code (to_nibbles key 32) nodes root 0) as Hc.
    unfold walk_code in *.
    split; [| split; [right; exact Hc |]].
    + split; [| intros [? | ?]; discriminate].
      intros Hrc. rewrite Hrc in Hc. intuition discriminate.
    + intros Hrc; rewrite Hrc in Hc; intuition discriminate.
  - cbn. split; [tauto |]. split; [auto |]. discriminate.
  - cbn. split; [tauto |]. split; [auto |]. discriminate.
Qed.
End walker_codes.

(** ** A leaf as the whole proof *)

Lemma byte_at_cons (x : Z) (l : list Z) (i : Z) :
  0 <= i -> byte_at (x :: l) (i + 1) = byte_at l i.
Proof.
  intros Hi. unfold byte_at.
  replace (Z.to_nat (i + 1)) with (S (Z.to_nat i)) by lia. reflexivity.
Qed.

Lemma nibbles_loop_cons (n : nat) (x : Z) (l : list Z) (i : Z) :
  0 <= i -> nibbles_loop n (x :: l) (i + 1) = nibbles_loop n l i.
Proof.
  revert i. induction n as [| n IH]; intros i Hi; cbn [nibbles_loop]; [reflexivity |].
  rewrite byte_at_cons by assumption. rewrite IH by lia. reflexivity.
Qed.

(** A compressed key that opens with the flag byte 0x20 decompresses to
    the half-bytes of the bytes after it and the terminator. *)
Lemma decompress_flagged (rest : list Z) :
  Z.of_nat (length rest) < 2 ^ 29 ->
  exists dec,
    decompress (0x20 :: rest) = (HSK_SUCCESS, dec, Z.of_nat (2 * length rest + 1))
    /\ take (2 * length rest + 1) dec = to_nibbles rest (length rest).
Proof.
  intros Hsmall. set (b := length rest).
  assert (Hnib : to_nibbles (0x20 :: rest) (S b) = 2 :: 0 :: to_nibbles rest b).
  { unfold to_nibbles. cbn [nibbles_loop].
    rewrite (nibbles_loop_cons b 0x20 rest 0) by lia. reflexivity. }
  unfold decompress. cbn [length]. fold b.
  change (S b =? 0)%nat with false. cbv zeta. rewrite Hnib.
  change (byte_at (2 :: 0 :: to_nibbles rest b) 0) with 2.
  change (Z.land 2 1 =? 0) with true. change (Z.land 2 2 =? 0) with false.
  cbn [negb].
  rewrite i32_small by (change (2 ^ 31) with (4 * 2 ^ 29); lia).
  replace (Z.of_nat (2 * S b + 1) - 1 + 1 - 2) with (Z.of_nat (2 * b + 1)) by lia.
  eexists. split; [reflexivity |].
  rewrite Nat2Z.id. change (Z.to_nat 2) with 2%nat.
  destruct (decompress_loop_shift (2 * b + 1) (2 :: 0 :: to_nibbles rest b) 2 2)
    as [Hin _].
  { lia. } { cbn [length]. rewrite length_to_nibbles. lia. }
  apply list_eq. intros j. rewrite lookup_take.
  destruct (decide (j < 2 * b + 1)%nat) as [Hj | Hj].
  - rewrite Hin by lia. replace (j + 2)%nat with (S (S j)) by lia. reflexivity.
  - symmetry. apply lookup_ge_None. rewrite length_to_nibbles. lia.
Qed.

Lemma read_varbytes_short (n : Z) (body : list Z) (light : bool) :
  0 <= n < 0xfd -> n <= Z.of_nat (length body) ->
  read_varbytes (n :: body) light
  = (HSK_SUCCESS, take (Z.to_nat n) body, n, 1).
Proof.
  intros Hn Hlen. unfold read_varbytes, read_varint.
  cbn [length]. change (byte_at (n :: body) 0) with n.
  replace (Z.of_nat (S (length body)) =? 0) with false
    by (symmetry; apply Z.eqb_neq; lia).
  replace (n =? 0xff) with false by (symmetry; apply Z.eqb_neq; lia).
  replace (n =? 0xfe) with false by (symmetry; apply Z.eqb_neq; lia).
  replace (n =? 0xfd) with false by (symmetry; apply Z.eqb_neq; lia).
  unfold to_size_t. rewrite (Z.mod_small n) by (change (2 ^ 64) with 18446744073709551616; lia).
  replace (Z.of_nat (S (length body)) - 1 <? n) with false
    by (symmetry; apply Z.ltb_ge; lia).
  reflexivity.
Qed.

Section leaf_facts.
Context `{Blake2b, NodeTags}.

Lemma parse_leaf_for (key payload : list Z) :
  tags_distinct -> length key = 32%nat -> Z.of_nat (length payload) < 0xfd ->
  hsk_parse_node (leaf_for key payload)
  = (HSK_SUCCESS, ShortNode (to_nibbles key 32) (ValueNode payload), []).
Proof.
  intros Htags Hkey Hpay.
  assert (Hne : HSK_SHORTNODE <> HSK_NULLNODE /\ HSK_SHORTNODE <> HSK_HASHNODE
                /\ HSK_VALUENODE <> HSK_NULLNODE /\ HSK_VALUENODE <> HSK_HASHNODE
                /\ HSK_VALUENODE <> HSK_SHORTNODE /\ HSK_VALUENODE <> HSK_FULLNODE).
  { unfold tags_distinct in Htags. rewrite !NoDup_cons in Htags.
    rewrite !elem_of_cons in Htags. intuition congruence. }
  destruct Hne as (N1 & N2 & N3 & N4 & N5 & N6).
  unfold hsk_parse_node, leaf_for.
  set (tail := [HSK_VALUENODE; Z.of_nat (length payload)] ++ payload).
  cbn [app parse_node].
  replace (HSK_SHORTNODE =? HSK_NULLNODE) with false by (symmetry; apply Z.eqb_neq; exact N1).
  replace (HSK_SHORTNODE =? HSK_HASHNODE) with false by (symmetry; apply Z.eqb_neq; exact N2).
  rewrite Z.eqb_refl.
  rewrite (read_varbytes_short 33 (0x20 :: key ++ tail) true)
    by (cbn [length]; rewrite ?length_app; lia).
  change (Z.to_nat 33) with 33%nat. change (Z.to_nat 1) with 1%nat.
  cbn [take drop].
  rewrite take_app_length' by (symmetry; exact Hkey).
  destruct (decompress_flagged key) as (dec & -> & Hdec);
    [rewrite Hkey; reflexivity |].
  rewrite Hkey in Hdec |- *.
  change (Z.to_nat (Z.of_nat (2 * 32 + 1))) with (2 * 32 + 1)%nat. rewrite Hdec.
  rewrite drop_app_length' by (symmetry; exact Hkey).
  subst tail. cbn [app length parse_node].
  replace (HSK_VALUENODE =? HSK_NULLNODE) with false by (symmetry; apply Z.eqb_neq; exact N3).
  replace (HSK_VALUENODE =? HSK_HASHNODE) with false by (symmetry; apply Z.eqb_neq; exact N4).
  replace (HSK_VALUENODE =? HSK_SHORTNODE) with false by (symmetry; apply Z.eqb_neq; exact N5).
  replace (HSK_VALUENODE =? HSK_FULLNODE) with false by (symmetry; apply Z.eqb_neq; exact N6).
  rewrite Z.eqb_refl.
  rewrite (read_varbytes_short (Z.of_nat (length payload)) payload false) by lia.
  rewrite Nat2Z.id, firstn_all. change (Z.to_nat 1) with 1%nat.
  cbn [drop]. rewrite drop_all. reflexivity.
Qed.

Lemma verify_leaf (root key payload : list Z) :
  tags_distinct -> length key = 32%nat -> Z.of_nat (length payload) < 0xfd ->
  memcmp_eq (hsk_hash_blake2b (leaf_for key payload)) root 32 = true ->
  hsk_verify_proof (Some root) (Some key) [leaf_for key payload]
  = (HSK_EPROOFOK, Some payload, Z.of_nat (length payload)).
Proof.
  intros Htags Hkey Hpay Hroot.
  unfold hsk_verify_proof. cbn [verify_loop].
  rewrite Hroot, (parse_leaf_for key payload Htags Hkey Hpay). cbn [negb].
  rewrite (next_child_short (to_nibbles key 32) (ValueNode payload)
             (to_nibbles key 32) 0);
    [| lia | rewrite length_to_nibbles; lia
     | rewrite length_to_nibbles; change (Z.to_nat 0) with 0%nat;
       rewrite drop_0; apply take_ge; rewrite length_to_nibbles; lia].
  rewrite next_child_late by (rewrite length_to_nibbles; lia).
  reflexivity.
Qed.

(** X19: for every 32-byte [key] and every payload of fewer than 253
    bytes, the single blob made of a short node with the compressed key
    0x20, key and a value node with the payload is a complete proof under
    any root that the digest of the blob matches: [hsk_verify_proof]
    returns [HSK_EPROOFOK] and hands back the payload and its length. *)
Theorem verify_proof_leaf (root key payload : list Z) :
  tags_distinct -> length key = 32%nat -> Z.of_nat (length payload) < 0xfd ->
  memcmp_eq (hsk_hash_blake2b (leaf_for key payload)) root 32 = true ->
  hsk_verify_proof (Some root) (Some key) [leaf_for key payload]
  = (HSK_EPROOFOK, Some payload, Z.of_nat (length payload)).
Proof. exact (verify_leaf root key payload). Qed.

(** X20: [hsk_verify_name] checks a proof against the digest of the name:
    when that digest is 32 bytes long, the leaf blob for it with a payload
    of fewer than 253 bytes is accepted under any root matching the blob's
    digest, and with a [NULL] root the result is [HSK_EBADARGS] whatever
    the name. *)
Theorem verify_name_leaf (root name payload : list Z) :
  tags_distinct -> length (hsk_hash_blake2b name) = 32%nat ->
  Z.of_nat (length payload) < 0xfd ->
  memcmp_eq (hsk_hash_blake2b (leaf_for (hsk_hash_blake2b name) payload)) root 32
  = true ->
  hsk_verify_name (Some root) name [leaf_for (hsk_hash_blake2b name) payload]
  = (HSK_EPROOFOK, Some payload, Z.of_nat (length payload))
  /\ forall nodes, hsk_verify_name None name nodes = (HSK_EBADARGS, None, 0).
Proof.
  intros Htags Hkey Hpay Hroot. split; [| reflexivity].
  unfold hsk_verify_name. apply verify_leaf; assumption.
Qed.
End leaf_facts.

Lemma const_tags_distinct : @tags_distinct const_tags.
Proof. apply (bool_decide_unpack _). vm_compute. exact I. Qed.

Lemma verify_proof_leaf_witness :
  @hsk_verify_proof const_hash const_tags (Some (replicate 32 0xff))
    (Some (replicate 32 0xab)) [@leaf_for const_tags (replicate 32 0xab) [1; 2; 3]]
  = (HSK_EPROOFOK, Some [1; 2; 3], Z.of_nat (length [1; 2; 3])).
Proof.
  apply (@verify_proof_leaf const_hash const_tags (replicate 32 0xff)
           (replicate 32 0xab) [1; 2; 3]).
  - exact const_tags_distinct.
  - reflexivity.
  - reflexivity.
  - reflexivity.
Defined.

Lemma verify_name_leaf_witness :
  @hsk_verify_name const_hash const_tags (Some (replicate 32 0xff)) [0x63; 0x6f; 0x6d]
    [@leaf_for const_tags (const_hash [0x63; 0x6f; 0x6d]) [1; 2; 3]]
  = (HSK_EPROOFOK, Some [1; 2; 3], Z.of_nat (length [1; 2; 3]))
  /\ forall nodes,
       @hsk_verify_name const_hash const_tags None [0x63; 0x6f; 0x6d] nodes
       = (HSK_EBADARGS, None, 0).
Proof.
  apply (@verify_name_leaf const_hash const_tags (replicate 32 0xff)
           [0x63; 0x6f; 0x6d] [1; 2; 3]).
  - exact const_tags_distinct.
  - reflexivity.
  - reflexivity.
  - reflexivity.
Defined.

(** ** Chain work in terms of the compact number *)

Lemma get_proof_value (hdr : hsk_header_t) :
  fst (hsk_pow_to_target (bits hdr)) = true ->
  hsk_header_get_proof hdr
  = Some (be_bytes 32 (2 ^ 256 / (be_value (snd (hsk_pow_to_target (bits hdr))) + 1))).
Proof.
  intros Hacc. destruct (pow_to_target_bytes (bits hdr)) as [_ Hlen].
  unfold hsk_header_get_proof.
  destruct (hsk_pow_to_target (bits hdr)) as [ok target]. cbn [fst snd] in *.
  subst ok. cbn [negb].
  unfold bignum_to_array, bignum_div, bignum_inc, bignum_from_array,
    bignum_lshift, bignum_from_int.
  rewrite take_ge by lia. rewrite Z.shiftl_1_l. reflexivity.
Qed.

Lemma get_proof_rejected (hdr : hsk_header_t) :
  fst (hsk_pow_to_target (bits hdr)) = false -> hsk_header_get_proof hdr = None.
Proof.
  intros Hrej. unfold hsk_header_get_proof.
  destruct (hsk_pow_to_target (bits hdr)) as [ok target]. cbn [fst] in Hrej.
  subst ok. reflexivity.
Qed.

(** X21: [hsk_header_calc_work] returns what [hsk_pow_to_target] returns
    on the header's [bits]; when that is [false] the header is left as it
    was, and when it is [true] only the [work] field is written, with 32
    bytes. *)
Theorem calc_work_outcome (hdr : hsk_header_t) (prev : option hsk_header_t) :
  let r := hsk_header_calc_work hdr prev in
  fst r = fst (hsk_pow_to_target (bits hdr))
  /\ (fst r = false -> snd r = hdr)
  /\ (fst r = true ->
      snd r = set_work hdr (work (snd r))
      /\ length (work (snd r)) = 32%nat /\ bytes_ok (work (snd r))).
Proof.
  intros r. subst r. unfold hsk_header_calc_work.
  destruct (fst (hsk_pow_to_target (bits hdr))) eqn:Hacc.
  - rewrite (get_proof_value hdr Hacc).
    destruct prev as [prev |]; cbn [fst snd];
      (split; [reflexivity |]; split; [discriminate |]; intros _;
       split; [reflexivity |]; cbn [work set_work]; unfold bignum_to_array;
       split; [apply length_be_bytes | apply be_bytes_ok]).
  - rewrite (get_proof_rejected hdr Hacc).
    destruct prev as [prev |]; cbn [fst snd];
      (split; [reflexivity |]; split; [reflexivity | discriminate]).
Qed.

(** X22: for [bits] standing for a number [n] with [0 < n < 2^256]
    (non-zero, clear sign bit, exponent at most 34),
    [hsk_header_calc_work] with a previous header whose [work] is 32 bytes
    adds [floor(2^256 / (n + 1))], which is at least 1: the work stored is
    the previous work plus that weight modulo [2^256], and is strictly
    greater than the previous work whenever the sum stays below [2^256]. *)
Theorem calc_work_compact (hdr prev : hsk_header_t) :
  let n := compact_value (bits hdr) in
  let weight := 2 ^ 256 / (n + 1) in
  bits hdr <> 0 -> Z.land (Z.shiftr (bits hdr) 23) 1 = 0 ->
  0 <= Z.shiftr (bits hdr) 24 <= 34 -> 0 < n < 2 ^ 256 ->
  bytes_ok (work prev) -> length (work prev) = 32%nat ->
  let r := hsk_header_calc_work hdr (Some prev) in
  fst r = true
  /\ 1 <= weight
  /\ be_value (work (snd r)) = (be_value (work prev) + weight) mod 2 ^ 256
  /\ (be_value (work prev) + weight < 2 ^ 256 ->
      be_value (work prev) < be_value (work (snd r))).
Proof.
  intros n weight Hnz Hsign He Hn Hok Hlen r.
  destruct (pow_to_target_number (bits hdr) Hnz Hsign He) as [Hacc Hval].
  fold n in Hacc, Hval.
  assert (Hyes : fst (hsk_pow_to_target (bits hdr)) = true) by (apply Hacc; lia).
  specialize (Hval ltac:(lia)).
  pose proof (be_value_range (work prev) Hok) as Hprev. rewrite Hlen in Hprev.
  change (256 ^ Z.of_nat 32) with (2 ^ 256) in Hprev.
  assert (Hw : 1 <= weight < 2 ^ 256).
  { subst weight. split.
    - apply Z.div_le_lower_bound; lia.
    - apply Z.div_lt_upper_bound; [lia |].
      assert (0 < 2 ^ 256) by (apply Z.pow_pos_nonneg; lia). nia. }
  subst r. unfold hsk_header_calc_work.
  rewrite (get_proof_value hdr Hyes), Hval. fold weight.
  cbn [fst snd work set_work].
  unfold bignum_to_array, bignum_add, bignum_from_array.
  rewrite (take_ge (be_bytes 32 weight)) by (rewrite length_be_bytes; lia).
  rewrite (take_ge (work prev)) by lia.
  rewrite !be_value_be_bytes. change (256 ^ Z.of_nat 32) with (2 ^ 256).
  rewrite (Z.mod_small weight) by lia.
  split; [reflexivity |]. split; [lia |]. split; [reflexivity |].
  intros Hfit. rewrite Z.mod_small by lia. lia.
Qed.

Lemma calc_work_compact_witness :
  let n := compact_value (bits sample_header) in
  let weight := 2 ^ 256 / (n + 1) in
  let r := hsk_header_calc_work sample_header (Some hsk_header_init) in
  fst r = true
  /\ 1 <= weight
  /\ be_value (work (snd r)) = (be_value (work hsk_header_init) + weight) mod 2 ^ 256
  /\ (be_value (work hsk_header_init) + weight < 2 ^ 256 ->
      be_value (work hsk_header_init) < be_value (work (snd r))).
Proof.
  apply (calc_work_compact sample_header hsk_header_init).
  - discriminate.
  - reflexivity.
  - vm_compute. split; discriminate.
  - vm_compute. split; reflexivity.
  - apply bytes_okb_ok. reflexivity.
  - reflexivity.
Defined.

(** ** Header identity *)

Lemma length_header_pre (h : hsk_header_t) :
  header_wf h -> length (hsk_header_encode_pre h) = 160%nat.
Proof.
  intros (_ & Hp & Hm & Hw & Ht & _ & _ & Hn & _).
  unfold hsk_header_encode_pre. rewrite hsk_header_write_pre_some.
  cbn [snd default from_option id app].
  rewrite !length_app, !length_le_bytes, !length_take_le by lia. reflexivity.
Qed.

Section identity_facts.
Context `{Blake2b}.

Lemma header_cache_fresh (h : hsk_header_t) :
  cache h = false ->
  hsk_header_cache h
  = (hsk_hash_blake2b (header_bytes h),
     set_cache (set_hash h (hsk_hash_blake2b (header_bytes h))) true).
Proof.
  intros Hc. unfold hsk_header_cache, hsk_encode_header.
  rewrite Hc, hsk_header_write_some. reflexivity.
Qed.

(** X23: two byte strings that [hsk_header_read] accepts into headers with
    a clear cache flag and that agree on the bytes consumed give headers
    that [hsk_header_equal] finds equal, whatever follows those bytes and
    whatever height and work the two headers carry. *)
Theorem header_equal_decoded (d1 d2 : list Z) (h1 h2 : hsk_header_t) :
  bytes_ok d1 -> bytes_ok d2 ->
  length (sol h1) = 42%nat -> length (sol h2) = 42%nat ->
  cache h1 = false -> cache h2 = false ->
  fst (fst (hsk_header_read d1 h1)) = true ->
  fst (fst (hsk_header_read d2 h2)) = true ->
  take (161 + 4 * Z.to_nat (byte_at d1 160)) d1
  = take (161 + 4 * Z.to_nat (byte_at d2 160)) d2 ->
  fst (fst (hsk_header_equal (snd (hsk_header_read d1 h1))
                             (snd (hsk_header_read d2 h2)))) = true.
Proof.
  intros Hok1 Hok2 Hs1 Hs2 Hc1 Hc2 Hr1 Hr2 Hsame.
  destruct (hsk_header_read_keeps d1 h1) as (Hk1 & _).
  destruct (hsk_header_read_keeps d2 h2) as (Hk2 & _).
  pose proof (hsk_header_read_accepted d1 h1 Hr1) as Hi1.
  pose proof (hsk_header_read_accepted d2 h2 Hr2) as Hi2.
  destruct (hsk_header_read_image d1 h1 Hok1 Hi1 Hs1) as (a & Ha & _ & Hba).
  destruct (hsk_header_read_image d2 h2 Hok2 Hi2 Hs2) as (b & Hb & _ & Hbb).
  rewrite Ha in Hk1 |- *. rewrite Hb in Hk2 |- *. cbn [snd] in *.
  unfold hsk_header_equal.
  rewrite (header_cache_fresh a) by congruence.
  rewrite (header_cache_fresh b) by congruence.
  cbn [fst]. rewrite Hba, Hbb, Hsame. unfold memcmp_eq.
  apply bool_decide_eq_true_2. reflexivity.
Qed.

(** X24: for a header whose fields fit their C types, the digest that
    [hsk_header_hash_pre] computes is the digest of the first 160 bytes of
    what [hsk_encode_header] writes. *)
Theorem header_hash_pre_prefix (h : hsk_header_t) :
  header_wf h ->
  hsk_header_hash_pre h = hsk_hash_blake2b (take 160 (snd (hsk_encode_header h))).
Proof.
  intros Hwf. unfold hsk_header_hash_pre. f_equal.
  pose proof (length_header_pre h Hwf) as Hlen.
  assert (Hsplit : snd (hsk_encode_header h)
                   = hsk_header_encode_pre h
                     ++ le_bytes 1 (sol_size h) ++ encode_sol (sol h) (sol_size h)).
  { unfold hsk_encode_header, hsk_header_encode_pre.
    rewrite hsk_header_write_some, hsk_header_write_pre_some, encode_sol_bytes.
    cbn [fst snd default from_option id app].
    unfold header_bytes. rewrite <- !app_assoc. reflexivity. }
  rewrite Hsplit, take_app_length' by (symmetry; exact Hlen). reflexivity.
Qed.
End identity_facts.

Lemma header_equal_decoded_witness :
  fst (fst (@hsk_header_equal const_hash
              (snd (hsk_header_read (header_bytes sample_header ++ [1; 2; 3])
                      hsk_header_init))
              (snd (hsk_header_read (header_bytes sample_header ++ [9])
                      (set_work hsk_header_init (replicate 32 7)))))) = true.
Proof.
  apply (@header_equal_decoded const_hash
           (header_bytes sample_header ++ [1; 2; 3])
           (header_bytes sample_header ++ [9])
           hsk_header_init (set_work hsk_header_init (replicate 32 7))).
  - apply bytes_okb_ok. vm_compute. reflexivity.
  - apply bytes_okb_ok. vm_compute. reflexivity.
  - reflexivity.
  - reflexivity.
  - reflexivity.
  - reflexivity.
  - vm_compute. reflexivity.
  - vm_compute. reflexivity.
  - vm_compute. reflexivity.
Defined.

Lemma header_hash_pre_prefix_witness :
  @hsk_header_hash_pre const_hash sample_header
  = const_hash (take 160 (snd (hsk_encode_header sample_header))).
Proof.
  apply (@header_hash_pre_prefix const_hash sample_header).
  exact sample_header_wf.
Defined.

(** ** Encoding a target with more than three significant bytes *)

Lemma zero_prefix_upto (t : list Z) (i : nat) :
  (i <= length t)%nat -> (forall j, 0 <= j < Z.of_nat i -> byte_at t j = 0) ->
  take i t = zeros i.
Proof.
  intros Hlen Hz. apply list_eq. intros k. unfold zeros.
  rewrite lookup_take.
  destruct (decide (k < i)%nat) as [Hk | Hk].
  - rewrite lookup_replicate_2 by lia.
    specialize (Hz (Z.of_nat k) ltac:(lia)). unfold byte_at in Hz.
    rewrite Nat2Z.id in Hz.
    destruct (t !! k) as [x |] eqn:E.
    + cbn in Hz. subst x. reflexivity.
    + apply lookup_ge_None in E. lia.
  - symmetry. apply lookup_replicate_None. lia.
Qed.

Lemma pow_to_bits_large_closed (t : list Z) :
  bytes_ok t -> first_nonzero 32 t 0 < 29 ->
  let i := first_nonzero 32 t 0 in
  hsk_pow_to_bits t
  = Some ((32 - i) * 2 ^ 24 + (byte_at t i * 2 ^ 8 + byte_at t (i + 1))).
Proof.
  intros Hok Hi i.
  destruct (first_nonzero_spec 32 t 0) as (Hr & _ & _). fold i in Hr, Hi.
  unfold hsk_pow_to_bits. fold i.
  rewrite (u32_small (32 - i)) by (pow2_consts; lia).
  replace (32 - i =? 0) with false by (symmetry; apply Z.eqb_neq; lia).
  replace (32 - i <=? 3) with false by (symmetry; apply Z.leb_gt; lia).
  cbv zeta.
  rewrite (i32_small (32 - i - 3)) by lia.
  replace (Z.to_nat (31 - (32 - i - 3) - i)) with 2%nat by lia.
  cbn [pow_bits_loop].
  pose proof (bytes_ok_at t i Hok) as Hx.
  pose proof (bytes_ok_at t (i + 1) Hok) as Hy.
  unfold is_byte in Hx, Hy.
  assert (Hm : Z.lor (u32 (Z.shiftl (Z.lor (u32 (Z.shiftl 0 8)) (byte_at t i)) 8))
                 (byte_at t (i + 1))
               = byte_at t i * 2 ^ 8 + byte_at t (i + 1)).
  { rewrite Z.shiftl_0_l. change (u32 0) with 0. rewrite Z.lor_0_l.
    rewrite Z.shiftl_mul_pow2 by lia.
    rewrite u32_small by (pow2_consts; lia).
    apply (lor_add_disjoint _ _ 8);
      [lia | pow2_consts; Z.div_mod_to_equations; lia | pow2_consts; lia]. }
  rewrite Hm. set (m := byte_at t i * 2 ^ 8 + byte_at t (i + 1)).
  assert (Hmr : 0 <= m < 2 ^ 16) by (subst m; pow2_consts; lia).
  rewrite land_bit23 by (pow2_consts; lia).
  replace (m <? 2 ^ 23) with true by (symmetry; apply Z.ltb_lt; pow2_consts; lia).
  cbn [negb]. f_equal.
  rewrite u32_small by (rewrite Z.shiftl_mul_pow2 by lia; pow2_consts; lia).
  apply lor_shiftl_add; [lia | pow2_consts; lia].
Qed.

(** The value of a 32-byte target in terms of its first non-zero byte, the
    byte after it and the rest. *)
Lemma be_value_leading (t : list Z) (i : nat) :
  length t = 32%nat -> bytes_ok t -> (i + 2 <= 32)%nat ->
  (forall j, 0 <= j < Z.of_nat i -> byte_at t j = 0) ->
  exists r,
    be_value t
    = (byte_at t (Z.of_nat i) * 256 + byte_at t (Z.of_nat i + 1))
      * 256 ^ (30 - Z.of_nat i) + r
    /\ 0 <= r < 256 ^ (30 - Z.of_nat i).
Proof.
  intros Hlen Hok Hi Hz.
  pose proof (zero_prefix_upto t i ltac:(lia) Hz) as Hpre.
  destruct (t !! i) as [x |] eqn:Ex; [| apply lookup_ge_None in Ex; lia].
  destruct (t !! S i) as [y |] eqn:Ey; [| apply lookup_ge_None in Ey; lia].
  assert (Hx : byte_at t (Z.of_nat i) = x)
    by (unfold byte_at; rewrite Nat2Z.id, Ex; reflexivity).
  assert (Hy : byte_at t (Z.of_nat i + 1) = y).
  { unfold byte_at. replace (Z.to_nat (Z.of_nat i + 1)) with (S i) by lia.
    rewrite Ey. reflexivity. }
  rewrite Hx, Hy.
  exists (be_value (drop (S (S i)) t)).
  pose proof (be_value_range (drop (S (S i)) t) ltac:(apply Forall_drop, Hok)) as Hr.
  rewrite length_drop, Hlen in Hr.
  replace (Z.of_nat (32 - S (S i))) with (30 - Z.of_nat i) in Hr by lia.
  split; [| exact Hr].
  rewrite <- (take_drop i t) at 1. rewrite Hpre.
  rewrite (drop_S t x i Ex), (drop_S t y (S i) Ey).
  rewrite be_value_app, be_value_zeros, !be_value_cons.
  cbn [length]. rewrite length_drop, Hlen.
  replace (Z.of_nat (S (32 - S (S i)))) with (30 - Z.of_nat i + 1) by lia.
  replace (Z.of_nat (32 - S (S i))) with (30 - Z.of_nat i) by lia.
  rewrite Z.pow_add_r by lia. change (256 ^ 1) with 256. lia.
Qed.

(** X25: on a 32-byte target with more than three significant bytes (its
    first non-zero byte at an index [i < 29]), [hsk_pow_to_bits] always
    succeeds and keeps two bytes: the bits are [e * 2^24 + m] with
    [e = 32 - i] and [m] the target cut to its two leading bytes,
    [floor(target / 256^(e - 2))]; the number these bits stand for is
    [m * 256^(e - 3)], a 256th of the target cut to those two bytes. *)
Theorem pow_to_bits_two_bytes (t : list Z) :
  length t = 32%nat -> bytes_ok t -> first_nonzero 32 t 0 < 29 ->
  let e := 32 - first_nonzero 32 t 0 in
  let m := be_value t / 256 ^ (e - 2) in
  256 <= m < 2 ^ 16
  /\ hsk_pow_to_bits t = Some (e * 2 ^ 24 + m)
  /\ compact_value (e * 2 ^ 24 + m) = m * 256 ^ (e - 3).
Proof.
  intros Hlen Hok Hi e m.
  destruct (first_nonzero_spec 32 t 0) as (Hr & Hz & Hnz).
  specialize (Hnz ltac:(lia)).
  set (i := first_nonzero 32 t 0) in *.
  pose proof (bytes_ok_at t i Hok) as Hx.
  pose proof (bytes_ok_at t (i + 1) Hok) as Hy.
  unfold is_byte in Hx, Hy.
  destruct (be_value_leading t (Z.to_nat i) Hlen Hok ltac:(lia)) as (r & Hval & Hrr).
  { intros j Hj. apply Hz. lia. }
  replace (Z.of_nat (Z.to_nat i)) with i in Hval, Hrr by lia.
  assert (Hm : m = byte_at t i * 256 + byte_at t (i + 1)).
  { subst m e. replace (32 - i - 2) with (30 - i) by lia.
    rewrite Hval. rewrite Z.div_add_l by (apply Z.pow_nonzero; lia).
    rewrite (Z.div_small r) by exact Hrr. lia. }
  assert (Hmr : 256 <= m < 2 ^ 16) by (rewrite Hm; pow2_consts; lia).
  split; [exact Hmr |]. split.
  - rewrite (pow_to_bits_large_closed t Hok Hi). fold i. fold e.
    rewrite Hm. pow2_consts. reflexivity.
  - unfold compact_value.
    destruct (bits_fields e m ltac:(pow2_consts; lia)) as [-> _].
    rewrite land_7fffff_mod.
    replace ((e * 2 ^ 24 + m) mod 2 ^ 23) with m
      by (pow2_consts; Z.div_mod_to_equations; lia).
    replace e with (e - 3 + 3) at 1 by lia.
    rewrite Z.pow_add_r, Z.mul_assoc by lia.
    apply Z.div_mul. lia.
Qed.

Lemma pow_to_bits_two_bytes_witness :
  let t := zeros 4 ++ [0xff; 0xff] ++ zeros 26 in
  let e := 32 - first_nonzero 32 t 0 in
  let m := be_value t / 256 ^ (e - 2) in
  256 <= m < 2 ^ 16
  /\ hsk_pow_to_bits t = Some (e * 2 ^ 24 + m)
  /\ compact_value (e * 2 ^ 24 + m) = m * 256 ^ (e - 3).
Proof.
  apply (pow_to_bits_two_bytes (zeros 4 ++ [0xff; 0xff] ++ zeros 26)).
  - reflexivity.
  - apply bytes_okb_ok. reflexivity.
  - reflexivity.
Defined.

(** X3: on a 32-byte target, [hsk_pow_to_bits] fails exactly when the first
    non-zero byte is one of the last three and has its top bit set, the bit
    that would read as the sign of the compact value; a target with more
    significant bytes is never refused. *)
Theorem pow_to_bits_negative (t : list Z) :
  length t = 32%nat -> bytes_ok t ->
  (hsk_pow_to_bits t = None
   <-> 29 <= first_nonzero 32 t 0 < 32
       /\ 0x80 <= byte_at t (first_nonzero 32 t 0)).
Proof.
  intros Hlen Hok.
  destruct (first_nonzero_spec 32 t 0) as (Hr & _ & _).
  destruct (Z_lt_ge_dec (first_nonzero 32 t 0) 29) as [Hlarge | Hsmall].
  - rewrite (pow_to_bits_large_closed t Hok Hlarge).
    split; [discriminate | lia].
  - destruct (Z.eq_dec (first_nonzero 32 t 0) 32) as [Hall | Hsome].
    + unfold hsk_pow_to_bits. rewrite Hall. cbn.
      split; [discriminate | lia].
    + rewrite (pow_to_bits_negative_small t Hlen Hok) by lia.
      split; [intros Hneg; split; [lia | exact Hneg] | tauto].
Qed.

Lemma pow_to_bits_negative_witness :
  hsk_pow_to_bits (zeros 29 ++ [0x80; 0; 0]) = None.
Proof.
  apply (pow_to_bits_negative (zeros 29 ++ [0x80; 0; 0])).
  - reflexivity.
  - apply bytes_okb_ok. reflexivity.
  - vm_compute. split; [split; [discriminate | reflexivity] | discriminate].
Defined.

(** ** The hash chain *)

Lemma slice_of_suffix (h l1 l2 : list Z) :
  l1 `suffix_of` l2 -> slice_of h l1 -> slice_of h l2.
Proof.
  intros [pre ->] (i & Hi & ->). exists (length pre + i)%nat.
  split; [rewrite length_app; lia |].
  rewrite <- drop_drop, drop_app_length. reflexivity.
Qed.

Lemma descends_holds (k : list Z) node p h q :
  descends k node p (HashNode h) q -> holds h node.
Proof.
  remember (HashNode h) as target eqn:Ht.
  induction 1 as [node p | key value p node' q Hp Hlen Hkey _ IH
                  | children child p node' q Hp Hchild _ IH].
  - subst node. constructor.
  - apply holds_short, IH, Ht.
  - eapply holds_full; [| apply IH, Ht].
    eapply list_elem_of_lookup_2, Hchild.
Qed.

Section chain_facts.
Context `{Blake2b, NodeTags}.

Lemma parse_children_slices parse :
  parse_slices parse ->
  forall n data acc node rest,
    parse_children parse n data acc = Some (HSK_SUCCESS, node, rest) ->
    rest `suffix_of` data
    /\ forall h, holds h node ->
         slice_of h data \/ exists c, c ∈ acc /\ holds h c.
Proof.
  intros Hparse. induction n as [| n IH]; intros data acc node rest;
    cbn [parse_children].
  - intros [= <- <-]. split; [reflexivity |].
    intros h Hh. inversion Hh as [| | children child Hin Hc]; subst.
    right. exists child. split; [| exact Hc].
    apply list_elem_of_In, in_rev, list_elem_of_In, Hin.
  - destruct (parse data) as [[[rc1 child] rest1] |] eqn:Ep; [| discriminate].
    destruct rc1; try discriminate.
    destruct (Hparse _ _ _ Ep) as [Hsuf Hchild].
    intros Hrun. destruct (IH _ _ _ _ Hrun) as [Hsuf' Hrest].
    split; [etransitivity; eassumption |].
    intros h Hh. destruct (Hrest h Hh) as [Hs | (c & Hin & Hc)].
    + left. eapply slice_of_suffix; eassumption.
    + apply elem_of_cons in Hin. destruct Hin as [-> | Hin].
      * left. apply Hchild, Hc.
      * right. exists c. auto.
Qed.

Lemma parse_node_slices (fuel : nat) : parse_slices (parse_node fuel).
Proof.
  induction fuel as [| fuel IH]; intros data node rest; [discriminate |].
  cbn [parse_node].
  destruct data as [| type data]; [discriminate |].
  assert (Hcons : forall l, l `suffix_of` data -> l `suffix_of` type :: data)
    by (intros l Hl; apply suffix_cons_r, Hl).
  assert (Hslice : forall h, slice_of h data -> slice_of h (type :: data)).
  { intros h. apply slice_of_suffix, suffix_cons_r. reflexivity. }
  destruct (type =? HSK_NULLNODE).
  { intros [= <- <-]. split; [apply Hcons; reflexivity |].
    intros h Hh. inversion Hh. }
  destruct (type =? HSK_HASHNODE).
  { destruct (length data <? 32)%nat eqn:E; [discriminate |].
    apply Nat.ltb_ge in E. intros [= <- <-].
    split; [apply Hcons, suffix_drop_of |].
    intros h Hh. inversion Hh; subst. apply Hslice.
    exists 0%nat. split; [lia | rewrite drop_0; reflexivity]. }
  destruct (type =? HSK_SHORTNODE).
  { destruct (read_varbytes data true) as [[[rc1 out] out_len] varlen].
    destruct rc1; try discriminate.
    destruct (decompress out) as [[rc2 dec] dec_len].
    destruct rc2; try discriminate.
    destruct (parse_node fuel _) as [[[rc3 value] rest3] |] eqn:Ep; [| discriminate].
    destruct rc3; try discriminate.
    destruct (IH _ _ _ Ep) as [Hsuf Hvalue].
    assert (Hdd : drop (Z.to_nat out_len) (drop (Z.to_nat varlen) data)
                  `suffix_of` data)
      by (etransitivity; apply suffix_drop_of).
    intros [= <- <-]. split.
    - apply Hcons. etransitivity; eassumption.
    - intros h Hh. inversion Hh; subst. apply Hslice.
      eapply slice_of_suffix; [exact Hdd |]. apply Hvalue. assumption. }
  destruct (type =? HSK_FULLNODE).
  { intros Hrun.
    destruct (parse_children_slices (parse_node fuel) IH 17 data [] node rest Hrun)
      as [Hsuf Hin].
    split; [apply Hcons, Hsuf |].
    intros h Hh. destruct (Hin h Hh) as [Hs | (c & Hc & _)];
      [apply Hslice, Hs | apply elem_of_nil in Hc; contradiction]. }
  destruct (type =? HSK_VALUENODE).
  { destruct (read_varbytes data false) as [[[rc1 out] out_len] varlen].
    destruct rc1; try discriminate.
    intros [= <- <-]. split.
    - apply Hcons. etransitivity; apply suffix_drop_of.
    - intros h Hh. inversion Hh. }
  discriminate.
Qed.

Lemma hsk_parse_node_slices (blob : list Z) node rest h :
  hsk_parse_node blob = (HSK_SUCCESS, node, rest) ->
  holds h node -> slice_of h blob.
Proof.
  intros Hrun Hh.
  destruct (parse_node_total (S (length blob)) blob ltac:(lia))
    as (rc & node' & rest' & Hp & _).
  unfold hsk_parse_node in Hrun. rewrite Hp in Hrun.
  cbn [default from_option id] in Hrun. injection Hrun as -> -> ->.
  exact (proj2 (parse_node_slices _ _ _ _ Hp) h Hh).
Qed.

(** X26: the hash that [hsk_verify_proof] expects of a blob is the [root]
    for the first blob and, for every later blob, 32 consecutive bytes of
    the blob just before it: whenever the walk has passed blobs, the hash
    expected next is a slice of the last blob passed. *)
Theorem walk_hash_chain (k : list Z) (c : list (list Z)) (h : list Z) (p : Z)
    (c' : list (list Z)) (h' : list Z) (p' : Z) :
  walk k c h p c' h' p' ->
  (c' = c /\ h' = h /\ p' = p)
  \/ exists passed blob,
       c = passed ++ blob :: c' /\ slice_of h' blob.
Proof.
  induction 1 as [| blob next h p node rest data p1 c' h' p' Hh Hp Hn _ IH];
    [left; auto |].
  right. destruct IH as [(-> & -> & ->) | (passed & last & -> & Hs)].
  - exists [], blob. split; [reflexivity |].
    apply (hsk_parse_node_slices blob node rest _ Hp).
    destruct (next_child_descends k node p _ _ _ Hn ltac:(discriminate))
      as (q & Hd & _).
    exact (descends_holds k node p data q Hd).
  - exists (blob :: passed), last. split; [reflexivity | exact Hs].
Qed.
End chain_facts.

Lemma walk_hash_chain_witness :
  ([leaf_blob] = [hash_blob; leaf_blob] /\ replicate 32 0xff = replicate 32 0xff /\ 0 = 0)
  \/ exists passed blob,
       [hash_blob; leaf_blob] = passed ++ blob :: [leaf_blob]
       /\ slice_of (replicate 32 0xff) blob.
Proof.
  apply (@walk_hash_chain const_hash const_tags (to_nibbles (zeros 32) 32)
           [hash_blob; leaf_blob] (replicate 32 0xff) 0
           [leaf_blob] (replicate 32 0xff) 0).
  eapply (@walk_next const_hash const_tags); [reflexivity | reflexivity | reflexivity |].
  apply walk_here.
Defined.
